(** * A shallow embedding of the python-raytracer rendering core

    The Python sources ([vec3.py], [interval.py], [ray.py], [core.py],
    [hittable.py], [material.py], [color.py], [camera.py], [raytracer.py])
    are embedded one Rocq module per Python module, keeping the source
    names.

    Modelling conventions.
    - A Python [float] is an exact real number ([R]): rounding, underflow
      and overflow are not modelled.  The only non-finite value the program
      manufactures is [utils.infinity], and it is only ever stored in the
      bounds of an [Interval]; those two fields are therefore extended
      reals ([xfloat]).  An exact real and the binary64 number computed for
      it can differ in being zero at the extremes of the format: the
      squared length of the direction [(1e-200, 0, 0)] is not zero, but it
      underflows to [0.0], and the program then divides by zero.  Where a
      theorem says that a computation on a direction returns, it therefore
      bounds the squared length of the direction ([1e-300] below, and
      [1e300] above where it matters).
    - Python exceptions are explicit: every operation that can raise
      ([1 / other], [math.sqrt], [int], [range] with a zero step, the
      [__post_init__] validators) returns a [result].
    - [Interval] objects are mutable and passed by reference ([World.hit]
      copies its argument and narrows the copy), so they live in a store of
      objects addressed by location.
    - The process-wide random generator is a tape of samples together with a
      read position; the rejection-sampling [while True] loops take fuel.
    - Counts ([samples_per_pixel], the recursion depth, pixel coordinates)
      are natural numbers; the image dimensions, which [__init__] computes
      with [int] and [max], are integers.
    - The progress messages and the PNG encoder are left out: the PNG
      renderers return the array they hand to the encoder, and
      [Camera.render] returns the text it writes to its file. *)

From Stdlib Require Import Reals Lra Lia ZArith List Ascii String DecimalString.
From stdpp Require Import base list.

Open Scope R_scope.

Set Warnings "-register-all".

(** ** Outcomes of a Python computation *)

Inductive exn : Type :=
| ZeroDivisionError
| ValueError (msg : string)
| OverflowError
| IndexError.

(** [OutOfFuel] and [BadRef] are artefacts of the embedding: a bounded loop
    that used up its fuel, and a location that is not in the store. *)
Inductive result (A : Type) : Type :=
| Ok (a : A)
| Raise (e : exn)
| OutOfFuel
| BadRef.

Arguments Ok {A} a.
Arguments Raise {A} e.
Arguments OutOfFuel {A}.
Arguments BadRef {A}.

Definition rbind {A B : Type} (c : result A) (k : A -> result B) : result B :=
  match c with
  | Ok a => k a
  | Raise e => Raise e
  | OutOfFuel => OutOfFuel
  | BadRef => BadRef
  end.

Notation "'let?' x ':=' c 'in' k" := (rbind c (fun x => k))
  (at level 10, x name, c at level 100, k at level 200).

(** ** Floating-point numbers, idealised *)

Module float.

Definition ltb (a b : R) : bool := if Rlt_dec a b then true else false.
Definition leb (a b : R) : bool := if Rle_dec a b then true else false.
Definition eqb (a b : R) : bool := if Req_dec_T a b then true else false.

(** [a / b] on floats. *)
Definition truediv (a b : R) : result R :=
  if eqb b 0 then Raise ZeroDivisionError else Ok (a / b).

(** [math.sqrt]. *)
Definition sqrt (a : R) : result R :=
  if ltb a 0 then Raise (ValueError "math domain error") else Ok (R_sqrt.sqrt a).

(** [min(a, b)] and [abs(a)] of the Python built-ins. *)
Definition min (a b : R) : R := if ltb b a then b else a.
Definition abs (a : R) : R := Rabs a.

(** Extended reals, for values that may be [utils.infinity]. *)
Inductive xfloat : Type :=
| nan
| ninf
| fin (r : R)
| pinf.

Definition xltb (a b : xfloat) : bool :=
  match a, b with
  | nan, _ | _, nan => false
  | ninf, ninf => false
  | ninf, _ => true
  | fin _, ninf => false
  | fin u, fin v => ltb u v
  | fin _, pinf => true
  | pinf, _ => false
  end.

Definition xleb (a b : xfloat) : bool :=
  match a, b with
  | nan, _ | _, nan => false
  | ninf, _ => true
  | fin _, ninf => false
  | fin u, fin v => leb u v
  | fin _, pinf => true
  | pinf, pinf => true
  | pinf, _ => false
  end.

(** [k * a] for a finite [k]. *)
Definition xmul (k : R) (a : xfloat) : xfloat :=
  match a with
  | nan => nan
  | fin r => fin (k * r)
  | pinf => if ltb 0 k then pinf else if ltb k 0 then ninf else nan
  | ninf => if ltb 0 k then ninf else if ltb k 0 then pinf else nan
  end.

(** [a - b]; the difference of two equal infinities is not a number. *)
Definition xsub (a b : xfloat) : xfloat :=
  match a, b with
  | nan, _ | _, nan => nan
  | fin u, fin v => fin (u - v)
  | pinf, pinf | ninf, ninf => nan
  | pinf, _ | _, ninf => pinf
  | ninf, _ | _, pinf => ninf
  end.

(** [int(a)] on a finite float truncates towards zero. *)
Definition trunc (a : R) : Z :=
  if ltb a 0 then (- Int_part (- a))%Z else Int_part a.

(** [int(a)]. *)
Definition int (a : xfloat) : result Z :=
  match a with
  | nan => Raise (ValueError "cannot convert float NaN to integer")
  | fin r => Ok (trunc r)
  | pinf | ninf => Raise OverflowError
  end.

End float.

Coercion float.fin : R >-> float.xfloat.

Module utils.

Definition infinity : float.xfloat := float.pinf.
Definition pi : R := PI.

Definition degrees_to_radians (degrees : R) : R := (degrees * pi) / 180.

End utils.

(** ** interval.py *)

Module interval.

Record Interval : Type := mkInterval { min : float.xfloat; max : float.xfloat }.

(** The dataclass defaults: [Interval()] is the whole line. *)
Definition default : Interval := mkInterval float.ninf utils.infinity.

(** The property [size]. *)
Definition size (self : Interval) : float.xfloat :=
  float.xsub (max self) (min self).

Definition contains (self : Interval) (x : R) : bool :=
  float.xleb (min self) x && float.xleb x (max self).

Definition surrounds (self : Interval) (x : R) : bool :=
  float.xltb (min self) x && float.xltb x (max self).

Definition clamp (self : Interval) (x : R) : float.xfloat :=
  if float.xltb x (min self) then min self
  else if float.xltb (max self) x then max self
  else x.

End interval.

(** ** The store of [Interval] objects, the random tape, and the monad *)

Abbreviation loc := nat (only parsing).

Record state : Type := mkState {
  heap : list interval.Interval;
  tape : nat -> R;
  pos : nat
}.

Definition M (A : Type) : Type := state -> result (A * state).

Definition ret {A : Type} (a : A) : M A := fun st => Ok (a, st).

Definition bind {A B : Type} (c : M A) (k : A -> M B) : M B :=
  fun st =>
    match c st with
    | Ok (a, st') => k a st'
    | Raise e => Raise e
    | OutOfFuel => OutOfFuel
    | BadRef => BadRef
    end.

Definition lift {A : Type} (c : result A) : M A :=
  fun st => rbind c (fun a => Ok (a, st)).

Notation "'let*' x ':=' c 'in' k" := (bind c (fun x => k))
  (at level 10, x name, c at level 100, k at level 200).

(** Object allocation, field reads, and the assignment [obj.max = v]. *)
Definition alloc (i : interval.Interval) : M loc :=
  fun st => Ok (length (heap st), mkState (heap st ++ [i]) (tape st) (pos st)).

Definition deref (l : loc) : M interval.Interval :=
  fun st => match heap st !! l with
            | Some i => Ok (i, st)
            | None => BadRef
            end.

Definition set_max (l : loc) (v : float.xfloat) : M unit :=
  fun st => match heap st !! l with
            | Some i =>
                Ok (tt, mkState (<[l := interval.mkInterval (interval.min i) v]> (heap st))
                                (tape st) (pos st))
            | None => BadRef
            end.

(** [copy.copy(obj)] on an [Interval]: a new object with the same fields. *)
Definition copy (l : loc) : M loc :=
  let* i := deref l in alloc i.

(** ** The [random] module of the Python library *)

Module random.

Definition random : M R :=
  fun st => Ok (tape st (pos st), mkState (heap st) (tape st) (S (pos st))).

(** [uniform(a, b)] is [a + (b - a) * random()]. *)
Definition uniform (a b : R) : M R :=
  let* u := random in ret (a + (b - a) * u).

End random.

(** ** vec3.py *)

Module vec3.

Record Vec3 : Type := from_xyz { x : R; y : R; z : R }.

Definition Point3 : Type := Vec3.

(** [__add__], [__sub__], [__mul__] (by a vector, by a number),
    [__truediv__] and [__neg__]. *)
Definition add (self other : Vec3) : Vec3 :=
  from_xyz (x self + x other) (y self + y other) (z self + z other).

Definition sub (self other : Vec3) : Vec3 :=
  from_xyz (x self - x other) (y self - y other) (z self - z other).

Definition mul_vec (self other : Vec3) : Vec3 :=
  from_xyz (x self * x other) (y self * y other) (z self * z other).

Definition mul (self : Vec3) (other : R) : Vec3 :=
  from_xyz (x self * other) (y self * other) (z self * other).

Definition truediv (self : Vec3) (other : R) : result Vec3 :=
  let? k := float.truediv 1 other in Ok (mul self k).

Definition inverse (self : Vec3) : Vec3 :=
  from_xyz (- x self) (- y self) (- z self).

Definition neg (self : Vec3) : Vec3 := inverse self.

Definition length_squared (self : Vec3) : R :=
  x self * x self + y self * y self + z self * z self.

Definition length (self : Vec3) : result R :=
  float.sqrt (length_squared self).

Definition uniform (min max : R) : M Vec3 :=
  let* a := random.uniform min max in
  let* b := random.uniform min max in
  let* c := random.uniform min max in
  ret (from_xyz a b c).

Definition near_zero (self : Vec3) : bool :=
  let s := 1e-8 in
  float.ltb (float.abs (x self)) s
  && float.ltb (float.abs (y self)) s
  && float.ltb (float.abs (z self)) s.

Definition dot (u v : Vec3) : R :=
  x u * x v + y u * y v + z u * z v.

Definition cross (u v : Vec3) : Vec3 :=
  from_xyz (y u * z v - z u * y v)
           (z u * x v - x u * z v)
           (x u * y v - y u * x v).

Definition unit_vector (v : Vec3) : result Vec3 :=
  let? l := length v in truediv v l.

(** [while True]: each iteration draws a candidate; [fuel] bounds the
    number of iterations. *)
Fixpoint random_unit_vector (fuel : nat) : M Vec3 :=
  match fuel with
  | O => fun _ => OutOfFuel
  | S fuel' =>
      let* p := uniform (-1) 1 in
      let lensq := length_squared p in
      if float.ltb 1e-160 lensq && float.leb lensq 1
      then lift (let? s := float.sqrt lensq in truediv p s)
      else random_unit_vector fuel'
  end.

Fixpoint random_in_unit_disk (fuel : nat) : M Vec3 :=
  match fuel with
  | O => fun _ => OutOfFuel
  | S fuel' =>
      let* a := random.uniform (-1) 1 in
      let* b := random.uniform (-1) 1 in
      let p := from_xyz a b 0 in
      if float.ltb (length_squared p) 1
      then ret p
      else random_in_unit_disk fuel'
  end.

Definition random_on_hemisphere (fuel : nat) (normal : Vec3) : M Vec3 :=
  let* on_unit_sphere := random_unit_vector fuel in
  if float.ltb 0 (dot on_unit_sphere normal)
  then ret on_unit_sphere
  else ret (neg on_unit_sphere).

Definition reflect (v normal : Vec3) : Vec3 :=
  sub v (mul (mul normal (dot v normal)) 2).

Definition refract (uv n : Vec3) (relative_refractive_index : R) : result Vec3 :=
  let cos_theta := float.min (dot (neg uv) n) 1 in
  let r_out_perp := mul (add uv (mul n cos_theta)) relative_refractive_index in
  let? s := float.sqrt (float.abs (1 - length_squared r_out_perp)) in
  let r_out_parallel := mul n (- s) in
  Ok (add r_out_perp r_out_parallel).

(** The classmethod [Vec3.random]. *)
Definition random : M Vec3 :=
  let* a := random.random in
  let* b := random.random in
  let* c := random.random in
  ret (from_xyz a b c).

End vec3.

Notation "u [+] v" := (vec3.add u v) (at level 50, left associativity).
Notation "u [-] v" := (vec3.sub u v) (at level 50, left associativity).
Notation "u [*] k" := (vec3.mul u k) (at level 40, left associativity).
Notation "u [**] v" := (vec3.mul_vec u v) (at level 40, left associativity).

(** ** ray.py *)

Module ray.

Record Ray : Type := mkRay { origin : vec3.Point3; direction : vec3.Vec3 }.

Definition at_ (self : Ray) (t : R) : vec3.Point3 :=
  origin self [+] (direction self [*] t).

End ray.

(** ** color.py *)

Module text.

(** [str(n)] for an int, which is how an f-string formats it. *)
Definition of_int (n : Z) : string := NilZero.string_of_int (Z.to_int n).

Definition newline : string := String "010"%char EmptyString.

End text.

Module color.

Definition Color : Type := vec3.Vec3.
Definition red (self : Color) : R := vec3.x self.
Definition green (self : Color) : R := vec3.y self.
Definition blue (self : Color) : R := vec3.z self.

Definition linear_to_gamma (linear_component : R) : result R :=
  if float.ltb 0 linear_component
  then float.sqrt linear_component
  else Ok 0.

Definition make_color_array (color : Color) : result (list Z) :=
  let? r := linear_to_gamma (red color) in
  let? g := linear_to_gamma (green color) in
  let? b := linear_to_gamma (blue color) in
  let intensity := interval.mkInterval 0.00 0.999 in
  let? ir := float.int (float.xmul 256 (interval.clamp intensity r)) in
  let? ig := float.int (float.xmul 256 (interval.clamp intensity g)) in
  let? ib := float.int (float.xmul 256 (interval.clamp intensity b)) in
  Ok [ir; ig; ib].

(** [write_color]; the value is the line written to the file. *)
Definition write_color (color : Color) : result string :=
  let? r := linear_to_gamma (red color) in
  let? g := linear_to_gamma (green color) in
  let? b := linear_to_gamma (blue color) in
  let intensity := interval.mkInterval 0.00 0.999 in
  let? ir := float.int (float.xmul 256 (interval.clamp intensity r)) in
  let? ig := float.int (float.xmul 256 (interval.clamp intensity g)) in
  let? ib := float.int (float.xmul 256 (interval.clamp intensity b)) in
  Ok (text.of_int ir ++ " " ++ text.of_int ig ++ " " ++ text.of_int ib
      ++ text.newline)%string.

End color.

(** ** core.py *)

Module core.

(** The subclasses of [core.Material] (declared in [material.py]). *)
Inductive Material : Type :=
| Lambertian (albedo : color.Color)
| Metal (albedo : color.Color) (fuzz : R)
| Dielectric (refraction_index : R).

Record ScatterRecord : Type := mkScatterRecord {
  attenuation : color.Color;
  scattered : ray.Ray
}.

Record HitRecord : Type := mkHitRecord {
  p : vec3.Point3;
  normal : vec3.Vec3;
  t : R;
  material : Material;
  front_face : bool
}.

End core.

(** ** hittable.py *)

Module hittable.

(** A [Sphere] only exists once [__post_init__] has accepted its radius. *)
Record Sphere : Type := mkSphere {
  center : vec3.Point3;
  radius : R;
  material : core.Material;
  radius_positive : 0 < radius
}.

(** The constructor call [Sphere(center, radius, material)]. *)
Definition Sphere_init (center : vec3.Point3) (radius : R) (material : core.Material)
  : result Sphere :=
  match Rle_dec radius 0 with
  | left _ => Raise (ValueError "Radius can't be 0 or less")
  | right H => Ok (mkSphere center radius material (Rnot_le_lt _ _ H))
  end.

(** Lines 64-74 of [Sphere.hit]: the record built once a root is accepted. *)
Definition Sphere_record (self : Sphere) (r : ray.Ray) (root : R) : result core.HitRecord :=
  let point := ray.at_ r root in
  let? outward_normal := vec3.truediv (point [-] center self) (radius self) in
  let front_face := float.ltb (vec3.dot (ray.direction r) outward_normal) 0 in
  let normal := if front_face then outward_normal else vec3.neg outward_normal in
  Ok (core.mkHitRecord point normal root (material self) front_face).

Definition Sphere_hit (self : Sphere) (r : ray.Ray) (t_range : loc)
  : M (option core.HitRecord) :=
  let oc := center self [-] ray.origin r in
  let a := vec3.length_squared (ray.direction r) in
  let h := vec3.dot (ray.direction r) oc in
  let c := vec3.length_squared oc - (radius self * radius self) in
  let discriminant := (h * h) - (a * c) in
  if float.ltb discriminant 0 then ret None
  else
    let* sqrtd := lift (float.sqrt discriminant) in
    let* root := lift (float.truediv (h - sqrtd) a) in
    let* range := deref t_range in
    if negb (interval.surrounds range root) then
      let* root := lift (float.truediv (h + sqrtd) a) in
      let* range := deref t_range in
      if negb (interval.surrounds range root) then ret None
      else
        let* record := lift (Sphere_record self r root) in ret (Some record)
    else
      let* record := lift (Sphere_record self r root) in ret (Some record).

(** The loop [for object in self.objects] of [World.hit], over the [hit]
    method of the objects it visits. *)
Definition World_hit_loop {H : Type}
    (hit : H -> ray.Ray -> loc -> M (option core.HitRecord))
    (r : ray.Ray) (curr_range : loc)
  : list H -> option core.HitRecord -> M (option core.HitRecord) :=
  fix loop (objects : list H) (closest_record : option core.HitRecord) :=
    match objects with
    | [] => ret closest_record
    | object :: rest =>
        let* object_record := hit object r curr_range in
        match object_record with
        | Some record =>
            let* _ := set_max curr_range (core.t record) in
            loop rest (Some record)
        | None => loop rest closest_record
        end
    end.

Definition World_hit {H : Type}
    (hit : H -> ray.Ray -> loc -> M (option core.HitRecord))
    (objects : list H) (r : ray.Ray) (t_range : loc) : M (option core.HitRecord) :=
  let closest_record := None in
  let* curr_range := copy t_range in
  World_hit_loop hit r curr_range objects closest_record.

(** The implementations of [core.Hittable]. *)
Inductive Hittable : Type :=
| ASphere (s : Sphere)
| AWorld (objects : list Hittable).

(** Method dispatch for [object.hit(r, t_range)]. *)
Fixpoint hit (self : Hittable) (r : ray.Ray) (t_range : loc) {struct self}
  : M (option core.HitRecord) :=
  match self with
  | ASphere s => Sphere_hit s r t_range
  | AWorld objects => World_hit hit objects r t_range
  end.

(** [World.add] and [World.clear], on the list of objects. *)
Definition add (objects : list Hittable) (object : Hittable) : list Hittable :=
  objects ++ [object].

Definition clear (objects : list Hittable) : list Hittable := [].

End hittable.

(** ** material.py *)

Module material.

(** [Metal.__post_init__]. *)
Definition Metal_init (albedo : color.Color) (fuzz : R) : result core.Material :=
  if float.ltb fuzz 0 || float.ltb 1 fuzz
  then Raise (ValueError "Fuzz is out of range")
  else Ok (core.Metal albedo fuzz).

Definition Lambertian_scatter (fuel : nat) (albedo : color.Color)
    (r : ray.Ray) (hit_record : core.HitRecord) : M (option core.ScatterRecord) :=
  let* rv := vec3.random_unit_vector fuel in
  let scatter_direction := core.normal hit_record [+] rv in
  let scatter_direction :=
    if vec3.near_zero scatter_direction then core.normal hit_record
    else scatter_direction in
  let scattered := ray.mkRay (core.p hit_record) scatter_direction in
  ret (Some (core.mkScatterRecord albedo scattered)).

Definition Metal_scatter (fuel : nat) (albedo : color.Color) (fuzz : R)
    (r : ray.Ray) (hit_record : core.HitRecord) : M (option core.ScatterRecord) :=
  let reflected := vec3.reflect (ray.direction r) (core.normal hit_record) in
  let* u := lift (vec3.unit_vector reflected) in
  let* rv := vec3.random_unit_vector fuel in
  let reflected := u [+] (rv [*] fuzz) in
  let scattered := ray.mkRay (core.p hit_record) reflected in
  ret (Some (core.mkScatterRecord albedo scattered)).

Definition reflectance (cosine refraction_index : R) : result R :=
  let? r0 := float.truediv (1 - refraction_index) (1 + refraction_index) in
  let r0 := r0 * r0 in
  Ok (r0 + (1 - r0) * (1 - cosine) ^ 5).

(** The locals [ri], [unit_direction], [cos_theta] and [sin_theta] of
    [Dielectric.scatter]. *)
Definition relative_index (refraction_index : R) (hit_record : core.HitRecord) : result R :=
  if core.front_face hit_record
  then float.truediv 1 refraction_index
  else Ok refraction_index.

Definition cos_theta (unit_direction : vec3.Vec3) (hit_record : core.HitRecord) : R :=
  float.min (vec3.dot (vec3.neg unit_direction) (core.normal hit_record)) 1.

Definition sin_theta (cos_theta : R) : result R :=
  float.sqrt (1 - (cos_theta * cos_theta)).

Definition Dielectric_scatter (refraction_index : R)
    (r_in : ray.Ray) (hit_record : core.HitRecord) : M core.ScatterRecord :=
  let attenuation := vec3.from_xyz 1 1 1 in
  let* ri := lift (relative_index refraction_index hit_record) in
  let* unit_direction := lift (vec3.unit_vector (ray.direction r_in)) in
  let cos_theta := cos_theta unit_direction hit_record in
  let* sin_theta := lift (sin_theta cos_theta) in
  let cannot_refract := float.ltb 1 (ri * sin_theta) in
  let* reflects :=
    if cannot_refract then ret true
    else
      let* probability := lift (reflectance cos_theta ri) in
      let* sample := random.random in
      ret (float.ltb sample probability) in
  let* direction :=
    if reflects
    then ret (vec3.reflect unit_direction (core.normal hit_record))
    else lift (vec3.refract unit_direction (core.normal hit_record) ri) in
  let scattered := ray.mkRay (core.p hit_record) direction in
  ret (core.mkScatterRecord attenuation scattered).

(** Method dispatch for [material.scatter(r, hit_record)]. *)
Definition scatter (fuel : nat) (self : core.Material)
    (r : ray.Ray) (hit_record : core.HitRecord) : M (option core.ScatterRecord) :=
  match self with
  | core.Lambertian albedo => Lambertian_scatter fuel albedo r hit_record
  | core.Metal albedo fuzz => Metal_scatter fuel albedo fuzz r hit_record
  | core.Dielectric refraction_index =>
      let* record := Dielectric_scatter refraction_index r hit_record in
      ret (Some record)
  end.

End material.

(** ** The built-ins and the numpy operations the render driver uses *)

Module builtins.

(** [range(n)] and [range(start, stop, step)] for a non-negative start
    and step. *)
Definition range (n : Z) : list nat := seq 0 (Z.to_nat n).

Definition range3 (start stop step : nat) : result (list nat) :=
  if Nat.eqb step 0
  then Raise (ValueError "range() arg 3 must not be zero")
  else Ok (map (fun k => (start + k * step)%nat)
               (seq 0 (Nat.div (stop - start + (step - 1)) step))).

(** [range(start, stop)] on ints. *)
Definition range2 (start stop : Z) : list Z :=
  map (fun k => (start + Z.of_nat k)%Z) (seq 0 (Z.to_nat (stop - start))).

(** [a // b] on non-negative ints. *)
Definition floordiv (a b : nat) : result nat :=
  if Nat.eqb b 0 then Raise ZeroDivisionError else Ok (Nat.div a b).

(** The slice [l[i:k]]. *)
Definition slice {A : Type} (l : list A) (i k : nat) : list A :=
  take (k - i) (drop i l).

End builtins.

Module np.

(** A [uint8] array of shape [(height, width, 3)]. *)
Abbreviation ndarray := (list (list (list Z))) (only parsing).

Definition zeros (height width : Z) : result ndarray :=
  if (height <? 0)%Z || (width <? 0)%Z
  then Raise (ValueError "negative dimensions are not allowed")
  else Ok (replicate (Z.to_nat height) (replicate (Z.to_nat width) [0; 0; 0]%Z)).

Definition clip (a : list Z) (a_min a_max : Z) : list Z :=
  map (fun v => Z.min a_max (Z.max a_min v)) a.

Definition astype_uint8 (a : list Z) : list Z :=
  map (fun v => (v mod 256)%Z) a.

(** The assignment [a[j, i] = v]. *)
Definition setitem (a : ndarray) (j i : nat) (v : list Z) : result ndarray :=
  match a !! j with
  | None => Raise IndexError
  | Some row =>
      if Nat.ltb i (length row)
      then Ok (<[j := <[i := v]> row]> a)
      else Raise IndexError
  end.

End np.

(** ** camera.py *)

Module camera.

Record Camera : Type := mkCamera {
  image_width : Z;
  samples_per_pixel : nat;
  image_height : Z;
  max_depth : nat;
  defocus_angle : R;
  camera_center : vec3.Point3;
  pixel_delta_u : vec3.Vec3;
  pixel_delta_v : vec3.Vec3;
  pixel00_loc : vec3.Point3;
  defocus_disk_u : vec3.Vec3;
  defocus_disk_v : vec3.Vec3
}.

(** [value or fallback] for an optional vector argument: a [Vec3] object
    is always truthy, so only [None] takes the fallback. *)
Definition or_default (value : option vec3.Vec3) (fallback : vec3.Vec3) : vec3.Vec3 :=
  match value with
  | Some v => v
  | None => fallback
  end.

(** [Camera.__init__]. *)
Definition init (aspect_ratio : R) (image_width : Z)
    (samples_per_pixel max_depth : nat) (vfov : R)
    (lookfrom lookat : option vec3.Point3) (vup : option vec3.Vec3)
    (defocus_angle focus_dist : R) : result Camera :=
  let? rows := float.truediv (IZR image_width) aspect_ratio in
  let? rows := float.int rows in
  let image_height := Z.max 1 rows in
  let lookfrom := or_default lookfrom (vec3.from_xyz 0 0 0) in
  let lookat := or_default lookat (vec3.from_xyz 0 0 (-1)) in
  let vup := or_default vup (vec3.from_xyz 0 1 0) in
  let theta := utils.degrees_to_radians vfov in
  let h := tan (theta / 2) in
  let viewport_height := 2 * h * focus_dist in
  let? ratio := float.truediv (IZR image_width) (IZR image_height) in
  let viewport_width := viewport_height * ratio in
  let camera_center := lookfrom in
  let? w := vec3.unit_vector (lookfrom [-] lookat) in
  let? u := vec3.unit_vector (vec3.cross vup w) in
  let v := vec3.cross w u in
  let viewport_u := u [*] viewport_width in
  let viewport_v := vec3.neg v [*] viewport_height in
  let? pixel_delta_u := vec3.truediv viewport_u (IZR image_width) in
  let? pixel_delta_v := vec3.truediv viewport_v (IZR image_height) in
  let? half_u := vec3.truediv viewport_u 2 in
  let? half_v := vec3.truediv viewport_v 2 in
  let viewport_upper_left :=
    camera_center [-] (w [*] focus_dist) [-] half_u [-] half_v in
  let pixel00_loc :=
    viewport_upper_left [+] ((pixel_delta_u [+] pixel_delta_v) [*] 0.5) in
  let defocus_radius :=
    tan (utils.degrees_to_radians (defocus_angle / 2)) * focus_dist in
  Ok (mkCamera image_width samples_per_pixel image_height max_depth
        defocus_angle camera_center pixel_delta_u pixel_delta_v pixel00_loc
        (u [*] defocus_radius) (v [*] defocus_radius)).

Definition sample_square : M vec3.Vec3 :=
  let* a := random.random in
  let* b := random.random in
  ret (vec3.from_xyz (a - 0.5) (b - 0.5) 0).

Definition defocus_disk_sample (fuel : nat) (self : Camera) : M vec3.Point3 :=
  let* p := vec3.random_in_unit_disk fuel in
  ret (camera_center self
         [+] (defocus_disk_u self [*] vec3.x p)
         [+] (defocus_disk_v self [*] vec3.y p)).

Definition get_ray (fuel : nat) (self : Camera) (i j : nat) : M ray.Ray :=
  let* offset := sample_square in
  let pixel_sample :=
    pixel00_loc self
      [+] (pixel_delta_u self [*] (INR i + vec3.x offset))
      [+] (pixel_delta_v self [*] (INR j + vec3.y offset)) in
  let* ray_origin :=
    if float.leb (defocus_angle self) 0
    then ret (camera_center self)
    else defocus_disk_sample fuel self in
  let ray_direction := pixel_sample [-] ray_origin in
  ret (ray.mkRay ray_origin ray_direction).

(** [depth] is the number of bounces left, a non-negative int. *)
Fixpoint ray_color (fuel : nat) (ray : ray.Ray) (world : hittable.Hittable)
    (depth : nat) {struct depth} : M color.Color :=
  match depth with
  | O => ret (vec3.from_xyz 0 0 0)
  | S depth' =>
      let* t_range := alloc (interval.mkInterval 0.001 utils.infinity) in
      let* record := hittable.hit world ray t_range in
      match record with
      | Some record =>
          let* scatter_record :=
            material.scatter fuel (core.material record) ray record in
          match scatter_record with
          | Some scatter_record =>
              let* incoming :=
                ray_color fuel (core.scattered scatter_record) world depth' in
              ret (core.attenuation scatter_record [**] incoming)
          | None => ret (vec3.from_xyz 0 0 0)
          end
      | None =>
          let* unit_direction := lift (vec3.unit_vector (ray.direction ray)) in
          let a := (vec3.y unit_direction + 1) * 0.5 in
          ret ((vec3.from_xyz 1 1 1 [*] (1 - a))
                 [+] (vec3.from_xyz 0.5 0.7 1 [*] a))
      end
  end.

(** The loop [for _ in range(self.samples_per_pixel)] of the three
    renderers, started with [pixel]. *)
Fixpoint accumulate (fuel : nat) (self : Camera) (world : hittable.Hittable)
    (i j : nat) (samples : nat) (pixel : color.Color) : M color.Color :=
  match samples with
  | O => ret pixel
  | S samples' =>
      let* r := get_ray fuel self i j in
      let* c := ray_color fuel r world (max_depth self) in
      accumulate fuel self world i j samples' (pixel [+] c)
  end.

Fixpoint process_chunk (fuel : nat) (self : Camera) (chunk : list (nat * nat))
    (world : hittable.Hittable) : M (list ((nat * nat) * list Z)) :=
  match chunk with
  | [] => ret []
  | (j, i) :: chunk' =>
      let* pixel :=
        accumulate fuel self world i j (samples_per_pixel self) (vec3.from_xyz 0 0 0) in
      let* mean := lift (vec3.truediv pixel (INR (samples_per_pixel self))) in
      let* rgb := lift (color.make_color_array mean) in
      let* chunk_pixels := process_chunk fuel self chunk' world in
      ret (((j, i), np.astype_uint8 (np.clip rgb 0 255)) :: chunk_pixels)
  end.

(** The list [pixels] and the list [chunks] of [save_image_to_png]. *)
Definition pixels (self : Camera) : list (nat * nat) :=
  j ← builtins.range (image_height self);
  i ← builtins.range (image_width self);
  [(j, i)].

Definition chunks (self : Camera) (cpu_count : nat) : result (list (list (nat * nat))) :=
  let pixels := pixels self in
  let num_chunks := (cpu_count * 8)%nat in
  let? chunk_size := builtins.floordiv (length pixels) num_chunks in
  let? starts := builtins.range3 0 (length pixels) chunk_size in
  Ok (map (fun i => builtins.slice pixels i (i + chunk_size)) starts).

(** The merge loop of [save_image_to_png]. *)
Fixpoint merge_chunk (chunk : list ((nat * nat) * list Z)) (color_array : np.ndarray)
  : result np.ndarray :=
  match chunk with
  | [] => Ok color_array
  | ((j, i), color) :: chunk' =>
      let? color_array := np.setitem color_array j i color in
      merge_chunk chunk' color_array
  end.

Fixpoint merge (results : list (list ((nat * nat) * list Z))) (color_array : np.ndarray)
  : result np.ndarray :=
  match results with
  | [] => Ok color_array
  | chunk :: results' =>
      let? color_array := merge_chunk chunk color_array in
      merge results' color_array
  end.

(** What the pool does is not fixed by the program: [completion] lists the
    chunk indices in the order in which their results arrive, and
    [worker k] is the state of the worker process when it starts on chunk
    [k]. *)
Record schedule : Type := mkSchedule {
  completion : list nat;
  worker : nat -> state
}.

Fixpoint imap_unordered (task : list (nat * nat) -> M (list ((nat * nat) * list Z)))
    (chunks : list (list (nat * nat))) (sched : schedule) (arrivals : list nat)
  : result (list (list ((nat * nat) * list Z))) :=
  match arrivals with
  | [] => Ok []
  | k :: arrivals' =>
      match chunks !! k with
      | None => BadRef
      | Some chunk =>
          let? done := task chunk (worker sched k) in
          let? results := imap_unordered task chunks sched arrivals' in
          Ok (fst done :: results)
      end
  end.

(** [save_image_to_png]; the value is the array handed to the encoder. *)
Definition save_image_to_png (fuel : nat) (self : Camera) (world : hittable.Hittable)
    (cpu_count : nat) (sched : schedule) : result np.ndarray :=
  let? color_array := np.zeros (image_height self) (image_width self) in
  let? chunks := chunks self cpu_count in
  let? results :=
    imap_unordered (fun chunk => process_chunk fuel self chunk world)
      chunks sched (completion sched) in
  merge results color_array.

(** [_save_image_to_png]: the loop over [i] for a fixed row [j], and the
    loop over [j]. *)
Fixpoint serial_row (fuel : nat) (self : Camera) (world : hittable.Hittable)
    (j : nat) (columns : list nat) (color_array : np.ndarray) : M np.ndarray :=
  match columns with
  | [] => ret color_array
  | i :: columns' =>
      let* pixel :=
        accumulate fuel self world i j (samples_per_pixel self) (vec3.from_xyz 0 0 0) in
      let* mean := lift (vec3.truediv pixel (INR (samples_per_pixel self))) in
      let* rgb := lift (color.make_color_array mean) in
      let* color_array :=
        lift (np.setitem color_array j i (np.astype_uint8 (np.clip rgb 0 255))) in
      serial_row fuel self world j columns' color_array
  end.

Fixpoint serial_rows (fuel : nat) (self : Camera) (world : hittable.Hittable)
    (rows : list nat) (color_array : np.ndarray) : M np.ndarray :=
  match rows with
  | [] => ret color_array
  | j :: rows' =>
      let* color_array :=
        serial_row fuel self world j (builtins.range (image_width self)) color_array in
      serial_rows fuel self world rows' color_array
  end.

Definition _save_image_to_png (fuel : nat) (self : Camera) (world : hittable.Hittable)
  : M np.ndarray :=
  let* color_array := lift (np.zeros (image_height self) (image_width self)) in
  serial_rows fuel self world (builtins.range (image_height self)) color_array.

(** [render]: the loop over [i] for a fixed row [j], the loop over [j], and
    the method; the value is the text written to the file. *)
Fixpoint render_row (fuel : nat) (self : Camera) (world : hittable.Hittable)
    (j : nat) (columns : list nat) : M string :=
  match columns with
  | [] => ret EmptyString
  | i :: columns' =>
      let* pixel :=
        accumulate fuel self world i j (samples_per_pixel self) (vec3.from_xyz 0 0 0) in
      let* mean := lift (vec3.truediv pixel (INR (samples_per_pixel self))) in
      let* line := lift (color.write_color mean) in
      let* rest := render_row fuel self world j columns' in
      ret (line ++ rest)%string
  end.

Fixpoint render_rows (fuel : nat) (self : Camera) (world : hittable.Hittable)
    (rows : list nat) : M string :=
  match rows with
  | [] => ret EmptyString
  | j :: rows' =>
      let* row :=
        render_row fuel self world j (builtins.range (image_width self)) in
      let* rest := render_rows fuel self world rows' in
      ret (row ++ rest)%string
  end.

Definition render (fuel : nat) (self : Camera) (world : hittable.Hittable) : M string :=
  let header :=
    ("P3" ++ text.newline
     ++ text.of_int (image_width self) ++ " " ++ text.of_int (image_height self)
     ++ text.newline ++ "255" ++ text.newline)%string in
  let* body := render_rows fuel self world (builtins.range (image_height self)) in
  ret (header ++ body)%string.

End camera.

(** ** raytracer.py *)

Module raytracer.

(** The camera of [write_image]. *)
Definition camera : result camera.Camera :=
  camera.init (16 / 9) 1200 40 50 20
    (Some (vec3.from_xyz 13 2 3)) (Some (vec3.from_xyz 0 0 0))
    (Some (vec3.from_xyz 0 1 0)) 0.6 10.

(** The material drawn for a small sphere. *)
Definition sphere_material (choose_mat : R) : M core.Material :=
  if float.ltb choose_mat 0.5 then
    let* c1 := vec3.random in
    let* c2 := vec3.random in
    ret (core.Lambertian (c1 [**] c2))
  else if float.ltb choose_mat 0.8 then
    let* albedo := vec3.uniform 0.5 1 in
    let* fuzz := random.uniform 0 0.5 in
    lift (material.Metal_init albedo fuzz)
  else ret (core.Dielectric 1.5).

(** The body of the two loops: the small sphere at grid position [(a, b)]
    is added to the objects of the world. *)
Definition add_sphere (objects : list hittable.Hittable) (a b : Z)
  : M (list hittable.Hittable) :=
  let* radius := random.uniform 0.05 0.5 in
  let* choose_mat := random.random in
  let* dx := random.random in
  let* dz := random.random in
  let center := vec3.from_xyz (IZR a + 0.9 * dx) radius (IZR b + 0.9 * dz) in
  let* sphere_material := sphere_material choose_mat in
  let* sphere := lift (hittable.Sphere_init center radius sphere_material) in
  ret (hittable.add objects (hittable.ASphere sphere)).

(** The loop over [b] for a fixed [a], and the loop over [a]. *)
Fixpoint row (objects : list hittable.Hittable) (a : Z) (bs : list Z)
  : M (list hittable.Hittable) :=
  match bs with
  | [] => ret objects
  | b :: bs' =>
      let* objects := add_sphere objects a b in
      row objects a bs'
  end.

Fixpoint grid (objects : list hittable.Hittable) (as_ : list Z)
  : M (list hittable.Hittable) :=
  match as_ with
  | [] => ret objects
  | a :: as' =>
      let* objects := row objects a (builtins.range2 (-8) 8) in
      grid objects as'
  end.

(** The objects of the world that [write_image] builds. *)
Definition scene : M (list hittable.Hittable) :=
  let objects := [] in
  let ground_material := core.Lambertian (vec3.from_xyz 0.5 0.5 0.5) in
  let* ground :=
    lift (hittable.Sphere_init (vec3.from_xyz 0 (-1000) 0) 1000 ground_material) in
  let objects := hittable.add objects (hittable.ASphere ground) in
  grid objects (builtins.range2 (-8) 8).

(** [write_image]; the value is the array handed to the encoder. *)
Definition write_image (fuel cpu_count : nat) (sched : camera.schedule) : M np.ndarray :=
  let* camera := lift camera in
  let* objects := scene in
  lift (camera.save_image_to_png fuel camera (hittable.AWorld objects) cpu_count sched).

End raytracer.

(** * Vocabulary of the statements *)

Module spec.

(** What the gamma-and-clamp pipeline owes one linear channel value. *)
Definition channel_ok (linear : R) (byte : Z) : Prop :=
  (linear = 0 -> byte = 0%Z)
  /\ (0.999 * 0.999 <= linear -> byte = 255%Z)
  /\ (linear < 0 -> byte = 0%Z).

(** The ray [r] meets the surface of the sphere [s] at parameter [t]. *)
Definition on_sphere (s : hittable.Sphere) (r : ray.Ray) (t : R) : Prop :=
  vec3.length_squared (ray.at_ r t [-] hittable.center s)
  = hittable.radius s * hittable.radius s.

(** The primitives of a scene. *)
Inductive primitive (s : hittable.Sphere) : hittable.Hittable -> Prop :=
| primitive_sphere : primitive s (hittable.ASphere s)
| primitive_world (objects : list hittable.Hittable) (object : hittable.Hittable) :
    In object objects -> primitive s object ->
    primitive s (hittable.AWorld objects).

(** [outcome] is the closest hit of [r] among the primitives selected by
    [among] whose parameter lies strictly inside [range]: a record built by
    one of these primitives at a point where the ray meets it, with no
    qualifying hit of any of them at a smaller parameter; or [None] when no
    hit qualifies. *)
Definition closest_among (among : hittable.Sphere -> Prop) (r : ray.Ray)
    (range : interval.Interval) (outcome : option core.HitRecord) : Prop :=
  match outcome with
  | Some record =>
      interval.surrounds range (core.t record) = true
      /\ (exists s, among s /\ on_sphere s r (core.t record)
                    /\ hittable.Sphere_record s r (core.t record) = Ok record)
      /\ (forall s t, among s -> on_sphere s r t ->
                      interval.surrounds range t = true -> core.t record <= t)
  | None =>
      forall s t, among s -> on_sphere s r t -> interval.surrounds range t = false
  end.

Definition closest_hit (world : hittable.Hittable) : ray.Ray ->
    interval.Interval -> option core.HitRecord -> Prop :=
  closest_among (fun s => primitive s world).

(** The contract of [World.hit] for a query started in state [st] with the
    range object at [t_range], which holds [range]: the query returns the
    closest hit, and every object of the store, the caller's range among
    them, is afterwards what it was. *)
Definition World_hit_contract (objects : list hittable.Hittable) (r : ray.Ray)
    (t_range : loc) (range : interval.Interval) (st : state) : Prop :=
  exists outcome st',
    hittable.hit (hittable.AWorld objects) r t_range st = Ok (outcome, st')
    /\ closest_hit (hittable.AWorld objects) r range outcome
    /\ heap st' !! t_range = Some range
    /\ (forall l i, heap st !! l = Some i -> heap st' !! l = Some i).

(** [st'] differs from [st] only by objects allocated since. *)
Definition frame (st st' : state) : Prop :=
  tape st' = tape st
  /\ pos st' = pos st
  /\ (forall l i, heap st !! l = Some i -> heap st' !! l = Some i).

(** The contract of [hit] for one object, on rays that have a direction. *)
Definition hit_contract (object : hittable.Hittable) : Prop :=
  forall r t_range st range,
    heap st !! t_range = Some range ->
    vec3.length_squared (ray.direction r) <> 0 ->
    exists outcome st',
      hittable.hit object r t_range st = Ok (outcome, st')
      /\ closest_hit object r range outcome
      /\ frame st st'.

(** The writes [((j, i), colour)] that give each pixel of a list the colour
    [shade] assigns to it. *)
Definition shaded (shade : nat * nat -> list Z) (pixels : list (nat * nat))
  : list ((nat * nat) * list Z) :=
  map (fun pixel => (pixel, shade pixel)) pixels.

(** The random source is deterministic per pixel: whatever the state of the
    generator and of the store when the body of the pixel loop starts on
    [(j, i)], the body runs to the bytes [shade (j, i)]. *)
Definition deterministic_shading (fuel : nat) (self : camera.Camera)
    (world : hittable.Hittable) (shade : nat * nat -> list Z) : Prop :=
  forall j i st,
    In (j, i) (camera.pixels self) ->
    exists pixel st' mean rgb,
      camera.accumulate fuel self world i j (camera.samples_per_pixel self)
        (vec3.from_xyz 0 0 0) st = Ok (pixel, st')
      /\ vec3.truediv pixel (INR (camera.samples_per_pixel self)) = Ok mean
      /\ color.make_color_array mean = Ok rgb
      /\ np.astype_uint8 (np.clip rgb 0 255) = shade (j, i).


(** The state in which the serial renderer, started in [st], has rendered
    the pixels of [prefix]. *)
Definition serial_state (fuel : nat) (self : camera.Camera)
    (world : hittable.Hittable) (st : state) (prefix : list (nat * nat)) : state :=
  match camera.process_chunk fuel self prefix world st with
  | Ok out => snd out
  | _ => st
  end.

(** The workers replay the serial run: the serial renderer, started in
    [st], reaches the first pixel of chunk [k] in the state [worker k], in
    which the worker of that chunk starts, so that the pixels of the chunk
    are given the random samples they are given in the serial run. *)
Definition same_samples (fuel : nat) (self : camera.Camera)
    (world : hittable.Hittable) (st : state) (chunks : list (list (nat * nat)))
    (worker : nat -> state) : Prop :=
  forall k, (k < length chunks)%nat ->
    exists before,
      camera.process_chunk fuel self (concat (take k chunks)) world st
      = Ok (before, worker k).

(** An array of [height] rows of [width] pixels. *)
Definition shape (a : np.ndarray) (height width : nat) : Prop :=
  length a = height /\ Forall (fun row => length row = width) a.

(** The plain PPM text of an array: the header for the image of [self],
    then one line per pixel, row by row. *)
Definition ppm_pixel (rgb : list Z) : string :=
  (String.concat " " (map text.of_int rgb) ++ text.newline)%string.

Definition ppm (self : camera.Camera) (a : np.ndarray) : string :=
  ("P3" ++ text.newline
   ++ text.of_int (camera.image_width self) ++ " "
   ++ text.of_int (camera.image_height self)
   ++ text.newline ++ "255" ++ text.newline
   ++ fold_right String.append EmptyString (map ppm_pixel (concat a)))%string.

(** A colour whose three channels lie between 0 and 1. *)
Definition in_gamut (c : color.Color) : Prop :=
  0 <= color.red c <= 1 /\ 0 <= color.green c <= 1 /\ 0 <= color.blue c <= 1.

(** The albedo of a material, if it has one, is in gamut. *)
Definition albedo_in_gamut (m : core.Material) : Prop :=
  match m with
  | core.Lambertian albedo | core.Metal albedo _ => in_gamut albedo
  | core.Dielectric _ => True
  end.

End spec.

(** * Concrete inputs *)

Module sample.

Definition grey : color.Color := vec3.from_xyz 0.5 0.5 0.5.

(** The unit sphere at the origin. *)
Definition ball : hittable.Sphere :=
  hittable.mkSphere (vec3.from_xyz 0 0 0) 1 (core.Lambertian grey) Rlt_0_1.

(** The unit sphere at [(5, 0, 0)]. *)
Definition far_ball : hittable.Sphere :=
  hittable.mkSphere (vec3.from_xyz 5 0 0) 1 (core.Metal grey 0) Rlt_0_1.

(** A ray that enters [ball] at [t = 1] and leaves it at [t = 3]. *)
Definition probe : ray.Ray :=
  ray.mkRay (vec3.from_xyz (-2) 0 0) (vec3.from_xyz 1 0 0).

(** A state whose store holds the range [(0.001, infinity)] at location 0
    and whose random source always answers [0.5]. *)
Definition st0 : state :=
  mkState [interval.mkInterval 0.001 utils.infinity] (fun _ => 0.5) 0.

Definition probe_record : core.HitRecord :=
  core.mkHitRecord (vec3.from_xyz (-1) 0 0) (vec3.from_xyz (-1) 0 0) 1
    (core.Lambertian grey) true.

(** A ray arriving at the surface point [(0, 0, 0)], whose normal is
    [(0, 1, 0)], along the direction [(4, -3, 0)], from inside the
    surface ([front_face] is false). *)
Definition incoming : ray.Ray :=
  ray.mkRay (vec3.from_xyz (-4) 3 0) (vec3.from_xyz 4 (-3) 0).

Definition glass : core.Material := core.Dielectric 1.5.

Definition surface_hit (m : core.Material) : core.HitRecord :=
  core.mkHitRecord (vec3.from_xyz 0 0 0) (vec3.from_xyz 0 1 0) 1 m false.

(** A state with an empty store whose random source answers
    [0.5, 0, 0.5, 0.5, ...]: the first candidate of [random_unit_vector]
    is [(0, -1, 0)]. *)
Definition st1 : state :=
  mkState [] (fun k => if Nat.eqb k 1 then 0 else 0.5) 0.

Definition st1_after : state :=
  mkState [] (fun k => if Nat.eqb k 1 then 0 else 0.5) 3.

(** What the Lambertian surface returns for [incoming] in [st1]: the
    candidate [(0, -1, 0)] cancels the normal, so the normal is used. *)
Definition diffuse_bounce : core.ScatterRecord :=
  core.mkScatterRecord grey (ray.mkRay (vec3.from_xyz 0 0 0) (vec3.from_xyz 0 1 0)).

(** A camera for a 4 x 2 image; the fields that place the viewport play no
    part in the partition of the pixels. *)
Definition thumbnail : camera.Camera :=
  camera.mkCamera 4 1 2 0 0
    (vec3.from_xyz 0 0 0) (vec3.from_xyz 0 0 0) (vec3.from_xyz 0 0 0)
    (vec3.from_xyz 0 0 0) (vec3.from_xyz 0 0 0) (vec3.from_xyz 0 0 0).

(** A metal sphere of radius 1 below the origin, which [incoming] meets at
    [t = 1], at the origin, from outside, and the record of that hit. *)
Definition dome : hittable.Sphere :=
  hittable.mkSphere (vec3.from_xyz 0 (-1) 0) 1 (core.Metal grey 1) Rlt_0_1.

Definition dome_hit : core.HitRecord :=
  core.mkHitRecord (vec3.from_xyz 0 0 0) (vec3.from_xyz 0 1 0) 1
    (core.Metal grey 1) true.

(** A camera at the origin for a 4 x 2 image, one sample per pixel and one
    bounce, that looks along [-z] at a viewport one unit away, through a
    pinhole. *)
Definition viewer : camera.Camera :=
  camera.mkCamera 4 1 2 1 0
    (vec3.from_xyz 0 0 0) (vec3.from_xyz 1 0 0) (vec3.from_xyz 0 (-1) 0)
    (vec3.from_xyz (-1.5) 0.5 (-1)) (vec3.from_xyz 0 0 0) (vec3.from_xyz 0 0 0).

(** A ray without direction. *)
Definition still : ray.Ray :=
  ray.mkRay (vec3.from_xyz (-2) 0 0) (vec3.from_xyz 0 0 0).

End sample.

(** * Properties *)

(** ** Comparisons and arithmetic of the idealised floats *)

Section float_facts.

Lemma ltb_reflect (a b : R) : reflect (a < b) (float.ltb a b).
Proof. unfold float.ltb. destruct (Rlt_dec a b); constructor; assumption. Qed.

Lemma leb_reflect (a b : R) : reflect (a <= b) (float.leb a b).
Proof. unfold float.leb. destruct (Rle_dec a b); constructor; assumption. Qed.

Lemma eqb_reflect (a b : R) : reflect (a = b) (float.eqb a b).
Proof. unfold float.eqb. destruct (Req_dec_T a b); constructor; assumption. Qed.

Lemma ltb_true (a b : R) : a < b -> float.ltb a b = true.
Proof. intros H. destruct (ltb_reflect a b); [reflexivity | contradiction]. Qed.

Lemma ltb_false (a b : R) : b <= a -> float.ltb a b = false.
Proof. intros H. destruct (ltb_reflect a b); [lra | reflexivity]. Qed.

Lemma leb_true (a b : R) : a <= b -> float.leb a b = true.
Proof. intros H. destruct (leb_reflect a b); [reflexivity | contradiction]. Qed.

Lemma leb_false (a b : R) : b < a -> float.leb a b = false.
Proof. intros H. destruct (leb_reflect a b); [lra | reflexivity]. Qed.

Lemma eqb_true (a b : R) : a = b -> float.eqb a b = true.
Proof. intros H. destruct (eqb_reflect a b); [reflexivity | contradiction]. Qed.

Lemma eqb_false (a b : R) : a <> b -> float.eqb a b = false.
Proof. intros H. destruct (eqb_reflect a b); [contradiction | reflexivity]. Qed.

Lemma truediv_ok (a b : R) : b <> 0 -> float.truediv a b = Ok (a / b).
Proof. intros H. unfold float.truediv. now rewrite eqb_false. Qed.

Lemma truediv_zero (a : R) : float.truediv a 0 = Raise ZeroDivisionError.
Proof. unfold float.truediv. now rewrite eqb_true. Qed.

Lemma sqrt_ok (a : R) : 0 <= a -> float.sqrt a = Ok (sqrt a).
Proof. intros H. unfold float.sqrt. now rewrite ltb_false. Qed.

Lemma sqrt_square_ok (a : R) : 0 <= a -> float.sqrt (a * a) = Ok a.
Proof.
  intros H. rewrite sqrt_ok by nra. now rewrite sqrt_square.
Qed.

Lemma trunc_nonneg (a : R) (n : Z) :
  IZR n <= a < IZR n + 1 -> 0 <= a -> float.trunc a = n.
Proof.
  intros [Hlo Hhi] Ha. unfold float.trunc. rewrite ltb_false by lra.
  symmetry. apply Int_part_spec. lra.
Qed.

End float_facts.

(** ** color.py: gamma correction and clamping *)

Section gamma.

Let intensity : interval.Interval := interval.mkInterval 0.00 0.999.

Lemma linear_to_gamma_ok (v : R) :
  exists g, color.linear_to_gamma v = Ok g /\ 0 <= g
            /\ (v <= 0 -> g = 0) /\ (0 < v -> g = sqrt v).
Proof.
  unfold color.linear_to_gamma. destruct (ltb_reflect 0 v) as [Hpos | Hneg].
  - exists (sqrt v). rewrite sqrt_ok by lra.
    split; [reflexivity |]. split; [apply sqrt_pos |]. split; [lra | reflexivity].
  - exists 0. split; [reflexivity |]. split; [lra |]. split; [reflexivity | lra].
Qed.

Lemma clamp_intensity (g : R) :
  0 <= g ->
  exists c : R, interval.clamp intensity g = float.fin c
                /\ 0 <= c <= 0.999 /\ (g <= 0.999 -> c = g) /\ (0.999 <= g -> c = 0.999).
Proof.
  intros Hg. unfold interval.clamp, intensity; cbn.
  rewrite ltb_false by lra.
  destruct (ltb_reflect 0.999 g) as [Hbig | Hsmall].
  - exists 0.999. split; [reflexivity |]. repeat split; lra.
  - exists g. split; [reflexivity |]. repeat split; lra.
Qed.

Lemma byte_of_clamped (c : R) :
  0 <= c <= 0.999 ->
  exists n : Z, float.int (float.xmul 256 (float.fin c)) = Ok n
                /\ (0 <= n <= 255)%Z /\ IZR n <= 256 * c < IZR n + 1.
Proof.
  intros Hc. cbn. exists (float.trunc (256 * c)). split; [reflexivity |].
  unfold float.trunc. rewrite ltb_false by lra.
  destruct (base_Int_part (256 * c)) as [Hlo Hhi].
  set (n := Int_part (256 * c)) in *.
  assert (Hn0 : (-1 < n)%Z) by (apply lt_IZR; lra).
  assert (Hn1 : (n < 256)%Z) by (apply lt_IZR; lra).
  repeat split; [lia | lia | lra | lra].
Qed.

Lemma channel_byte (v : R) :
  exists g n, color.linear_to_gamma v = Ok g
              /\ float.int (float.xmul 256 (interval.clamp intensity g)) = Ok n
              /\ (0 <= n <= 255)%Z /\ spec.channel_ok v n.
Proof.
  destruct (linear_to_gamma_ok v) as (g & Hg & Hg0 & Hgneg & Hgpos).
  destruct (clamp_intensity g Hg0) as (c & Hc & Hcr & Hcsmall & Hcbig).
  destruct (byte_of_clamped c Hcr) as (n & Hn & Hnr & Hfloor).
  exists g, n. rewrite Hc. repeat split; try assumption; try lia.
  - intros ->. rewrite Hgneg in * by lra.
    rewrite Hcsmall in Hfloor by lra.
    assert (-1 < n < 1)%Z by (split; apply lt_IZR; lra). lia.
  - intros Hbig.
    assert (Hs : 0.999 <= g).
    { rewrite Hgpos by lra. replace 0.999 with (sqrt (0.999 * 0.999)) at 1
        by (apply sqrt_square; lra). apply sqrt_le_1_alt, Hbig. }
    rewrite Hcbig in Hfloor by exact Hs.
    assert (254 < n < 256)%Z by (split; apply lt_IZR; lra). lia.
  - intros Hneg. rewrite Hgneg in * by lra.
    rewrite Hcsmall in Hfloor by lra.
    assert (-1 < n < 1)%Z by (split; apply lt_IZR; lra). lia.
Qed.

(** C9. For every colour, [make_color_array] returns three bytes in
    [0, 255], and each of them is 0 when its linear channel is 0 or
    negative and 255 when its linear channel is at least 0.999 squared;
    the [np.clip(_, 0, 255).astype(np.uint8)] applied by the renderers
    leaves the three bytes as they are. *)
Theorem gamma_clamp_pipeline (c : color.Color) :
  exists ir ig ib : Z,
    color.make_color_array c = Ok [ir; ig; ib]
    /\ np.astype_uint8 (np.clip [ir; ig; ib] 0 255) = [ir; ig; ib]
    /\ spec.channel_ok (color.red c) ir
    /\ spec.channel_ok (color.green c) ig
    /\ spec.channel_ok (color.blue c) ib.
Proof.
  destruct (channel_byte (color.red c)) as (r & ir & Hr & Hir & Rr & Sr).
  destruct (channel_byte (color.green c)) as (g & ig & Hg & Hig & Rg & Sg).
  destruct (channel_byte (color.blue c)) as (b & ib & Hb & Hib & Rb & Sb).
  exists ir, ig, ib. unfold color.make_color_array.
  rewrite Hr, Hg, Hb; cbn [rbind]. fold intensity.
  rewrite Hir, Hig, Hib; cbn [rbind].
  repeat split; try assumption; try (apply Sr || apply Sg || apply Sb).
  unfold np.astype_uint8, np.clip; cbn [map].
  rewrite !Z.max_r, !Z.min_r by lia.
  rewrite !Z.mod_small by lia. reflexivity.
Qed.

End gamma.

Lemma gamma_clamp_pipeline_witness :
  color.make_color_array (vec3.from_xyz 0 1 (-1)) = Ok [0; 255; 0]%Z.
Proof.
  destruct (gamma_clamp_pipeline (vec3.from_xyz 0 1 (-1)))
    as (ir & ig & ib & Hrun & _ & (Hzero & _ & _) & (_ & Hbright & _) & (_ & _ & Hdark)).
  cbn [color.red color.green color.blue vec3.x vec3.y vec3.z] in *.
  rewrite Hrun, (Hzero eq_refl), Hbright, Hdark by lra. reflexivity.
Defined.

(** ** Running computations *)

Section monad_facts.

Context {A B : Type}.

Lemma rbind_Ok_inv (c : result A) (k : A -> result B) (b : B) :
  rbind c k = Ok b -> exists a, c = Ok a /\ k a = Ok b.
Proof. destruct c; cbn; try discriminate. intros H. eauto. Qed.

Lemma bind_Ok_inv (c : M A) (k : A -> M B) (st st' : state) (b : B) :
  bind c k st = Ok (b, st') ->
  exists a st1, c st = Ok (a, st1) /\ k a st1 = Ok (b, st').
Proof.
  unfold bind. destruct (c st) as [[a st1] | | |]; try discriminate.
  intros H. eauto.
Qed.

Lemma bind_Ok (c : M A) (k : A -> M B) (st st1 : state) (a : A) :
  c st = Ok (a, st1) -> bind c k st = k a st1.
Proof. unfold bind. now intros ->. Qed.

Lemma lift_Ok_inv (c : result A) (st st' : state) (a : A) :
  lift c st = Ok (a, st') -> c = Ok a /\ st' = st.
Proof.
  unfold lift. destruct c; cbn; try discriminate.
  intros H. injection H as -> ->. auto.
Qed.

Lemma lift_Ok (c : result A) (st : state) (a : A) :
  c = Ok a -> lift c st = Ok (a, st).
Proof. now intros ->. Qed.

Lemma ret_Ok_inv (a a' : A) (st st' : state) :
  ret a st = Ok (a', st') -> a' = a /\ st' = st.
Proof. unfold ret. intros H. injection H as -> ->. auto. Qed.

End monad_facts.

(** Invert one hypothesis stating that a computation returned. *)
Ltac run_inv H :=
  let a := fresh "a" in
  let st1 := fresh "st" in
  let H1 := fresh H in
  lazymatch type of H with
  | bind _ _ _ = Ok _ =>
      apply bind_Ok_inv in H; destruct H as (a & st1 & H1 & H)
  | rbind _ _ = Ok _ =>
      apply rbind_Ok_inv in H; destruct H as (a & H1 & H)
  | lift _ _ = Ok _ =>
      apply lift_Ok_inv in H; destruct H as (H & ->)
  | ret _ _ = Ok _ =>
      apply ret_Ok_inv in H; destruct H as (H & ->)
  end.

(** ** hittable.py: the record built by [Sphere.hit] *)

Section sphere_record.

Variables (s : hittable.Sphere) (r : ray.Ray).

Lemma deref_Ok_inv (l : loc) (st st' : state) (i : interval.Interval) :
  deref l st = Ok (i, st') -> heap st !! l = Some i /\ st' = st.
Proof.
  unfold deref. destruct (heap st !! l); [| discriminate].
  intros H. injection H as -> ->. auto.
Qed.

(** Every record returned by [Sphere.hit] is [Sphere_record] at a root that
    the range, as stored when the query started, surrounds; the query
    leaves the state as it found it. *)
Lemma Sphere_hit_Some_inv (t_range : loc) (st st' : state) (record : core.HitRecord) :
  hittable.Sphere_hit s r t_range st = Ok (Some record, st') ->
  st' = st
  /\ exists range root,
       heap st !! t_range = Some range
       /\ interval.surrounds range root = true
       /\ hittable.Sphere_record s r root = Ok record.
Proof.
  unfold hittable.Sphere_hit. intros H.
  destruct (float.ltb _ 0).
  { run_inv H. discriminate. }
  run_inv H. run_inv H0. run_inv H. run_inv H1.
  run_inv H. apply deref_Ok_inv in H2 as [Hrange ->].
  destruct (interval.surrounds a1 a0) eqn:Hs; cbn [negb] in H.
  - run_inv H. run_inv H2. run_inv H. injection H as <-.
    split; [reflexivity |]. eauto.
  - run_inv H. run_inv H2. run_inv H.
    apply deref_Ok_inv in H3 as [Hrange' ->].
    destruct (interval.surrounds a3 a2) eqn:Hs'; cbn [negb] in H.
    + run_inv H. run_inv H3. run_inv H. injection H as <-.
      split; [reflexivity |]. eauto.
    + run_inv H. discriminate.
Qed.

Lemma dot_neg_r (u v : vec3.Vec3) : vec3.dot u (vec3.neg v) = - vec3.dot u v.
Proof. unfold vec3.dot, vec3.neg, vec3.inverse; cbn. lra. Qed.

Lemma Sphere_record_normal (root : R) (record : core.HitRecord) :
  hittable.Sphere_record s r root = Ok record ->
  vec3.dot (ray.direction r) (core.normal record) <= 0
  /\ core.p record = ray.at_ r root
  /\ core.t record = root
  /\ exists outward_normal,
       vec3.truediv (core.p record [-] hittable.center s) (hittable.radius s)
         = Ok outward_normal
       /\ core.front_face record
            = float.ltb (vec3.dot (ray.direction r) outward_normal) 0
       /\ core.normal record
            = (if core.front_face record then outward_normal
               else vec3.neg outward_normal).
Proof.
  unfold hittable.Sphere_record. intros H. run_inv H. injection H as <-.
  cbn [core.normal core.p core.t core.front_face].
  split; [| split; [reflexivity | split; [reflexivity |]]].
  - destruct (ltb_reflect (vec3.dot (ray.direction r) a) 0) as [Hlt | Hge].
    + lra.
    + rewrite dot_neg_r. lra.
  - exists a. auto.
Qed.

End sphere_record.

(** C4. For every sphere, ray, range and state, a hit record returned by
    [Sphere.hit] carries a normal whose dot product with the ray direction
    is at most 0: with [outward_normal = (p - center) / radius],
    [front_face] is the test [dot(direction, outward_normal) < 0], and the
    normal is [outward_normal] when [front_face] holds and its negation
    otherwise. *)
Theorem Sphere_hit_normal_opposes_ray
    (s : hittable.Sphere) (r : ray.Ray) (t_range : loc) (st st' : state)
    (record : core.HitRecord) :
  hittable.Sphere_hit s r t_range st = Ok (Some record, st') ->
  vec3.dot (ray.direction r) (core.normal record) <= 0
  /\ exists outward_normal,
       vec3.truediv (core.p record [-] hittable.center s) (hittable.radius s)
         = Ok outward_normal
       /\ core.front_face record
            = float.ltb (vec3.dot (ray.direction r) outward_normal) 0
       /\ core.normal record
            = (if core.front_face record then outward_normal
               else vec3.neg outward_normal).
Proof.
  intros H. apply Sphere_hit_Some_inv in H as (_ & range & root & _ & _ & Hrec).
  apply Sphere_record_normal in Hrec as (Hdot & _ & _ & Hshape).
  split; assumption.
Qed.

(** ** Evaluation on concrete inputs *)

Section evaluation.

Lemma sqrt_eval (a b : R) : 0 <= b -> b * b = a -> float.sqrt a = Ok b.
Proof. intros Hb <-. now apply sqrt_square_ok. Qed.

Lemma truediv_eval (a b q : R) : b <> 0 -> q * b = a -> float.truediv a b = Ok q.
Proof.
  intros Hb <-. rewrite truediv_ok by assumption. f_equal. now field.
Qed.

Lemma Vec3_eq (u v : vec3.Vec3) :
  vec3.x u = vec3.x v -> vec3.y u = vec3.y v -> vec3.z u = vec3.z v -> u = v.
Proof. destruct u, v; cbn. now intros -> -> ->. Qed.

Lemma Vec3_truediv_eval (u v : vec3.Vec3) (k : R) :
  k <> 0 -> v [*] k = u -> vec3.truediv u k = Ok v.
Proof.
  intros Hk <-. unfold vec3.truediv. rewrite (truediv_eval 1 k (/ k)); cbn.
  - f_equal. apply Vec3_eq; cbn; now field.
  - assumption.
  - now field.
Qed.

Lemma Vec3_length_eval (u : vec3.Vec3) (l : R) :
  0 <= l -> l * l = vec3.length_squared u -> vec3.length u = Ok l.
Proof. intros Hl Hsq. unfold vec3.length. now apply sqrt_eval. Qed.

Lemma Vec3_unit_vector_eval (u v : vec3.Vec3) (l : R) :
  0 < l -> l * l = vec3.length_squared u -> v [*] l = u ->
  vec3.unit_vector u = Ok v.
Proof.
  intros Hl Hsq Hv. unfold vec3.unit_vector.
  rewrite (Vec3_length_eval u l) by (assumption || lra); cbn.
  apply Vec3_truediv_eval; [lra | assumption].
Qed.

End evaluation.

(** Unfold the vector and record operations of a goal down to real
    arithmetic. *)
Ltac vsimpl :=
  cbv [vec3.add vec3.sub vec3.mul vec3.mul_vec vec3.neg vec3.inverse vec3.dot
       vec3.cross vec3.length_squared vec3.reflect ray.at_
       sample.ball sample.probe sample.grey sample.probe_record
       sample.incoming sample.surface_hit sample.glass sample.still
       sample.far_ball sample.dome sample.dome_hit];
  cbn [vec3.x vec3.y vec3.z ray.origin ray.direction
       core.p core.normal core.t core.material core.front_face
       core.attenuation core.scattered
       hittable.center hittable.radius hittable.material].

Ltac real := vsimpl; lra.

(** Decide one comparison of the goal whose operands reduce to numerals. *)
Ltac float_decide :=
  match goal with
  | |- context [float.ltb ?a ?b] =>
      first [ rewrite (ltb_true a b) by real | rewrite (ltb_false a b) by real ]
  | |- context [float.leb ?a ?b] =>
      first [ rewrite (leb_true a b) by real | rewrite (leb_false a b) by real ]
  | |- context [float.eqb ?a ?b] =>
      first [ rewrite (eqb_true a b) by real | rewrite (eqb_false a b) by real ]
  end.

Ltac vec_eq := apply Vec3_eq; real.

Section sphere_example.

Lemma Sphere_record_probe :
  hittable.Sphere_record sample.ball sample.probe 1 = Ok sample.probe_record.
Proof.
  unfold hittable.Sphere_record.
  rewrite (Vec3_truediv_eval _ (vec3.from_xyz (-1) 0 0)) by (real || vec_eq).
  cbn [rbind]. float_decide. unfold sample.probe_record.
  f_equal. f_equal. vec_eq.
Qed.

Lemma Sphere_hit_probe :
  hittable.Sphere_hit sample.ball sample.probe 0%nat sample.st0
  = Ok (Some sample.probe_record, sample.st0).
Proof.
  unfold hittable.Sphere_hit. float_decide.
  rewrite (bind_Ok _ _ _ sample.st0 1)
    by (apply lift_Ok, sqrt_eval; real).
  rewrite (bind_Ok _ _ _ sample.st0 1)
    by (apply lift_Ok, truediv_eval; real).
  rewrite (bind_Ok _ _ sample.st0 sample.st0 (interval.mkInterval 0.001 utils.infinity))
    by reflexivity.
  unfold interval.surrounds; cbn [interval.min interval.max float.xltb utils.infinity].
  float_decide. cbn [andb negb].
  rewrite (bind_Ok _ _ _ sample.st0 sample.probe_record)
    by (apply lift_Ok, Sphere_record_probe).
  reflexivity.
Qed.

End sphere_example.

Lemma Sphere_hit_normal_opposes_ray_witness :
  vec3.dot (ray.direction sample.probe) (core.normal sample.probe_record) <= 0
  /\ exists outward_normal,
       vec3.truediv (core.p sample.probe_record [-] hittable.center sample.ball)
         (hittable.radius sample.ball) = Ok outward_normal
       /\ core.front_face sample.probe_record
            = float.ltb (vec3.dot (ray.direction sample.probe) outward_normal) 0
       /\ core.normal sample.probe_record
            = (if core.front_face sample.probe_record then outward_normal
               else vec3.neg outward_normal).
Proof.
  apply (Sphere_hit_normal_opposes_ray sample.ball sample.probe 0%nat
           sample.st0 sample.st0 sample.probe_record).
  apply Sphere_hit_probe.
Defined.

(** ** material.py *)

Section dielectric.

Variables (refraction_index : R) (r_in : ray.Ray) (hit_record : core.HitRecord).

Lemma Dielectric_scatter_attenuation (st st' : state) (record : core.ScatterRecord) :
  material.Dielectric_scatter refraction_index r_in hit_record st = Ok (record, st') ->
  core.attenuation record = vec3.from_xyz 1 1 1
  /\ ray.origin (core.scattered record) = core.p hit_record.
Proof.
  unfold material.Dielectric_scatter. intros H.
  do 5 (run_inv H; clear H0). run_inv H. subst record. auto.
Qed.

Lemma Dielectric_scatter_cannot_refract
    (st : state) (ri : R) (unit_direction : vec3.Vec3) (sin_theta : R) :
  material.relative_index refraction_index hit_record = Ok ri ->
  vec3.unit_vector (ray.direction r_in) = Ok unit_direction ->
  material.sin_theta (material.cos_theta unit_direction hit_record) = Ok sin_theta ->
  1 < ri * sin_theta ->
  material.Dielectric_scatter refraction_index r_in hit_record st
  = Ok (core.mkScatterRecord (vec3.from_xyz 1 1 1)
          (ray.mkRay (core.p hit_record)
             (vec3.reflect unit_direction (core.normal hit_record))),
        st).
Proof.
  intros Hri Hud Hsin Hbig. unfold material.Dielectric_scatter.
  rewrite (bind_Ok _ _ st st ri) by now apply lift_Ok.
  rewrite (bind_Ok _ _ st st unit_direction) by now apply lift_Ok.
  rewrite (bind_Ok _ _ st st sin_theta) by now apply lift_Ok.
  rewrite (ltb_true 1 (ri * sin_theta)) by assumption.
  reflexivity.
Qed.

Lemma relative_index_value (ri : R) :
  material.relative_index refraction_index hit_record = Ok ri ->
  ri = (if core.front_face hit_record then 1 / refraction_index
        else refraction_index).
Proof.
  unfold material.relative_index, float.truediv.
  destruct (core.front_face hit_record).
  - destruct (float.eqb refraction_index 0); [discriminate |].
    now intros [= <-].
  - now intros [= <-].
Qed.

End dielectric.

(** C6. For every refraction index, incoming ray, hit record and state:
    a scatter record returned by [Dielectric.scatter] has attenuation
    [(1, 1, 1)]; and whenever [ri * sin_theta > 1] for the [ri], the
    [unit_direction] and the [sin_theta] the method computes, [ri] being
    [1 / refraction_index] on a front face and [refraction_index] otherwise,
    the method returns the ray along [reflect(unit_direction, normal)]
    without drawing a random sample: the branch that calls [refract] is not
    taken. *)
Theorem Dielectric_scatter_total_internal_reflection
    (refraction_index : R) (r_in : ray.Ray) (hit_record : core.HitRecord) :
  (forall st st' record,
      material.Dielectric_scatter refraction_index r_in hit_record st = Ok (record, st') ->
      core.attenuation record = vec3.from_xyz 1 1 1)
  /\ (forall st ri unit_direction sin_theta,
         material.relative_index refraction_index hit_record = Ok ri ->
         vec3.unit_vector (ray.direction r_in) = Ok unit_direction ->
         material.sin_theta (material.cos_theta unit_direction hit_record) = Ok sin_theta ->
         1 < ri * sin_theta ->
         ri = (if core.front_face hit_record then 1 / refraction_index
               else refraction_index)
         /\ material.Dielectric_scatter refraction_index r_in hit_record st
            = Ok (core.mkScatterRecord (vec3.from_xyz 1 1 1)
                    (ray.mkRay (core.p hit_record)
                       (vec3.reflect unit_direction (core.normal hit_record))),
                  st)).
Proof.
  split.
  - intros st st' record H.
    now apply Dielectric_scatter_attenuation in H as [Hatt _].
  - intros st ri unit_direction sin_theta Hri Hud Hsin Hbig. split.
    + now apply relative_index_value.
    + now apply Dielectric_scatter_cannot_refract with (ri := ri) (sin_theta := sin_theta).
Qed.

Section dielectric_example.

Let hit_record := sample.surface_hit sample.glass.

Lemma incoming_unit_direction :
  vec3.unit_vector (ray.direction sample.incoming) = Ok (vec3.from_xyz 0.8 (-0.6) 0).
Proof. apply (Vec3_unit_vector_eval _ _ 5); [lra | real | vec_eq]. Qed.

Lemma incoming_sin_theta :
  material.sin_theta (material.cos_theta (vec3.from_xyz 0.8 (-0.6) 0) hit_record)
  = Ok 0.8.
Proof.
  unfold material.sin_theta, material.cos_theta, float.min, hit_record.
  float_decide. apply sqrt_eval; real.
Qed.

Lemma incoming_relative_index :
  material.relative_index 1.5 hit_record = Ok 1.5.
Proof. reflexivity. Qed.

End dielectric_example.

Lemma Dielectric_scatter_total_internal_reflection_witness :
  1 < 1.5 * 0.8
  /\ material.Dielectric_scatter 1.5 sample.incoming (sample.surface_hit sample.glass)
       sample.st0
     = Ok (core.mkScatterRecord (vec3.from_xyz 1 1 1)
             (ray.mkRay (vec3.from_xyz 0 0 0)
                (vec3.reflect (vec3.from_xyz 0.8 (-0.6) 0) (vec3.from_xyz 0 1 0))),
           sample.st0).
Proof.
  split; [lra |].
  apply (proj2 (Dielectric_scatter_total_internal_reflection 1.5 sample.incoming
                  (sample.surface_hit sample.glass))
           sample.st0 1.5 (vec3.from_xyz 0.8 (-0.6) 0) 0.8).
  - apply incoming_relative_index.
  - apply incoming_unit_direction.
  - apply incoming_sin_theta.
  - lra.
Defined.

Section unit_vector.

Lemma length_squared_nonneg (v : vec3.Vec3) : 0 <= vec3.length_squared v.
Proof. unfold vec3.length_squared. nra. Qed.

Lemma length_squared_zero (v : vec3.Vec3) :
  vec3.length_squared v = 0 <-> v = vec3.from_xyz 0 0 0.
Proof.
  split.
  - unfold vec3.length_squared. intros H. apply Vec3_eq; cbn; nra.
  - intros ->. unfold vec3.length_squared; cbn. lra.
Qed.

Lemma length_ok (v : vec3.Vec3) :
  vec3.length v = Ok (sqrt (vec3.length_squared v)).
Proof. apply sqrt_ok, length_squared_nonneg. Qed.

(** [unit_vector] divides by the length: it raises exactly on the zero
    vector. *)
Lemma unit_vector_zero (v : vec3.Vec3) :
  vec3.length_squared v = 0 -> vec3.unit_vector v = Raise ZeroDivisionError.
Proof.
  intros H. unfold vec3.unit_vector, vec3.truediv. rewrite length_ok, H, sqrt_0.
  cbn. now rewrite truediv_zero.
Qed.

Lemma unit_vector_ok (v : vec3.Vec3) :
  vec3.length_squared v <> 0 ->
  vec3.unit_vector v = Ok (v [*] (1 / sqrt (vec3.length_squared v))).
Proof.
  intros H. unfold vec3.unit_vector, vec3.truediv. rewrite length_ok. cbn.
  rewrite truediv_ok; [reflexivity |].
  intros Hs. apply sqrt_eq_0 in Hs; [contradiction | apply length_squared_nonneg].
Qed.

End unit_vector.

Section metal.

Variables (fuel : nat) (albedo : color.Color) (fuzz : R).
Variables (r : ray.Ray) (hit_record : core.HitRecord).

Let reflected : vec3.Vec3 :=
  vec3.reflect (ray.direction r) (core.normal hit_record).

Lemma Metal_scatter_runs (st st' : state) (u rv : vec3.Vec3) :
  vec3.unit_vector reflected = Ok u ->
  vec3.random_unit_vector fuel st = Ok (rv, st') ->
  material.Metal_scatter fuel albedo fuzz r hit_record st
  = Ok (Some (core.mkScatterRecord albedo
                (ray.mkRay (core.p hit_record) (u [+] (rv [*] fuzz)))),
        st').
Proof.
  intros Hu Hrv. unfold material.Metal_scatter. fold reflected.
  rewrite (bind_Ok _ _ st st u) by now apply lift_Ok.
  now rewrite (bind_Ok _ _ st st' rv).
Qed.

Lemma Metal_scatter_Ok_inv (st st' : state) (outcome : option core.ScatterRecord) :
  material.Metal_scatter fuel albedo fuzz r hit_record st = Ok (outcome, st') ->
  exists record,
    outcome = Some record
    /\ core.attenuation record = albedo
    /\ ray.origin (core.scattered record) = core.p hit_record.
Proof.
  unfold material.Metal_scatter. intros H.
  run_inv H. run_inv H. run_inv H. subst outcome. eauto.
Qed.

Lemma Metal_scatter_zero (st : state) :
  vec3.length_squared reflected = 0 ->
  material.Metal_scatter fuel albedo fuzz r hit_record st = Raise ZeroDivisionError.
Proof.
  intros H. unfold material.Metal_scatter. fold reflected.
  unfold bind, lift. now rewrite unit_vector_zero.
Qed.

End metal.

Section lambertian.

Variables (fuel : nat) (albedo : color.Color).
Variables (r : ray.Ray) (hit_record : core.HitRecord).

Lemma Lambertian_scatter_Ok_inv (st st' : state) (outcome : option core.ScatterRecord) :
  material.Lambertian_scatter fuel albedo r hit_record st = Ok (outcome, st') ->
  exists record,
    outcome = Some record
    /\ core.attenuation record = albedo
    /\ ray.origin (core.scattered record) = core.p hit_record.
Proof.
  unfold material.Lambertian_scatter. intros H.
  run_inv H. run_inv H. subst outcome. eauto.
Qed.

End lambertian.

(** Run the random source and the monad on a concrete state. *)
Ltac run_state :=
  cbv [bind ret lift rbind random.random random.uniform vec3.uniform
       tape pos heap sample.st0 sample.st1 sample.st1_after Nat.eqb].

Section sampler_example.

Lemma random_unit_vector_st1 (fuel : nat) :
  vec3.random_unit_vector (S fuel) sample.st1
  = Ok (vec3.from_xyz 0 (-1) 0, sample.st1_after).
Proof.
  cbn [vec3.random_unit_vector].
  rewrite (bind_Ok _ _ sample.st1 sample.st1_after
             (vec3.from_xyz (-1 + (1 - -1) * 0.5) (-1 + (1 - -1) * 0)
                (-1 + (1 - -1) * 0.5))) by reflexivity.
  do 2 float_decide. cbn [andb].
  unfold lift.
  rewrite (sqrt_eval _ 1) by real. cbn [rbind].
  rewrite (Vec3_truediv_eval _ (vec3.from_xyz 0 (-1) 0)) by (real || vec_eq).
  reflexivity.
Qed.

(** With a source that always answers [0.5] every candidate is the zero
    vector, and the sampler never accepts. *)
Lemma random_unit_vector_st0 (fuel : nat) (k : nat) :
  vec3.random_unit_vector fuel (mkState [] (fun _ => 0.5) k) = OutOfFuel.
Proof.
  revert k. induction fuel as [| fuel IH]; intros k; [reflexivity |].
  cbn [vec3.random_unit_vector].
  rewrite (bind_Ok _ _ _ (mkState [] (fun _ => 0.5) (S (S (S k))))
             (vec3.from_xyz (-1 + (1 - -1) * 0.5) (-1 + (1 - -1) * 0.5)
                (-1 + (1 - -1) * 0.5))) by reflexivity.
  float_decide. cbn [andb]. apply IH.
Qed.

End sampler_example.

Section sampler_fuel.

(** Fuel only bounds the number of rejected candidates: once the sampler
    returns, it returns the same vector with any larger bound. *)
Lemma random_unit_vector_more_fuel (fuel extra : nat) (st st' : state) (v : vec3.Vec3) :
  vec3.random_unit_vector fuel st = Ok (v, st') ->
  vec3.random_unit_vector (fuel + extra) st = Ok (v, st').
Proof.
  revert st. induction fuel as [| fuel IH]; intros st; [discriminate |].
  cbn [vec3.random_unit_vector Nat.add]. unfold bind.
  destruct (vec3.uniform (-1) 1 st) as [[p st1] | | |]; try discriminate.
  destruct (_ && _); [trivial | apply IH].
Qed.

(** A candidate inside the unit ball, away from the origin, is accepted at
    once. *)
Lemma random_unit_vector_accepts (fuel : nat) (st st' : state) (p : vec3.Vec3) :
  vec3.uniform (-1) 1 st = Ok (p, st') ->
  1e-160 < vec3.length_squared p <= 1 ->
  vec3.random_unit_vector (S fuel) st
  = Ok (p [*] (1 / sqrt (vec3.length_squared p)), st').
Proof.
  intros Hdraw [Hlo Hhi]. cbn [vec3.random_unit_vector].
  rewrite (bind_Ok _ _ _ _ _ Hdraw).
  rewrite ltb_true, leb_true by assumption. cbn [andb]. unfold lift.
  rewrite sqrt_ok by lra. cbn [rbind]. unfold vec3.truediv.
  rewrite truediv_ok; [reflexivity |].
  intros Hzero. apply sqrt_eq_0 in Hzero; lra.
Qed.

End sampler_fuel.

(** A ray without direction, which no [hit] pairs with a record: the
    reflected vector is the zero vector, [unit_vector] divides by its
    length, and [Metal.scatter] raises [ZeroDivisionError], whatever the
    random source. *)
Lemma Metal_scatter_still_ray_raises :
  ~ (exists fuel st record st',
        material.Metal_scatter fuel sample.grey 0 sample.still
          (sample.surface_hit (core.Metal sample.grey 0)) st
        = Ok (Some record, st')
        /\ core.attenuation record = sample.grey).
Proof.
  intros (fuel & st & record & st' & H & _).
  rewrite Metal_scatter_zero in H by real. discriminate.
Qed.

Section metal_example.

Lemma incoming_reflected :
  vec3.reflect (ray.direction sample.incoming) (vec3.from_xyz 0 1 0)
  = vec3.from_xyz 4 3 0.
Proof. vec_eq. Qed.

Lemma incoming_reflected_unit :
  vec3.unit_vector (vec3.from_xyz 4 3 0) = Ok (vec3.from_xyz 0.8 0.6 0).
Proof. apply (Vec3_unit_vector_eval _ _ 5); [lra | real | vec_eq]. Qed.

End metal_example.

(** C10. For every material, incoming ray, hit record and state, a scatter
    record returned by the material's [scatter] holds a ray whose origin is
    the hit point [p] of the hit record. *)
Theorem scatter_origin_is_hit_point
    (fuel : nat) (m : core.Material) (r : ray.Ray) (hit_record : core.HitRecord)
    (st st' : state) (record : core.ScatterRecord) :
  material.scatter fuel m r hit_record st = Ok (Some record, st') ->
  ray.origin (core.scattered record) = core.p hit_record.
Proof.
  destruct m as [albedo | albedo fuzz | refraction_index]; cbn [material.scatter]; intros H.
  - apply Lambertian_scatter_Ok_inv in H as (record' & [= <-] & _ & Horigin).
    exact Horigin.
  - apply Metal_scatter_Ok_inv in H as (record' & [= <-] & _ & Horigin).
    exact Horigin.
  - run_inv H. run_inv H. injection H as ->.
    now apply Dielectric_scatter_attenuation in H0 as [_ Horigin].
Qed.

Section lambertian_example.

Lemma near_zero_origin : vec3.near_zero (vec3.from_xyz 0 0 0) = true.
Proof.
  unfold vec3.near_zero, float.abs; cbn [vec3.x vec3.y vec3.z].
  rewrite Rabs_R0. now float_decide.
Qed.

Lemma Lambertian_scatter_st1 :
  material.scatter 1 (core.Lambertian sample.grey) sample.incoming
    (sample.surface_hit (core.Lambertian sample.grey)) sample.st1
  = Ok (Some sample.diffuse_bounce, sample.st1_after).
Proof.
  cbn [material.scatter]. unfold material.Lambertian_scatter.
  rewrite (bind_Ok _ _ _ _ _ (random_unit_vector_st1 0)).
  replace (core.normal (sample.surface_hit (core.Lambertian sample.grey))
           [+] vec3.from_xyz 0 (-1) 0)
    with (vec3.from_xyz 0 0 0) by vec_eq.
  rewrite near_zero_origin. reflexivity.
Qed.

End lambertian_example.

Lemma scatter_origin_is_hit_point_witness :
  ray.origin (core.scattered sample.diffuse_bounce)
  = core.p (sample.surface_hit (core.Lambertian sample.grey)).
Proof.
  apply (scatter_origin_is_hit_point 1 (core.Lambertian sample.grey) sample.incoming
           (sample.surface_hit (core.Lambertian sample.grey))
           sample.st1 sample.st1_after sample.diffuse_bounce).
  apply Lambertian_scatter_st1.
Defined.

(** ** hittable.py: [Sphere.hit] finds the nearest root in the range *)

Section sphere_geometry.

Variables (s : hittable.Sphere) (r : ray.Ray).

Let oc : vec3.Vec3 := hittable.center s [-] ray.origin r.
Let a : R := vec3.length_squared (ray.direction r).
Let h : R := vec3.dot (ray.direction r) oc.
Let c : R := vec3.length_squared oc - (hittable.radius s * hittable.radius s).
Let discriminant : R := (h * h) - (a * c).

Lemma on_sphere_quadratic (t : R) :
  spec.on_sphere s r t <-> a * t * t - 2 * h * t + c = 0.
Proof.
  assert (Heq : vec3.length_squared (ray.at_ r t [-] hittable.center s)
                - hittable.radius s * hittable.radius s
                = a * t * t - 2 * h * t + c).
  { unfold a, h, c, oc. vsimpl. ring. }
  unfold spec.on_sphere. split; intros H; lra.
Qed.

Lemma on_sphere_discriminant (t : R) :
  spec.on_sphere s r t -> (a * t - h) * (a * t - h) = discriminant.
Proof.
  rewrite on_sphere_quadratic. intros H. unfold discriminant.
  replace ((a * t - h) * (a * t - h)) with (a * (a * t * t - 2 * h * t + c) + (h * h - a * c))
    by ring.
  rewrite H. ring.
Qed.

Lemma on_sphere_roots (t : R) :
  a <> 0 -> 0 <= discriminant ->
  spec.on_sphere s r t
  <-> t = (h - sqrt discriminant) / a \/ t = (h + sqrt discriminant) / a.
Proof.
  intros Ha Hd. pose proof (sqrt_sqrt _ Hd) as Hsq.
  pose proof (sqrt_pos discriminant) as Hs0.
  set (q := sqrt discriminant) in *. split.
  - intros H. apply on_sphere_discriminant in H.
    assert (Hcases : a * t - h = q \/ a * t - h = - q).
    { assert (Hz : (a * t - h - q) * (a * t - h + q) = 0) by (ring_simplify; lra).
      apply Rmult_integral in Hz. destruct Hz; [left | right]; lra. }
    destruct Hcases as [Hc | Hc]; [right | left].
    + apply Rmult_eq_reg_l with a; [| assumption]. field_simplify; [lra | assumption].
    + apply Rmult_eq_reg_l with a; [| assumption]. field_simplify; [lra | assumption].
  - intros Ht. rewrite on_sphere_quadratic.
    apply Rmult_eq_reg_l with a; [| assumption].
    assert (Hat : a * t = h - q \/ a * t = h + q).
    { destruct Ht as [-> | ->]; [left | right]; field; assumption. }
    replace (a * (a * t * t - 2 * h * t + c))
      with ((a * t) * (a * t) - 2 * h * (a * t) + a * c) by ring.
    unfold discriminant in Hsq. destruct Hat as [-> | ->]; ring_simplify; lra.
Qed.

Lemma root_order :
  0 < a -> 0 <= discriminant ->
  (h - sqrt discriminant) / a <= (h + sqrt discriminant) / a.
Proof.
  intros Ha Hd. pose proof (sqrt_pos discriminant) as Hs0.
  unfold Rdiv. apply Rmult_le_compat_r; [| lra].
  left. now apply Rinv_0_lt_compat.
Qed.

Lemma Sphere_record_ok (root : R) :
  exists record,
    hittable.Sphere_record s r root = Ok record /\ core.t record = root.
Proof.
  unfold hittable.Sphere_record, vec3.truediv.
  rewrite truediv_ok by (pose proof (hittable.radius_positive s); lra).
  cbn [rbind]. eexists. split; reflexivity.
Qed.

(** [Sphere.hit] on a ray with a direction: the query returns, reads the
    range and changes nothing, and its outcome is the closest qualifying
    hit of the sphere. *)
Lemma Sphere_hit_spec (t_range : loc) (st : state) (range : interval.Interval) :
  heap st !! t_range = Some range ->
  a <> 0 ->
  exists outcome,
    hittable.Sphere_hit s r t_range st = Ok (outcome, st)
    /\ spec.closest_among (eq s) r range outcome.
Proof.
  intros Hrange Ha.
  assert (Hapos : 0 < a).
  { pose proof (length_squared_nonneg (ray.direction r)). unfold a in *. lra. }
  unfold hittable.Sphere_hit. fold oc. fold a. fold h. fold c. fold discriminant.
  destruct (ltb_reflect discriminant 0) as [Hneg | Hpos].
  { exists None. split; [reflexivity |].
    intros s' t <- Hon. apply on_sphere_discriminant in Hon.
    exfalso. revert Hon Hneg. generalize discriminant (a * t - h).
    intros d q Hon Hneg. nra. }
  assert (Hd : 0 <= discriminant) by lra.
  pose proof (on_sphere_roots) as Hroots.
  pose proof (root_order Hapos Hd) as Hord.
  set (root1 := (h - sqrt discriminant) / a) in *.
  set (root2 := (h + sqrt discriminant) / a) in *.
  rewrite (bind_Ok _ _ st st (sqrt discriminant)) by (apply lift_Ok, sqrt_ok, Hd).
  rewrite (bind_Ok _ _ st st root1) by (apply lift_Ok, truediv_ok, Ha).
  assert (Hderef : deref t_range st = Ok (range, st)) by (unfold deref; now rewrite Hrange).
  rewrite (bind_Ok _ _ st st range) by exact Hderef.
  destruct (interval.surrounds range root1) eqn:Hs1; cbn [negb].
  - destruct (Sphere_record_ok root1) as (record & Hrec & Ht).
    exists (Some record).
    rewrite (bind_Ok _ _ st st record) by (apply lift_Ok, Hrec).
    split; [reflexivity |]. cbn [spec.closest_among]. rewrite Ht.
    split; [exact Hs1 |]. split.
    + exists s. split; [reflexivity |]. split; [| exact Hrec].
      apply Hroots; auto.
    + intros s' t <- Hon _. apply Hroots in Hon; [| assumption | assumption].
      destruct Hon as [-> | ->]; lra.
  - rewrite (bind_Ok _ _ st st root2) by (apply lift_Ok, truediv_ok, Ha).
    rewrite (bind_Ok _ _ st st range) by exact Hderef.
    destruct (interval.surrounds range root2) eqn:Hs2; cbn [negb].
    + destruct (Sphere_record_ok root2) as (record & Hrec & Ht).
      exists (Some record).
      rewrite (bind_Ok _ _ st st record) by (apply lift_Ok, Hrec).
      split; [reflexivity |]. cbn [spec.closest_among]. rewrite Ht.
      split; [exact Hs2 |]. split.
      * exists s. split; [reflexivity |]. split; [| exact Hrec].
        apply Hroots; auto.
      * intros s' t <- Hon Hin. apply Hroots in Hon; [| assumption | assumption].
        destruct Hon as [-> | ->]; [congruence | lra].
    + exists None. split; [reflexivity |].
      intros s' t <- Hon. apply Hroots in Hon; [| assumption | assumption].
      destruct Hon as [-> | ->]; assumption.
Qed.

(** On a ray without direction the quadratic degenerates and the division
    by [a] raises. *)
Lemma Sphere_hit_still (t_range : loc) (st : state) :
  a = 0 -> hittable.Sphere_hit s r t_range st = Raise ZeroDivisionError.
Proof.
  intros Ha. unfold hittable.Sphere_hit. fold oc. fold a. fold h. fold c.
  assert (Hh : h = 0).
  { unfold a in Ha. apply length_squared_zero in Ha. unfold h. rewrite Ha. vsimpl. ring. }
  rewrite Ha, Hh. rewrite ltb_false by lra.
  unfold bind, lift. rewrite sqrt_ok by lra. cbn [rbind].
  now rewrite truediv_zero.
Qed.

End sphere_geometry.

(** ** hittable.py: [World.hit] keeps the closest hit *)

Section ranges.

Lemma surrounds_iff (range : interval.Interval) (t : R) :
  interval.surrounds range t = true
  <-> float.xltb (interval.min range) t = true
      /\ float.xltb t (interval.max range) = true.
Proof. unfold interval.surrounds. apply andb_true_iff. Qed.

Lemma xltb_fin (u v : R) : float.xltb u v = true <-> u < v.
Proof. cbn. destruct (ltb_reflect u v); split; intros; (assumption || discriminate || reflexivity || contradiction). Qed.

Lemma xltb_upper_mono (t1 t2 : R) (bound : float.xfloat) :
  t1 <= t2 -> float.xltb t2 bound = true -> float.xltb t1 bound = true.
Proof.
  intros Hle. destruct bound as [| | b |]; cbn; try (intros; assumption).
  destruct (ltb_reflect t2 b); [| discriminate]. intros _. apply ltb_true. lra.
Qed.

Lemma Interval_eta (range : interval.Interval) :
  interval.mkInterval (interval.min range) (interval.max range) = range.
Proof. now destruct range. Qed.

End ranges.

Section closest.

Variables (r : ray.Ray) (range : interval.Interval).

(** The upper bound of the narrowed copy once [closest] has been found. *)
Let upper (closest : option core.HitRecord) : float.xfloat :=
  match closest with
  | Some record => float.fin (core.t record)
  | None => interval.max range
  end.

Let narrowed (closest : option core.HitRecord) : interval.Interval :=
  interval.mkInterval (interval.min range) (upper closest).

Lemma closest_among_ext (among among' : hittable.Sphere -> Prop)
    (range' : interval.Interval) (outcome : option core.HitRecord) :
  (forall s, among s <-> among' s) ->
  spec.closest_among among r range' outcome ->
  spec.closest_among among' r range' outcome.
Proof.
  intros Hext. destruct outcome as [record |]; cbn.
  - intros (Hin & (s & Hs & Hon & Hrec) & Hmin). split; [assumption |]. split.
    + exists s. split; [now apply Hext | auto].
    + intros s' t Hs'. apply Hmin. now apply Hext.
  - intros Hnone s t Hs. apply Hnone. now apply Hext.
Qed.

(** A qualifying hit that the narrowed range rejects lies at or beyond the
    closest hit found so far. *)
Lemma beyond_closest (among : hittable.Sphere -> Prop)
    (closest : option core.HitRecord) (t : R) :
  spec.closest_among among r range closest ->
  interval.surrounds range t = true ->
  interval.surrounds (narrowed closest) t = false ->
  exists record, closest = Some record /\ core.t record <= t.
Proof.
  intros Hclosest Hin Hout. destruct closest as [record |].
  - exists record. split; [reflexivity |].
    apply surrounds_iff in Hin as [Hlo Hhi].
    unfold interval.surrounds, narrowed, upper in Hout; cbn in Hout.
    rewrite Hlo in Hout. cbn in Hout.
    destruct (ltb_reflect t (core.t record)); [discriminate | lra].
  - unfold narrowed, upper in Hout. rewrite Interval_eta in Hout. congruence.
Qed.

Lemma narrowed_inside (among : hittable.Sphere -> Prop)
    (closest : option core.HitRecord) (t : R) :
  spec.closest_among among r range closest ->
  interval.surrounds (narrowed closest) t = true ->
  interval.surrounds range t = true
  /\ (forall record, closest = Some record -> t < core.t record).
Proof.
  intros Hclosest Hin. destruct closest as [record |].
  - apply surrounds_iff in Hin as [Hlo Hhi]. cbn in Hlo, Hhi.
    apply (xltb_fin t (core.t record)) in Hhi.
    destruct Hclosest as (Hrec & _ & _).
    apply surrounds_iff in Hrec as [_ Hrec]. split.
    + apply surrounds_iff. split; [assumption |].
      apply xltb_upper_mono with (core.t record); [lra | assumption].
    + intros record' [= <-]. assumption.
  - unfold narrowed, upper in Hin. rewrite Interval_eta in Hin.
    split; [assumption | discriminate].
Qed.

Lemma closest_among_closer (seen fresh : hittable.Sphere -> Prop)
    (closest : option core.HitRecord) (record : core.HitRecord) :
  spec.closest_among seen r range closest ->
  spec.closest_among fresh r (narrowed closest) (Some record) ->
  spec.closest_among (fun s => seen s \/ fresh s) r range (Some record).
Proof.
  intros Hseen (Hin & (s & Hs & Hon & Hrec) & Hmin).
  destruct (narrowed_inside seen closest _ Hseen Hin) as [Hin' Hcloser].
  split; [assumption |]. split.
  - exists s. auto.
  - intros s' t [Hs' | Hs'] Hon' Ht.
    + destruct closest as [old |].
      * destruct Hseen as (_ & _ & Hold). specialize (Hold s' t Hs' Hon' Ht).
        specialize (Hcloser old eq_refl). lra.
      * cbn in Hseen. rewrite (Hseen s' t Hs' Hon') in Ht. discriminate.
    + destruct (interval.surrounds (narrowed closest) t) eqn:Hnarrow.
      * now apply (Hmin s' t).
      * destruct (beyond_closest seen closest t Hseen Ht Hnarrow) as (old & -> & Hold).
        specialize (Hcloser old eq_refl). lra.
Qed.

Lemma closest_among_miss (seen fresh : hittable.Sphere -> Prop)
    (closest : option core.HitRecord) :
  spec.closest_among seen r range closest ->
  spec.closest_among fresh r (narrowed closest) None ->
  spec.closest_among (fun s => seen s \/ fresh s) r range closest.
Proof.
  intros Hseen Hmiss. destruct closest as [old |].
  - destruct Hseen as (Hin & (s & Hs & Hon & Hrec) & Hmin).
    split; [assumption |]. split.
    + exists s. auto.
    + intros s' t [Hs' | Hs'] Hon' Ht; [now apply (Hmin s' t) |].
      specialize (Hmiss s' t Hs' Hon').
      assert (Hseen : spec.closest_among seen r range (Some old)).
      { split; [assumption |]. split; [exists s; auto | assumption]. }
      destruct (beyond_closest seen (Some old) t Hseen Ht Hmiss) as (old' & [= <-] & Hle).
      assumption.
  - cbn in *. intros s t [Hs | Hs] Hon; [now apply (Hseen s t) |].
    specialize (Hmiss s t Hs Hon). unfold narrowed, upper in Hmiss.
    now rewrite Interval_eta in Hmiss.
Qed.

End closest.

Section world.

Variable r : ray.Ray.
Hypothesis direction_nonzero : vec3.length_squared (ray.direction r) <> 0.

Lemma set_max_Ok (l : loc) (v : float.xfloat) (st : state) (i : interval.Interval) :
  heap st !! l = Some i ->
  set_max l v st
  = Ok (tt, mkState (<[l := interval.mkInterval (interval.min i) v]> (heap st))
              (tape st) (pos st)).
Proof. unfold set_max. now intros ->. Qed.

(** The loop of [World.hit], started on the objects still to visit with the
    closest record among the primitives [seen] so far, in a state where the
    copy at [curr] has been narrowed to that record. *)
Lemma World_hit_loop_spec (range : interval.Interval) (curr : loc)
    (objects : list hittable.Hittable) :
  Forall spec.hit_contract objects ->
  forall (seen : hittable.Sphere -> Prop) (closest : option core.HitRecord) (st : state),
    heap st !! curr
    = Some (interval.mkInterval (interval.min range)
              (match closest with
               | Some record => float.fin (core.t record)
               | None => interval.max range
               end)) ->
    spec.closest_among seen r range closest ->
    exists outcome st',
      hittable.World_hit_loop hittable.hit r curr objects closest st = Ok (outcome, st')
      /\ spec.closest_among
           (fun s => seen s \/ exists object, In object objects /\ spec.primitive s object)
           r range outcome
      /\ tape st' = tape st
      /\ pos st' = pos st
      /\ (forall l i, l <> curr -> heap st !! l = Some i -> heap st' !! l = Some i).
Proof.
  induction 1 as [| object rest Hobject _ IH]; intros seen closest st Hcurr Hseen.
  - exists closest, st. split; [reflexivity |]. split; [| auto].
    apply closest_among_ext with seen; [| assumption].
    intros s. split; [auto |]. intros [Hs | (o & [] & _)]; assumption.
  - cbn [hittable.World_hit_loop].
    destruct (Hobject r curr st _ Hcurr direction_nonzero)
      as (found & st1 & Hrun & Hfound & Htape1 & Hpos1 & Hheap1).
    rewrite (bind_Ok _ _ st st1 found) by exact Hrun.
    pose proof (Hheap1 _ _ Hcurr) as Hcurr1.
    assert (Hunion : forall s,
               (seen s \/ spec.primitive s object)
               \/ (exists o, In o rest /\ spec.primitive s o)
               <-> seen s \/ (exists o, In o (object :: rest) /\ spec.primitive s o)).
    { intros s. split.
      - intros [[Hs | Hs] | (o & Ho & Hs)]; [auto | right | right].
        + exists object. split; [now left | assumption].
        + exists o. split; [now right | assumption].
      - intros [Hs | (o & [<- | Ho] & Hs)]; [auto | auto |].
        right. exists o. auto. }
    destruct found as [record |].
    + rewrite (bind_Ok _ _ st1 _ tt) by (apply set_max_Ok with (1 := Hcurr1)).
      cbn [interval.min].
      set (st2 := mkState _ (tape st1) (pos st1)).
      destruct (IH (fun s => seen s \/ spec.primitive s object) (Some record) st2)
        as (outcome & st' & Hloop & Hclosest & Htape & Hpos & Hheap).
      { cbn [heap st2]. apply list_lookup_insert_eq. now apply lookup_lt_Some in Hcurr1. }
      { now apply closest_among_closer with (closest := closest). }
      exists outcome, st'. split; [exact Hloop |]. split.
      { now apply closest_among_ext with (2 := Hclosest). }
      cbn [tape pos heap st2] in Htape, Hpos, Hheap.
      split; [congruence |]. split; [congruence |].
      intros l i Hl Hi. apply Hheap; [assumption |].
      rewrite list_lookup_insert_ne by congruence. now apply Hheap1.
    + destruct (IH (fun s => seen s \/ spec.primitive s object) closest st1)
        as (outcome & st' & Hloop & Hclosest & Htape & Hpos & Hheap).
      { exact Hcurr1. }
      { now apply closest_among_miss. }
      exists outcome, st'. split; [exact Hloop |]. split.
      { now apply closest_among_ext with (2 := Hclosest). }
      split; [congruence |]. split; [congruence |].
      intros l i Hl Hi. apply Hheap; [assumption |]. now apply Hheap1.
Qed.

Lemma copy_Ok (l : loc) (st : state) (i : interval.Interval) :
  heap st !! l = Some i ->
  copy l st = Ok (length (heap st), mkState (heap st ++ [i]) (tape st) (pos st)).
Proof. intros H. unfold copy, bind, deref. now rewrite H. Qed.

End world.

Section contracts.

Lemma primitive_world_iff (s : hittable.Sphere) (objects : list hittable.Hittable) :
  spec.primitive s (hittable.AWorld objects)
  <-> exists object, In object objects /\ spec.primitive s object.
Proof.
  split.
  - inversion 1; subst. eauto.
  - intros (object & Hin & Hs). now apply spec.primitive_world with object.
Qed.

Lemma primitive_sphere_iff (s s' : hittable.Sphere) :
  spec.primitive s (hittable.ASphere s') <-> s' = s.
Proof.
  split.
  - inversion 1; subst. reflexivity.
  - intros ->. constructor.
Qed.

Lemma Sphere_hit_contract (s : hittable.Sphere) : spec.hit_contract (hittable.ASphere s).
Proof.
  intros r t_range st range Hrange Hdir. cbn [hittable.hit].
  destruct (Sphere_hit_spec s r t_range st range Hrange Hdir) as (outcome & Hrun & Hclosest).
  exists outcome, st. split; [exact Hrun |]. split.
  - unfold spec.closest_hit. apply closest_among_ext with (2 := Hclosest).
    intros s'. symmetry. apply primitive_sphere_iff.
  - unfold spec.frame. auto.
Qed.

Lemma World_hit_contract (objects : list hittable.Hittable) :
  Forall spec.hit_contract objects -> spec.hit_contract (hittable.AWorld objects).
Proof.
  intros Hobjects r t_range st range Hrange Hdir.
  cbn [hittable.hit]. unfold hittable.World_hit.
  rewrite (bind_Ok _ _ _ _ _ (copy_Ok _ _ _ Hrange)).
  set (st1 := mkState (heap st ++ [range]) (tape st) (pos st)).
  destruct (World_hit_loop_spec r Hdir range (length (heap st)) objects Hobjects
              (fun _ => False) None st1)
    as (outcome & st' & Hloop & Hclosest & Htape & Hpos & Hheap).
  { cbn [heap st1]. rewrite Interval_eta. now apply list_lookup_middle. }
  { intros s t []. }
  exists outcome, st'. split; [exact Hloop |]. split.
  - unfold spec.closest_hit. apply closest_among_ext with (2 := Hclosest).
    intros s. rewrite primitive_world_iff. tauto.
  - split; [exact Htape |]. split; [exact Hpos |].
    intros l i Hl. apply Hheap.
    + apply lookup_lt_Some in Hl. lia.
    + cbn [heap st1]. now apply lookup_app_l_Some.
Qed.

(** Induction over a scene, whose worlds hold lists of scenes. *)
Lemma Hittable_rect_nested (P : hittable.Hittable -> Prop) :
  (forall s, P (hittable.ASphere s)) ->
  (forall objects, Forall P objects -> P (hittable.AWorld objects)) ->
  forall object, P object.
Proof.
  intros Hsphere Hworld.
  fix IH 1. intros [s | objects].
  - apply Hsphere.
  - apply Hworld. induction objects as [| object rest IHrest].
    + constructor.
    + constructor; [apply IH | exact IHrest].
Qed.

Lemma hit_contract_all (object : hittable.Hittable) : spec.hit_contract object.
Proof.
  induction object as [s | objects IH] using Hittable_rect_nested.
  - apply Sphere_hit_contract.
  - now apply World_hit_contract.
Qed.

End contracts.

Section still_queries.

(** Queries with a ray without direction: such a query returns only from a
    scene that holds no sphere, and then it has found nothing. *)
Variable r : ray.Ray.
Hypothesis still : vec3.length_squared (ray.direction r) = 0.

Let silent (object : hittable.Hittable) : Prop :=
  forall (l : loc) (st st' : state) (range : interval.Interval)
         (outcome : option core.HitRecord),
    heap st !! l = Some range ->
    hittable.hit object r l st = Ok (outcome, st') ->
    outcome = None
    /\ (forall s, ~ spec.primitive s object)
    /\ spec.frame st st'.

Lemma World_hit_loop_still_Ok_inv (objects : list hittable.Hittable) :
  Forall silent objects ->
  forall (curr : loc) (st st' : state) (range : interval.Interval)
         (outcome : option core.HitRecord),
    heap st !! curr = Some range ->
    hittable.World_hit_loop hittable.hit r curr objects None st = Ok (outcome, st') ->
    outcome = None
    /\ (forall s object, In object objects -> ~ spec.primitive s object)
    /\ spec.frame st st'.
Proof.
  induction 1 as [| object rest Hobject _ IH]; intros curr st st' range outcome Hcurr Hrun.
  - cbn [hittable.World_hit_loop] in Hrun. apply ret_Ok_inv in Hrun as [-> ->].
    split; [reflexivity |]. split; [intros s object [] |].
    unfold spec.frame. auto.
  - cbn [hittable.World_hit_loop] in Hrun.
    apply bind_Ok_inv in Hrun as (found & st1 & Hfound & Hrun).
    destruct (Hobject curr st st1 range found Hcurr Hfound)
      as (-> & Hnone & Htape1 & Hpos1 & Hheap1).
    destruct (IH curr st1 st' range outcome (Hheap1 _ _ Hcurr) Hrun)
      as (-> & Hrest & Htape & Hpos & Hheap).
    split; [reflexivity |]. split.
    + intros s o [<- | Hin]; [apply Hnone | now apply Hrest].
    + unfold spec.frame. split; [congruence |]. split; [congruence | auto].
Qed.

Lemma hit_still_Ok_inv (object : hittable.Hittable) : silent object.
Proof.
  induction object as [s | objects IH] using Hittable_rect_nested;
    intros l st st' range outcome Hrange Hrun.
  - cbn [hittable.hit] in Hrun. rewrite Sphere_hit_still in Hrun by exact still.
    discriminate.
  - cbn [hittable.hit] in Hrun. unfold hittable.World_hit in Hrun.
    rewrite (bind_Ok _ _ _ _ _ (copy_Ok _ _ _ Hrange)) in Hrun.
    set (st1 := mkState (heap st ++ [range]) (tape st) (pos st)) in Hrun.
    destruct (World_hit_loop_still_Ok_inv objects IH (length (heap st)) st1 st' range
                outcome) as (-> & Hnone & Htape & Hpos & Hheap).
    { cbn [heap st1]. now apply list_lookup_middle. }
    { exact Hrun. }
    split; [reflexivity |]. split.
    + intros s Hs. apply primitive_world_iff in Hs as (object & Hin & Hs).
      exact (Hnone s object Hin Hs).
    + unfold spec.frame. split; [exact Htape |]. split; [exact Hpos |].
      intros l' i Hi. apply Hheap. cbn [heap st1]. now apply lookup_app_l_Some.
Qed.

End still_queries.

(** What a query that returns has found, whatever the ray. *)
Lemma hit_Ok_contract (object : hittable.Hittable) (r : ray.Ray) (t_range : loc)
    (range : interval.Interval) (st st' : state) (outcome : option core.HitRecord) :
  heap st !! t_range = Some range ->
  hittable.hit object r t_range st = Ok (outcome, st') ->
  spec.closest_hit object r range outcome /\ spec.frame st st'.
Proof.
  intros Hrange Hrun.
  destruct (Req_dec_T (vec3.length_squared (ray.direction r)) 0) as [Hstill | Hdir].
  - destruct (hit_still_Ok_inv r Hstill object t_range st st' range outcome Hrange Hrun)
      as (-> & Hnone & Hframe).
    split; [| exact Hframe].
    intros s t Hs. now destruct (Hnone s).
  - destruct (hit_contract_all object r t_range st range Hrange Hdir)
      as (outcome2 & st2 & Hrun2 & Hclosest & Hframe).
    rewrite Hrun in Hrun2. injection Hrun2 as <- <-. auto.
Qed.




Section world_example.

(** [Sphere.hit] when the smaller root is accepted. *)
Lemma Sphere_hit_first_root (s : hittable.Sphere) (r : ray.Ray) (l : nat) (st : state)
    (range : interval.Interval) (sqrtd root : R) (record : core.HitRecord) :
  heap st !! l = Some range ->
  0 <= sqrtd ->
  sqrtd * sqrtd
  = vec3.dot (ray.direction r) (hittable.center s [-] ray.origin r)
    * vec3.dot (ray.direction r) (hittable.center s [-] ray.origin r)
    - vec3.length_squared (ray.direction r)
      * (vec3.length_squared (hittable.center s [-] ray.origin r)
         - hittable.radius s * hittable.radius s) ->
  vec3.length_squared (ray.direction r) <> 0 ->
  root * vec3.length_squared (ray.direction r)
  = vec3.dot (ray.direction r) (hittable.center s [-] ray.origin r) - sqrtd ->
  interval.surrounds range root = true ->
  hittable.Sphere_record s r root = Ok record ->
  hittable.Sphere_hit s r l st = Ok (Some record, st).
Proof.
  intros Hrange Hsqrtd Hdisc Ha Hroot Hin Hrecord. unfold hittable.Sphere_hit.
  rewrite <- Hdisc. rewrite ltb_false by nra.
  rewrite (bind_Ok _ _ st st sqrtd) by (apply lift_Ok, sqrt_eval; [assumption | reflexivity]).
  rewrite (bind_Ok _ _ st st root) by (apply lift_Ok, truediv_eval; assumption).
  rewrite (bind_Ok _ _ st st range) by (unfold deref; now rewrite Hrange).
  rewrite Hin. cbn [negb].
  now rewrite (bind_Ok _ _ st st record) by (apply lift_Ok, Hrecord).
Qed.

Lemma Sphere_record_far :
  hittable.Sphere_record sample.far_ball sample.probe 6
  = Ok (core.mkHitRecord (vec3.from_xyz 4 0 0) (vec3.from_xyz (-1) 0 0) 6
          (core.Metal sample.grey 0) true).
Proof.
  unfold hittable.Sphere_record.
  rewrite (Vec3_truediv_eval _ (vec3.from_xyz (-1) 0 0)) by (real || vec_eq).
  cbn [rbind]. float_decide. f_equal. f_equal. vec_eq.
Qed.

(** The farther sphere is visited first and hit at [t = 6]; the nearer one,
    visited with the copy narrowed to [(0.001, 6)], is hit at [t = 1] and
    its record is the one returned.  The range of the caller, at location 0,
    still reaches infinity; the copy, at location 1, ends at 1. *)
Lemma World_hit_two_spheres :
  hittable.hit (hittable.AWorld [hittable.ASphere sample.far_ball;
                                 hittable.ASphere sample.ball])
    sample.probe 0%nat sample.st0
  = Ok (Some sample.probe_record,
        mkState [interval.mkInterval 0.001 utils.infinity; interval.mkInterval 0.001 1]
          (fun _ => 0.5) 0).
Proof.
  set (whole := interval.mkInterval 0.001 utils.infinity).
  assert (Hfar : forall st,
             heap st !! 1%nat = Some whole ->
             hittable.Sphere_hit sample.far_ball sample.probe 1 st
             = Ok (Some (core.mkHitRecord (vec3.from_xyz 4 0 0) (vec3.from_xyz (-1) 0 0) 6
                           (core.Metal sample.grey 0) true), st)).
  { intros st Hst.
    apply Sphere_hit_first_root with (range := whole) (sqrtd := 1) (root := 6);
      [exact Hst | lra | real | real | real | | apply Sphere_record_far].
    unfold interval.surrounds; cbn. now float_decide. }
  assert (Hnear : forall st,
             heap st !! 1%nat = Some (interval.mkInterval 0.001 6) ->
             hittable.Sphere_hit sample.ball sample.probe 1 st
             = Ok (Some sample.probe_record, st)).
  { intros st Hst.
    apply Sphere_hit_first_root with (range := interval.mkInterval 0.001 6)
                                     (sqrtd := 1) (root := 1);
      [exact Hst | lra | real | real | real | | apply Sphere_record_probe].
    unfold interval.surrounds; cbn. now do 2 float_decide. }
  cbn [hittable.hit]. unfold hittable.World_hit.
  rewrite (bind_Ok _ _ _ _ _ (copy_Ok 0%nat sample.st0 whole eq_refl)).
  cbn [hittable.World_hit_loop hittable.hit length heap sample.st0 app tape pos].
  erewrite bind_Ok by (apply Hfar; reflexivity). cbv beta iota.
  erewrite bind_Ok by (apply set_max_Ok with (i := whole); reflexivity).
  cbn [heap tape pos core.t interval.min whole].
  erewrite bind_Ok by (apply Hnear; reflexivity). cbv beta iota.
  erewrite bind_Ok by (apply set_max_Ok with (i := interval.mkInterval 0.001 6); reflexivity).
  reflexivity.
Qed.

End world_example.

(** ** camera.py: the chunks of the parallel renderer *)

Section slices.

Context {A : Type}.

Lemma slice_take_drop (l : list A) (i size : nat) :
  builtins.slice l i (i + size) = take size (drop i l).
Proof. unfold builtins.slice. f_equal. lia. Qed.

(** Cutting a list into [n] consecutive pieces of [size] elements loses
    nothing when [n * size] reaches the end of the list. *)
Lemma concat_pieces (size n : nat) (l : list A) :
  (length l <= n * size)%nat ->
  concat (map (fun k => take size (drop (k * size) l)) (seq 0 n)) = l.
Proof.
  revert l. induction n as [| n IH]; intros l Hlen.
  - destruct l; [reflexivity | cbn in Hlen; lia].
  - rewrite <- cons_seq, <- fmap_S_seq. cbn [map concat].
    change (0 * size)%nat with 0%nat. rewrite drop_0.
    etransitivity; [| apply (take_drop size l)]. f_equal.
    etransitivity; [| apply (IH (drop size l)); rewrite length_drop; lia].
    change (S <$> seq 0 n) with (map S (seq 0 n)). rewrite map_map.
    f_equal. apply map_ext. intros k.
    rewrite drop_drop. repeat f_equal; lia.
Qed.

Lemma range3_pieces (size len : nat) :
  (0 < size)%nat ->
  exists n, builtins.range3 0 len size = Ok (map (fun k => (0 + k * size)%nat) (seq 0 n))
            /\ (len <= n * size)%nat.
Proof.
  intros Hsize. unfold builtins.range3.
  destruct (Nat.eqb_spec size 0) as [-> | Hnz]; [lia |].
  eexists. split; [reflexivity |].
  pose proof (Nat.mul_succ_div_gt (len - 0 + (size - 1)) size Hnz). nia.
Qed.

Lemma concat_disjoint (pieces : list (list A)) :
  NoDup (concat pieces) ->
  forall k k' piece piece' x,
    pieces !! k = Some piece -> pieces !! k' = Some piece' ->
    In x piece -> In x piece' -> k = k'.
Proof.
  induction pieces as [| first rest IH]; intros Hnodup k k' piece piece' x Hk Hk' Hx Hx'.
  - discriminate.
  - cbn [concat] in Hnodup. apply NoDup_app in Hnodup as (_ & Hapart & Hrest).
    assert (Hin : forall j q, rest !! j = Some q -> In x q -> x ∈ concat rest).
    { intros j q Hj Hq. apply list_elem_of_In, in_concat. exists q.
      split; [| assumption]. apply list_elem_of_In. eapply list_elem_of_lookup_2, Hj. }
    destruct k as [| k], k' as [| k']; cbn in Hk, Hk'.
    + reflexivity.
    + injection Hk as <-. exfalso.
      apply (Hapart x); [now apply list_elem_of_In | eapply Hin; eassumption].
    + injection Hk' as <-. exfalso.
      apply (Hapart x); [now apply list_elem_of_In | eapply Hin; eassumption].
    + f_equal. eapply IH; eassumption.
Qed.

End slices.

Section pixels.

Variable self : camera.Camera.

Lemma pixels_In (j i : nat) :
  In (j, i) (camera.pixels self)
  <-> (Z.of_nat j < camera.image_height self)%Z
      /\ (Z.of_nat i < camera.image_width self)%Z.
Proof.
  unfold camera.pixels, builtins.range.
  rewrite <- list_elem_of_In, list_elem_of_bind. split.
  - intros (j' & Hin & Hj). apply list_elem_of_bind in Hin as (i' & Hin & Hi).
    apply list_elem_of_singleton in Hin as [= -> ->].
    apply elem_of_seq in Hj, Hi. lia.
  - intros [Hj Hi]. exists j. split; [| apply elem_of_seq; lia].
    apply list_elem_of_bind. exists i. split; [| apply elem_of_seq; lia].
    now apply list_elem_of_singleton.
Qed.

Lemma pixels_NoDup : NoDup (camera.pixels self).
Proof.
  unfold camera.pixels. apply NoDup_bind; [| | apply NoDup_seq].
  - intros j j' [y x] _ _ Hy Hy'.
    apply list_elem_of_bind in Hy as (i & Hy & _).
    apply list_elem_of_bind in Hy' as (i' & Hy' & _).
    apply list_elem_of_singleton in Hy, Hy'. congruence.
  - intros j _. apply NoDup_bind; [| | apply NoDup_seq].
    + intros i i' [y x] _ _ Hy Hy'.
      apply list_elem_of_singleton in Hy, Hy'. congruence.
    + intros i _. apply NoDup_singleton.
Qed.

Lemma chunks_concat (cpu_count chunk_size : nat) :
  builtins.floordiv (length (camera.pixels self)) (cpu_count * 8) = Ok chunk_size ->
  (1 <= chunk_size)%nat ->
  exists chunks,
    camera.chunks self cpu_count = Ok chunks /\ concat chunks = camera.pixels self.
Proof.
  intros Hdiv Hsize. unfold camera.chunks. rewrite Hdiv. cbn [rbind].
  destruct (range3_pieces chunk_size (length (camera.pixels self))) as (n & -> & Hn); [lia |].
  cbn [rbind]. eexists. split; [reflexivity |].
  rewrite map_map.
  etransitivity; [| apply (concat_pieces chunk_size n (camera.pixels self) Hn)].
  f_equal. apply map_ext. intros k. now rewrite slice_take_drop.
Qed.

End pixels.

(** C3. For every camera (image width and height) and every worker count,
    when the chunk size derived from them is at least 1: the chunks, in
    order, concatenate to the list of pixels; that list has no duplicate and
    holds exactly the coordinates [(j, i)] with [j < image_height] and
    [i < image_width]; and a coordinate that occurs in two chunks occurs in
    one and the same chunk. *)
Theorem chunks_partition_pixels (self : camera.Camera) (cpu_count chunk_size : nat) :
  builtins.floordiv (length (camera.pixels self)) (cpu_count * 8) = Ok chunk_size ->
  (1 <= chunk_size)%nat ->
  exists chunks,
    camera.chunks self cpu_count = Ok chunks
    /\ concat chunks = camera.pixels self
    /\ NoDup (concat chunks)
    /\ (forall j i,
          In (j, i) (concat chunks)
          <-> (Z.of_nat j < camera.image_height self)%Z
              /\ (Z.of_nat i < camera.image_width self)%Z)
    /\ (forall k k' chunk chunk' pixel,
          chunks !! k = Some chunk -> chunks !! k' = Some chunk' ->
          In pixel chunk -> In pixel chunk' -> k = k').
Proof.
  intros Hdiv Hsize.
  destruct (chunks_concat self cpu_count chunk_size Hdiv Hsize) as (chunks & Hchunks & Hconcat).
  exists chunks. split; [exact Hchunks |]. split; [exact Hconcat |].
  assert (Hnodup : NoDup (concat chunks)) by (rewrite Hconcat; apply pixels_NoDup).
  split; [exact Hnodup |]. split.
  - intros j i. rewrite Hconcat. apply pixels_In.
  - now apply concat_disjoint.
Qed.

Lemma chunks_partition_pixels_witness :
  exists chunks,
    camera.chunks sample.thumbnail 1 = Ok chunks
    /\ concat chunks = camera.pixels sample.thumbnail
    /\ NoDup (concat chunks)
    /\ (forall j i,
          In (j, i) (concat chunks)
          <-> (Z.of_nat j < camera.image_height sample.thumbnail)%Z
              /\ (Z.of_nat i < camera.image_width sample.thumbnail)%Z)
    /\ (forall k k' chunk chunk' pixel,
          chunks !! k = Some chunk -> chunks !! k' = Some chunk' ->
          In pixel chunk -> In pixel chunk' -> k = k').
Proof.
  apply (chunks_partition_pixels sample.thumbnail 1 1).
  - reflexivity.
  - lia.
Defined.

(** ** camera.py: construction with a degenerate basis *)

Section camera_init.

Variables (aspect_ratio : R) (image_width : Z) (samples_per_pixel max_depth : nat).
Variables (vfov : R) (lookfrom lookat : option vec3.Point3) (vup : option vec3.Vec3).
Variables (defocus_angle focus_dist : R).

Let eye : vec3.Vec3 := camera.or_default lookfrom (vec3.from_xyz 0 0 0).
Let target : vec3.Vec3 := camera.or_default lookat (vec3.from_xyz 0 0 (-1)).
Let up : vec3.Vec3 := camera.or_default vup (vec3.from_xyz 0 1 0).





End camera_init.





Section validators.

(** The constructors of [Sphere] and [Metal] do name what they reject. *)
Lemma Sphere_init_rejects (center : vec3.Point3) (radius : R) (m : core.Material) :
  radius <= 0 ->
  hittable.Sphere_init center radius m = Raise (ValueError "Radius can't be 0 or less").
Proof.
  intros H. unfold hittable.Sphere_init.
  destruct (Rle_dec radius 0); [reflexivity | contradiction].
Qed.

Lemma Metal_init_rejects (albedo : color.Color) (fuzz : R) :
  fuzz < 0 \/ 1 < fuzz ->
  material.Metal_init albedo fuzz = Raise (ValueError "Fuzz is out of range").
Proof.
  intros H. unfold material.Metal_init.
  destruct (ltb_reflect fuzz 0), (ltb_reflect 1 fuzz); cbn; (reflexivity || lra).
Qed.

(** The default camera of a 400-pixel-wide image is constructed: 225 rows,
    looking down the negative z axis. *)
Lemma Camera_init_default :
  exists self,
    camera.init (16 / 9) 400 10 10 90 None None None 0 10 = Ok self
    /\ camera.image_height self = 225%Z
    /\ camera.camera_center self = vec3.from_xyz 0 0 0.
Proof.
  unfold camera.init. cbn [camera.or_default].
  rewrite (truediv_eval (IZR 400) (16 / 9) 225) by lra. cbn [rbind float.int].
  rewrite (trunc_nonneg 225 225) by lra.
  change (Z.max 1 225) with 225%Z.
  rewrite truediv_ok by lra. cbn [rbind].
  rewrite (Vec3_unit_vector_eval _ (vec3.from_xyz 0 0 1) 1) by (real || vec_eq).
  cbn [rbind].
  rewrite (Vec3_unit_vector_eval _ (vec3.from_xyz 1 0 0) 1) by (real || vec_eq).
  cbn [rbind]. unfold vec3.truediv.
  rewrite !truediv_ok by lra. cbn [rbind].
  eexists. split; [reflexivity |]. split; reflexivity.
Qed.

End validators.

(** ** camera.py: the two PNG renderers *)

Section small_image.

Variables (fuel : nat) (self : camera.Camera) (world : hittable.Hittable).

(** With fewer pixels than chunks the chunk size is 0, and the [range] that
    enumerates the chunk starts is given a zero step. *)
Lemma chunks_small_image (cpu_count : nat) :
  (1 <= cpu_count)%nat ->
  (length (camera.pixels self) < cpu_count * 8)%nat ->
  camera.chunks self cpu_count = Raise (ValueError "range() arg 3 must not be zero").
Proof.
  intros Hcpu Hsmall. unfold camera.chunks, builtins.floordiv.
  destruct (Nat.eqb_spec (cpu_count * 8) 0) as [Hz | _]; [lia |].
  cbn [rbind]. rewrite Nat.div_small by assumption. reflexivity.
Qed.

Lemma save_image_to_png_small_image (cpu_count : nat) (sched : camera.schedule) :
  (0 <= camera.image_height self)%Z ->
  (0 <= camera.image_width self)%Z ->
  (1 <= cpu_count)%nat ->
  (length (camera.pixels self) < cpu_count * 8)%nat ->
  camera.save_image_to_png fuel self world cpu_count sched
  = Raise (ValueError "range() arg 3 must not be zero").
Proof.
  intros Hh Hw Hcpu Hsmall. unfold camera.save_image_to_png, np.zeros.
  destruct (Z.ltb_spec (camera.image_height self) 0); [lia |].
  destruct (Z.ltb_spec (camera.image_width self) 0); [lia |].
  cbn [orb rbind]. now rewrite chunks_small_image.
Qed.

Lemma make_color_array_black (c : color.Color) :
  color.red c = 0 -> color.green c = 0 -> color.blue c = 0 ->
  color.make_color_array c = Ok [0; 0; 0]%Z.
Proof.
  intros Hr Hg Hb. unfold color.make_color_array.
  destruct (channel_byte (color.red c)) as (r & ir & Er & Eir & _ & Sr & _).
  destruct (channel_byte (color.green c)) as (g & ig & Eg & Eig & _ & Sg & _).
  destruct (channel_byte (color.blue c)) as (b & ib & Eb & Eib & _ & Sb & _).
  rewrite Er, Eg, Eb. cbn [rbind]. cbv zeta. rewrite Eir, Eig, Eib. cbn [rbind].
  now rewrite (Sr Hr), (Sg Hg), (Sb Hb).
Qed.

(** One sample of a pixel when no bounce is allowed and the lens is a
    point: two random numbers are drawn and the colour is black. *)
Lemma accumulate_depth_zero (i j : nat) (pixel : color.Color) (st : state) :
  camera.max_depth self = 0%nat ->
  camera.defocus_angle self <= 0 ->
  camera.accumulate fuel self world i j 1 pixel st
  = Ok (pixel [+] vec3.from_xyz 0 0 0,
        mkState (heap st) (tape st) (S (S (pos st)))).
Proof.
  intros Hdepth Hlens. cbn [camera.accumulate]. rewrite Hdepth.
  unfold camera.get_ray. rewrite leb_true by assumption.
  reflexivity.
Qed.

End small_image.

Section tiny_camera.

Lemma Camera_init_tiny :
  exists self,
    camera.init (16 / 9) 2 1 0 90 None None None 0 10 = Ok self
    /\ camera.image_width self = 2%Z
    /\ camera.image_height self = 1%Z
    /\ camera.samples_per_pixel self = 1%nat
    /\ camera.max_depth self = 0%nat
    /\ camera.defocus_angle self = 0.
Proof.
  unfold camera.init. cbn [camera.or_default].
  rewrite (truediv_eval (IZR 2) (16 / 9) 1.125) by lra. cbn [rbind float.int].
  rewrite (trunc_nonneg 1.125 1) by lra.
  change (Z.max 1 1) with 1%Z.
  rewrite truediv_ok by lra. cbn [rbind].
  rewrite (Vec3_unit_vector_eval _ (vec3.from_xyz 0 0 1) 1) by (real || vec_eq).
  cbn [rbind].
  rewrite (Vec3_unit_vector_eval _ (vec3.from_xyz 1 0 0) 1) by (real || vec_eq).
  cbn [rbind]. unfold vec3.truediv.
  rewrite !truediv_ok by lra. cbn [rbind].
  eexists. split; [reflexivity |]. repeat split; reflexivity.
Qed.

Lemma serial_row_two_black (fuel : nat) (self : camera.Camera)
    (world : hittable.Hittable) (st : state) :
  camera.samples_per_pixel self = 1%nat ->
  camera.max_depth self = 0%nat ->
  camera.defocus_angle self <= 0 ->
  exists st',
    camera.serial_row fuel self world 0 [0; 1]%nat [[[0; 0; 0]; [0; 0; 0]]]%Z st
    = Ok ([[[0; 0; 0]; [0; 0; 0]]]%Z, st').
Proof.
  intros Hsamples Hdepth Hlens. cbn [camera.serial_row]. rewrite Hsamples.
  assert (Hmean : vec3.truediv (vec3.from_xyz 0 0 0 [+] vec3.from_xyz 0 0 0) (INR 1)
                  = Ok (vec3.from_xyz 0 0 0)).
  { apply Vec3_truediv_eval; [cbn; lra | vec_eq]. }
  rewrite (bind_Ok _ _ _ _ _ (accumulate_depth_zero fuel self world _ _ _ _ Hdepth Hlens)).
  rewrite (bind_Ok _ _ _ _ _ (lift_Ok _ _ _ Hmean)).
  rewrite (bind_Ok _ _ _ _ [0; 0; 0]%Z)
    by (apply lift_Ok, make_color_array_black; reflexivity).
  rewrite (bind_Ok _ _ _ _ [[[0; 0; 0]; [0; 0; 0]]]%Z) by reflexivity.
  rewrite (bind_Ok _ _ _ _ _ (accumulate_depth_zero fuel self world _ _ _ _ Hdepth Hlens)).
  rewrite (bind_Ok _ _ _ _ _ (lift_Ok _ _ _ Hmean)).
  rewrite (bind_Ok _ _ _ _ [0; 0; 0]%Z)
    by (apply lift_Ok, make_color_array_black; reflexivity).
  rewrite (bind_Ok _ _ _ _ [[[0; 0; 0]; [0; 0; 0]]]%Z) by reflexivity.
  eexists. reflexivity.
Qed.

End tiny_camera.

(** C2, failing input. The camera [Camera(image_width=2,
    samples_per_pixel=1, max_depth=0)] is constructed (a 2 x 1 image); with
    any number of cores the chunked renderer asks for chunks of
    [2 // (cpu_count * 8) = 0] pixels and raises [ValueError] for every
    scene and every schedule of the pool, while the serial renderer returns
    the 2 x 1 array of black pixels. *)
Theorem parallel_render_raises_on_small_image :
  exists self,
    camera.init (16 / 9) 2 1 0 90 None None None 0 10 = Ok self
    /\ (forall fuel world cpu_count sched,
          (1 <= cpu_count)%nat ->
          camera.save_image_to_png fuel self world cpu_count sched
          = Raise (ValueError "range() arg 3 must not be zero"))
    /\ (forall fuel world st,
          exists st',
            camera._save_image_to_png fuel self world st
            = Ok ([[[0; 0; 0]; [0; 0; 0]]]%Z, st')).
Proof.
  destruct Camera_init_tiny as (self & Hinit & Hw & Hh & Hsamples & Hdepth & Hlens).
  exists self. split; [exact Hinit |]. split.
  - intros fuel world cpu_count sched Hcpu.
    apply save_image_to_png_small_image; try lia.
    unfold camera.pixels. rewrite Hw, Hh.
    change (length _) with 2%nat. lia.
  - intros fuel world st. unfold camera._save_image_to_png, np.zeros.
    rewrite Hw, Hh. cbn [Z.ltb Z.compare orb].
    rewrite (bind_Ok _ _ st st [[[0; 0; 0]; [0; 0; 0]]]%Z) by reflexivity.
    change (builtins.range 1) with [0%nat]. cbn [camera.serial_rows].
    rewrite Hw. change (builtins.range 2) with [0; 1]%nat.
    destruct (serial_row_two_black fuel self world st Hsamples Hdepth) as (st' & Hrow);
      [lra |].
    exists st'. now rewrite (bind_Ok _ _ _ _ _ Hrow).
Qed.

(** *** Writes into the array *)

Section writes.

Lemma setitem_Ok (a : np.ndarray) (j i : nat) (v : list Z) (row : list (list Z)) :
  a !! j = Some row -> (i < length row)%nat ->
  np.setitem a j i v = Ok (<[j := <[i := v]> row]> a).
Proof.
  intros Hrow Hi. unfold np.setitem. rewrite Hrow.
  destruct (Nat.ltb_spec i (length row)); [reflexivity | lia].
Qed.

Lemma setitem_Ok_inv (a a' : np.ndarray) (j i : nat) (v : list Z) :
  np.setitem a j i v = Ok a' ->
  exists row, a !! j = Some row /\ (i < length row)%nat
              /\ a' = <[j := <[i := v]> row]> a.
Proof.
  unfold np.setitem. destruct (a !! j) as [row |]; [| discriminate].
  destruct (Nat.ltb_spec i (length row)); [| discriminate].
  intros [= <-]. eauto.
Qed.

Lemma setitem_shape (a a' : np.ndarray) (j i : nat) (v : list Z) (height width : nat) :
  spec.shape a height width -> np.setitem a j i v = Ok a' -> spec.shape a' height width.
Proof.
  intros [Hlen Hrows] H. apply setitem_Ok_inv in H as (row & Hrow & Hi & ->).
  unfold spec.shape. split; [now rewrite length_insert |].
  apply Forall_insert; [assumption |]. cbn beta.
  rewrite length_insert. rewrite Forall_lookup in Hrows. exact (Hrows _ _ Hrow).
Qed.

Lemma setitem_in_shape (a : np.ndarray) (j i : nat) (v : list Z) (height width : nat) :
  spec.shape a height width -> (j < height)%nat -> (i < width)%nat ->
  exists a', np.setitem a j i v = Ok a'.
Proof.
  intros [Hlen Hrows] Hj Hi.
  destruct (lookup_lt_is_Some_2 a j) as [row Hrow]; [lia |].
  rewrite Forall_lookup in Hrows. pose proof (Hrows _ _ Hrow) as Hwidth.
  eexists. apply setitem_Ok with (1 := Hrow). lia.
Qed.

(** Two writes at different coordinates commute, failures included. *)
Lemma setitem_comm (a : np.ndarray) (j i j' i' : nat) (v v' : list Z) :
  (j, i) <> (j', i') ->
  (let? a1 := np.setitem a j i v in np.setitem a1 j' i' v')
  = (let? a1 := np.setitem a j' i' v' in np.setitem a1 j i v).
Proof.
  intros Hne. unfold np.setitem.
  destruct (decide (j = j')) as [<- | Hj].
  - assert (Hi : i <> i') by congruence.
    destruct (a !! j) as [row |] eqn:Hrow; [| reflexivity].
    pose proof (lookup_lt_Some _ _ _ Hrow) as Hlt.
    destruct (Nat.ltb_spec i (length row)) as [Hin | Hout],
             (Nat.ltb_spec i' (length row)) as [Hin' | Hout']; cbn [rbind];
      rewrite ?list_lookup_insert_eq by assumption;
      rewrite ?length_insert.
    + destruct (Nat.ltb_spec i (length row)); [| lia].
      destruct (Nat.ltb_spec i' (length row)); [| lia].
      rewrite !list_insert_insert_eq. do 2 f_equal.
      now apply list_insert_insert_ne.
    + destruct (Nat.ltb_spec i' (length row)); [lia | reflexivity].
    + destruct (Nat.ltb_spec i (length row)); [lia | reflexivity].
    + reflexivity.
  - destruct (a !! j) as [row |] eqn:Hrow, (a !! j') as [row' |] eqn:Hrow';
      try reflexivity.
    + destruct (Nat.ltb_spec i (length row)) as [Hin | Hout],
               (Nat.ltb_spec i' (length row')) as [Hin' | Hout']; cbn [rbind];
        rewrite ?list_lookup_insert_ne by congruence; rewrite ?Hrow, ?Hrow'.
      * destruct (Nat.ltb_spec i (length row)); [| lia].
        destruct (Nat.ltb_spec i' (length row')); [| lia].
        f_equal. now apply list_insert_insert_ne.
      * destruct (Nat.ltb_spec i' (length row')); [lia | reflexivity].
      * destruct (Nat.ltb_spec i (length row)); [lia | reflexivity].
      * reflexivity.
    + destruct (Nat.ltb_spec i (length row)); cbn [rbind]; [| reflexivity].
      rewrite list_lookup_insert_ne by congruence. now rewrite Hrow'.
    + destruct (Nat.ltb_spec i' (length row')); cbn [rbind]; [| reflexivity].
      rewrite list_lookup_insert_ne by congruence. now rewrite Hrow.
Qed.

Lemma merge_chunk_app (ws ws' : list ((nat * nat) * list Z)) (a : np.ndarray) :
  camera.merge_chunk (ws ++ ws') a
  = (let? a1 := camera.merge_chunk ws a in camera.merge_chunk ws' a1).
Proof.
  revert a. induction ws as [| [[j i] v] ws IH]; intros a; [reflexivity |].
  cbn [app camera.merge_chunk]. destruct (np.setitem a j i v); cbn [rbind]; auto.
Qed.

Lemma merge_concat (results : list (list ((nat * nat) * list Z))) (a : np.ndarray) :
  camera.merge results a = camera.merge_chunk (concat results) a.
Proof.
  revert a. induction results as [| ws results IH]; intros a; [reflexivity |].
  cbn [camera.merge concat]. rewrite merge_chunk_app.
  destruct (camera.merge_chunk ws a); cbn [rbind]; auto.
Qed.

(** The order of writes at pairwise different coordinates does not matter. *)
Lemma merge_chunk_Permutation (ws ws' : list ((nat * nat) * list Z)) :
  Permutation ws ws' ->
  NoDup (map fst ws) ->
  forall a, camera.merge_chunk ws a = camera.merge_chunk ws' a.
Proof.
  induction 1 as [| [[j i] v] ws ws' Hperm IH
                 | [[j i] v] [[j' i'] v'] ws
                 | ws ws' ws'' Hperm IH Hperm' IH']; intros Hnodup a.
  - reflexivity.
  - cbn [camera.merge_chunk]. cbn [map fst] in Hnodup.
    apply NoDup_cons in Hnodup as [_ Hnodup].
    destruct (np.setitem a j i v); cbn [rbind]; auto.
  - cbn [camera.merge_chunk]. cbn [map fst] in Hnodup.
    apply NoDup_cons in Hnodup as [Hnotin _].
    assert (Hne : (j', i') <> (j, i)).
    { intros Heq. apply Hnotin. rewrite Heq. now left. }
    pose proof (setitem_comm a j' i' j i v' v Hne) as Hcomm.
    destruct (np.setitem a j i v) as [a1 | e | |],
             (np.setitem a j' i' v') as [a2 | e' | |]; cbn [rbind] in *;
      try rewrite Hcomm; try rewrite <- Hcomm; try reflexivity;
      try (destruct (np.setitem a1 j' i' v'); cbn [rbind]; congruence);
      try (destruct (np.setitem a2 j i v); cbn [rbind]; congruence).
  - rewrite IH by assumption. apply IH'.
    eapply NoDup_Permutation_proper; [| exact Hnodup].
    symmetry. now apply Permutation_map.
Qed.

Lemma merge_chunk_in_shape (shade : nat * nat -> list Z) (pixels : list (nat * nat))
    (a : np.ndarray) (height width : nat) :
  spec.shape a height width ->
  Forall (fun pixel => (fst pixel < height)%nat /\ (snd pixel < width)%nat) pixels ->
  exists a', camera.merge_chunk (spec.shaded shade pixels) a = Ok a'.
Proof.
  intros Hshape Hpixels. revert a Hshape.
  induction Hpixels as [| [j i] pixels [Hj Hi] _ IH]; intros a Hshape.
  - now exists a.
  - cbn [spec.shaded map camera.merge_chunk].
    destruct (setitem_in_shape a j i (shade (j, i)) height width Hshape Hj Hi) as [a1 Ha1].
    rewrite Ha1. cbn [rbind]. apply IH. eapply setitem_shape; eassumption.
Qed.

Lemma zeros_shape (height width : Z) :
  (0 <= height)%Z -> (0 <= width)%Z ->
  exists a, np.zeros height width = Ok a
            /\ spec.shape a (Z.to_nat height) (Z.to_nat width).
Proof.
  intros Hh Hw. unfold np.zeros.
  destruct (Z.ltb_spec height 0); [lia |]. destruct (Z.ltb_spec width 0); [lia |].
  eexists. split; [reflexivity |]. unfold spec.shape. split.
  - apply length_replicate.
  - apply Forall_replicate. apply length_replicate.
Qed.

End writes.

(** *** The two renderers under a per-pixel deterministic source *)

Section renderers.

Variables (fuel : nat) (self : camera.Camera) (world : hittable.Hittable).
Variable shade : nat * nat -> list Z.
Hypothesis shading : spec.deterministic_shading fuel self world shade.

Lemma process_chunk_shaded (chunk : list (nat * nat)) (st : state) :
  Forall (fun pixel => In pixel (camera.pixels self)) chunk ->
  exists st',
    camera.process_chunk fuel self chunk world st = Ok (spec.shaded shade chunk, st').
Proof.
  intros Hchunk. revert st.
  induction Hchunk as [| [j i] chunk Hpixel _ IH]; intros st.
  - exists st. reflexivity.
  - cbn [camera.process_chunk].
    destruct (shading j i st Hpixel) as (pixel & st1 & mean & rgb & Hacc & Hmean & Hrgb & Hbytes).
    rewrite (bind_Ok _ _ _ _ _ Hacc).
    rewrite (bind_Ok _ _ _ _ _ (lift_Ok _ _ _ Hmean)).
    rewrite (bind_Ok _ _ _ _ _ (lift_Ok _ _ _ Hrgb)).
    destruct (IH st1) as (st' & Hrest).
    rewrite (bind_Ok _ _ _ _ _ Hrest). rewrite Hbytes.
    exists st'. reflexivity.
Qed.

Lemma imap_unordered_shaded (chunks : list (list (nat * nat)))
    (sched : camera.schedule) (arrivals : list nat) :
  Forall (Forall (fun pixel => In pixel (camera.pixels self))) chunks ->
  Forall (fun k => (k < length chunks)%nat) arrivals ->
  camera.imap_unordered (fun chunk => camera.process_chunk fuel self chunk world)
    chunks sched arrivals
  = Ok (map (fun k => spec.shaded shade (chunks !!! k)) arrivals).
Proof.
  intros Hchunks Harrivals.
  induction Harrivals as [| k arrivals Hk _ IH]; [reflexivity |].
  cbn [camera.imap_unordered map].
  destruct (lookup_lt_is_Some_2 chunks k Hk) as [chunk Hchunk].
  rewrite Hchunk. rewrite (list_lookup_total_correct _ _ _ Hchunk).
  rewrite Forall_lookup in Hchunks.
  destruct (process_chunk_shaded chunk (camera.worker sched k) (Hchunks _ _ Hchunk))
    as (st' & ->).
  cbn [rbind fst]. now rewrite IH.
Qed.

Lemma serial_row_shaded (j : nat) (columns : list nat) (a a' : list (list (list Z)))
    (st : state) :
  Forall (fun i => In (j, i) (camera.pixels self)) columns ->
  camera.merge_chunk (spec.shaded shade (map (fun i => (j, i)) columns)) a = Ok a' ->
  exists st', camera.serial_row fuel self world j columns a st = Ok (a', st').
Proof.
  intros Hcolumns. revert a st.
  induction Hcolumns as [| i columns Hpixel _ IH]; intros a st Hmerge.
  - injection Hmerge as <-. exists st. reflexivity.
  - cbn [map spec.shaded camera.merge_chunk] in Hmerge.
    apply rbind_Ok_inv in Hmerge as (a1 & Hwrite & Hmerge).
    cbn [camera.serial_row].
    destruct (shading j i st Hpixel) as (pixel & st1 & mean & rgb & Hacc & Hmean & Hrgb & Hbytes).
    rewrite (bind_Ok _ _ _ _ _ Hacc).
    rewrite (bind_Ok _ _ _ _ _ (lift_Ok _ _ _ Hmean)).
    rewrite (bind_Ok _ _ _ _ _ (lift_Ok _ _ _ Hrgb)).
    rewrite Hbytes. rewrite (bind_Ok _ _ _ _ _ (lift_Ok _ _ _ Hwrite)).
    now apply IH.
Qed.

Lemma bind_singleton_pairs (j : nat) (columns : list nat) :
  (columns ≫= fun i => [(j, i)]) = map (fun i => (j, i)) columns.
Proof. induction columns as [| i columns IH]; [reflexivity |]. cbn. now f_equal. Qed.

Lemma serial_rows_shaded (rows : list nat) (a a' : list (list (list Z))) (st : state) :
  Forall (fun j => Forall (fun i => In (j, i) (camera.pixels self))
                     (builtins.range (camera.image_width self))) rows ->
  camera.merge_chunk
    (spec.shaded shade
       (rows ≫= fun j => builtins.range (camera.image_width self) ≫= fun i => [(j, i)]))
    a = Ok a' ->
  exists st', camera.serial_rows fuel self world rows a st = Ok (a', st').
Proof.
  intros Hrows. revert a st.
  induction Hrows as [| j rows Hrow _ IH]; intros a st Hmerge.
  - injection Hmerge as <-. exists st. reflexivity.
  - cbn [mbind list_bind] in Hmerge. unfold spec.shaded in Hmerge.
    rewrite map_app, merge_chunk_app in Hmerge.
    apply rbind_Ok_inv in Hmerge as (a1 & Hfirst & Hmerge).
    change (list_bind ?f ?l) with (l ≫= f) in Hfirst.
    rewrite bind_singleton_pairs in Hfirst.
    destruct (serial_row_shaded j _ a a1 st Hrow Hfirst) as (st1 & Hserial).
    cbn [camera.serial_rows]. rewrite (bind_Ok _ _ _ _ _ Hserial).
    now apply IH.
Qed.

Lemma concat_shaded (chunks : list (list (nat * nat))) :
  concat (map (spec.shaded shade) chunks) = spec.shaded shade (concat chunks).
Proof.
  induction chunks as [| chunk chunks IH]; [reflexivity |].
  cbn [map concat]. unfold spec.shaded in *. now rewrite map_app, IH.
Qed.

Lemma Permutation_concat {A : Type} (pieces pieces' : list (list A)) :
  Permutation pieces pieces' -> Permutation (concat pieces) (concat pieces').
Proof.
  induction 1 as [| piece pieces pieces' _ IH | piece piece' pieces | ? ? ? _ IH _ IH'].
  - reflexivity.
  - cbn [concat]. now apply Permutation_app_head.
  - cbn [concat]. rewrite !app_assoc. apply Permutation_app_tail, Permutation_app_comm.
  - now transitivity (concat l').
Qed.

Lemma map_lookup_total_seq {A : Type} `{Inhabited A} (l : list A) :
  map (fun k => l !!! k) (seq 0 (length l)) = l.
Proof.
  apply list_eq. intros k. rewrite list_lookup_fmap.
  destruct (decide (k < length l)%nat) as [Hk | Hk].
  - rewrite lookup_seq_lt by assumption. cbn.
    destruct (lookup_lt_is_Some_2 l k Hk) as [x Hx].
    now rewrite Hx, (list_lookup_total_correct _ _ _ Hx).
  - rewrite lookup_seq_ge by lia. cbn. symmetry. apply lookup_ge_None. lia.
Qed.

(** The writes of the chunks, in the order in which the chunks arrive, are
    a rearrangement of the writes of all pixels in raster order. *)
Lemma arrivals_Permutation (chunks : list (list (nat * nat))) (arrivals : list nat) :
  Permutation arrivals (seq 0 (length chunks)) ->
  Permutation (concat (map (fun k => spec.shaded shade (chunks !!! k)) arrivals))
    (spec.shaded shade (concat chunks)).
Proof.
  intros Hperm. rewrite <- concat_shaded. apply Permutation_concat.
  replace (map (spec.shaded shade) chunks)
    with (map (fun k => spec.shaded shade (chunks !!! k)) (seq 0 (length chunks))).
  - now apply Permutation_map.
  - rewrite <- (map_map (fun k => chunks !!! k) (spec.shaded shade)).
    now rewrite map_lookup_total_seq.
Qed.

(** Away from the zero chunk size: when the source is deterministic per
    pixel and the chunk size is at least 1, the chunked renderer, whatever
    the states of the workers and the order in which the chunks complete,
    returns the array the serial renderer returns. *)
Lemma save_image_to_png_serial (cpu_count chunk_size : nat)
    (sched : camera.schedule) (st : state) :
  (0 <= camera.image_height self)%Z ->
  (0 <= camera.image_width self)%Z ->
  builtins.floordiv (length (camera.pixels self)) (cpu_count * 8) = Ok chunk_size ->
  (1 <= chunk_size)%nat ->
  (forall chunks,
      camera.chunks self cpu_count = Ok chunks ->
      Permutation (camera.completion sched) (seq 0 (length chunks))) ->
  exists color_array st',
    camera._save_image_to_png fuel self world st = Ok (color_array, st')
    /\ camera.save_image_to_png fuel self world cpu_count sched = Ok color_array.
Proof.
  intros Hh Hw Hdiv Hsize Hsched.
  destruct (zeros_shape _ _ Hh Hw) as (blank & Hblank & Hshape).
  destruct (chunks_concat self cpu_count chunk_size Hdiv Hsize) as (chunks & Hchunks & Hconcat).
  specialize (Hsched chunks Hchunks).
  assert (Hinside : Forall (fun pixel => (fst pixel < Z.to_nat (camera.image_height self))%nat
                                        /\ (snd pixel < Z.to_nat (camera.image_width self))%nat)
                      (camera.pixels self)).
  { apply Forall_forall. intros [j i] Hin. apply list_elem_of_In, pixels_In in Hin. cbn. lia. }
  destruct (merge_chunk_in_shape shade _ blank _ _ Hshape Hinside) as (color_array & Hmerge).
  exists color_array.
  (* the serial renderer *)
  assert (Hserial : exists st',
             camera._save_image_to_png fuel self world st = Ok (color_array, st')).
  { unfold camera._save_image_to_png.
    rewrite (bind_Ok _ _ _ _ _ (lift_Ok _ _ _ Hblank)).
    apply serial_rows_shaded; [| exact Hmerge].
    apply Forall_forall. intros j Hj. apply Forall_forall. intros i Hi.
    apply pixels_In. unfold builtins.range in *.
    apply elem_of_seq in Hj, Hi. lia. }
  destruct Hserial as (st' & Hserial). exists st'. split; [exact Hserial |].
  (* the chunked renderer *)
  unfold camera.save_image_to_png. rewrite Hblank, Hchunks. cbn [rbind].
  rewrite imap_unordered_shaded; cbn [rbind].
  - rewrite merge_concat, <- Hmerge.
    pose proof (arrivals_Permutation chunks (camera.completion sched) Hsched) as Hwrites.
    rewrite Hconcat in Hwrites.
    apply merge_chunk_Permutation; [exact Hwrites |].
    eapply NoDup_Permutation_proper; [apply Permutation_map, Hwrites |].
    unfold spec.shaded. rewrite map_map. cbn [fst]. rewrite map_id.
    apply pixels_NoDup.
  - apply Forall_forall. intros chunk Hchunk. apply Forall_forall. intros pixel Hpixel.
    apply list_elem_of_In. rewrite <- Hconcat. apply list_elem_of_In, in_concat.
    exists chunk. split; apply list_elem_of_In; assumption.
  - apply Forall_forall. intros k Hk.
    rewrite Hsched in Hk. apply elem_of_seq in Hk. lia.
Qed.

End renderers.

Section renderers_example.

Lemma depth_zero_shading (fuel : nat) (self : camera.Camera) (world : hittable.Hittable) :
  camera.samples_per_pixel self = 1%nat ->
  camera.max_depth self = 0%nat ->
  camera.defocus_angle self <= 0 ->
  spec.deterministic_shading fuel self world (fun _ => [0; 0; 0]%Z).
Proof.
  intros Hsamples Hdepth Hlens j i st _. rewrite Hsamples.
  eexists _, _, (vec3.from_xyz 0 0 0), [0; 0; 0]%Z.
  split; [now apply accumulate_depth_zero |].
  split; [apply Vec3_truediv_eval; [cbn; lra | vec_eq] |].
  split; [apply make_color_array_black; reflexivity | reflexivity].
Qed.

(** The 4 x 2 thumbnail on one core: eight chunks of one pixel, completing
    in reverse order on workers in arbitrary states. *)
Lemma save_image_to_png_thumbnail
    (fuel : nat) (world : hittable.Hittable) (worker : nat -> state) (st : state) :
  exists color_array st',
    camera._save_image_to_png fuel sample.thumbnail world st = Ok (color_array, st')
    /\ camera.save_image_to_png fuel sample.thumbnail world 1
         (camera.mkSchedule [7; 6; 5; 4; 3; 2; 1; 0]%nat worker)
       = Ok color_array.
Proof.
  apply save_image_to_png_serial with (shade := fun _ => [0; 0; 0]%Z) (chunk_size := 1%nat).
  - apply depth_zero_shading; cbn; (reflexivity || lra).
  - cbn. lia.
  - cbn. lia.
  - reflexivity.
  - lia.
  - intros chunks Hchunks. lazy in Hchunks. injection Hchunks as <-.
    cbn [camera.completion length]. symmetry. apply (Permutation_rev (seq 0 8)).
Qed.

End renderers_example.

(** ** What a scene query leaves behind *)

Section store_growth.

(** [c] may allocate objects but never frees one. *)
Let grows {A : Type} (c : M A) : Prop :=
  forall st a st', c st = Ok (a, st') -> (length (heap st) <= length (heap st'))%nat.

Lemma grows_ret {A : Type} (a : A) : grows (ret a).
Proof. intros st a' st' H. run_inv H. lia. Qed.

Lemma grows_lift {A : Type} (c : result A) : grows (lift c).
Proof. intros st a st' H. run_inv H. lia. Qed.

Lemma grows_bind {A B : Type} (c : M A) (k : A -> M B) :
  grows c -> (forall a, grows (k a)) -> grows (bind c k).
Proof.
  intros Hc Hk st b st' H. run_inv H.
  apply Hc in H0. apply Hk in H. lia.
Qed.

Lemma grows_random : grows random.random.
Proof. intros st a st' [= _ <-]. cbn. lia. Qed.

Lemma grows_uniform (a b : R) : grows (random.uniform a b).
Proof. apply grows_bind; [apply grows_random | intros; apply grows_ret]. Qed.

Lemma grows_Vec3_uniform (a b : R) : grows (vec3.uniform a b).
Proof.
  repeat (apply grows_bind; [apply grows_uniform | intros]). apply grows_ret.
Qed.

Lemma grows_random_unit_vector (fuel : nat) : grows (vec3.random_unit_vector fuel).
Proof.
  induction fuel as [| fuel IH]; [intros st a st'; discriminate |].
  cbn [vec3.random_unit_vector].
  apply grows_bind; [apply grows_Vec3_uniform | intros p].
  destruct (_ && _); [apply grows_lift | apply IH].
Qed.

Lemma grows_deref (l : loc) : grows (deref l).
Proof. intros st a st' H. apply deref_Ok_inv in H as [_ ->]. lia. Qed.

Lemma grows_alloc (i : interval.Interval) :
  forall st l st', alloc i st = Ok (l, st') -> (length (heap st) < length (heap st'))%nat.
Proof. intros st l st' [= _ <-]. cbn. rewrite length_app. cbn. lia. Qed.

Lemma grows_set_max (l : loc) (v : float.xfloat) : grows (set_max l v).
Proof.
  intros st a st'. unfold set_max. destruct (heap st !! l); [| discriminate].
  intros [= _ <-]. cbn. rewrite length_insert. lia.
Qed.

Lemma grows_Sphere_hit (s : hittable.Sphere) (r : ray.Ray) (l : loc) :
  grows (hittable.Sphere_hit s r l).
Proof.
  unfold hittable.Sphere_hit. destruct (float.ltb _ 0); [apply grows_ret |].
  apply grows_bind; [apply grows_lift | intros sqrtd].
  apply grows_bind; [apply grows_lift | intros root].
  apply grows_bind; [apply grows_deref | intros range].
  destruct (negb _).
  - apply grows_bind; [apply grows_lift | intros root'].
    apply grows_bind; [apply grows_deref | intros range'].
    destruct (negb _); [apply grows_ret |].
    apply grows_bind; [apply grows_lift | intros; apply grows_ret].
  - apply grows_bind; [apply grows_lift | intros; apply grows_ret].
Qed.

Lemma grows_hit (object : hittable.Hittable) (r : ray.Ray) (l : loc) :
  grows (hittable.hit object r l).
Proof.
  revert l. induction object as [s | objects IH] using Hittable_rect_nested; intros l.
  - apply grows_Sphere_hit.
  - cbn [hittable.hit]. unfold hittable.World_hit.
    apply grows_bind.
    { apply grows_bind; [apply grows_deref |].
      intros i st a st' H. apply grows_alloc in H. lia. }
    intros curr. generalize (@None core.HitRecord).
    induction IH as [| object rest Hobject _ IHrest]; intros closest;
      cbn [hittable.World_hit_loop].
    + apply grows_ret.
    + apply grows_bind; [apply Hobject | intros [record |]].
      * apply grows_bind; [apply grows_set_max | intros _; apply IHrest].
      * apply IHrest.
Qed.

Lemma grows_scatter (fuel : nat) (m : core.Material) (r : ray.Ray)
    (hit_record : core.HitRecord) :
  grows (material.scatter fuel m r hit_record).
Proof.
  destruct m as [albedo | albedo fuzz | index]; cbn [material.scatter].
  - unfold material.Lambertian_scatter.
    apply grows_bind; [apply grows_random_unit_vector | intros; apply grows_ret].
  - unfold material.Metal_scatter.
    apply grows_bind; [apply grows_lift | intros u].
    apply grows_bind; [apply grows_random_unit_vector | intros; apply grows_ret].
  - apply grows_bind; [| intros; apply grows_ret].
    unfold material.Dielectric_scatter.
    apply grows_bind; [apply grows_lift | intros ri].
    apply grows_bind; [apply grows_lift | intros u].
    apply grows_bind; [apply grows_lift | intros sin_theta].
    apply grows_bind.
    { destruct (float.ltb _ _); [apply grows_ret |].
      apply grows_bind; [apply grows_lift | intros p].
      apply grows_bind; [apply grows_random | intros; apply grows_ret]. }
    intros reflects. apply grows_bind; [| intros; apply grows_ret].
    destruct reflects; [apply grows_ret | apply grows_lift].
Qed.

(** [ray_color] at a positive depth, past the allocation of its range. *)
Let after_allocation (fuel : nat) (ray : ray.Ray) (world : hittable.Hittable)
    (depth : nat) (t_range : loc) : M color.Color :=
  let* record := hittable.hit world ray t_range in
  match record with
  | Some record =>
      let* scatter_record :=
        material.scatter fuel (core.material record) ray record in
      match scatter_record with
      | Some scatter_record =>
          let* incoming :=
            camera.ray_color fuel (core.scattered scatter_record) world depth in
          ret (core.attenuation scatter_record [**] incoming)
      | None => ret (vec3.from_xyz 0 0 0)
      end
  | None =>
      let* unit_direction := lift (vec3.unit_vector (ray.direction ray)) in
      let a := (vec3.y unit_direction + 1) * 0.5 in
      ret ((vec3.from_xyz 1 1 1 [*] (1 - a))
             [+] (vec3.from_xyz 0.5 0.7 1 [*] a))
  end.

Lemma grows_after_allocation (fuel : nat) (world : hittable.Hittable) (depth : nat) :
  (forall ray, grows (camera.ray_color fuel ray world depth)) ->
  forall ray t_range, grows (after_allocation fuel ray world depth t_range).
Proof.
  intros IH ray t_range. unfold after_allocation.
  apply grows_bind; [apply grows_hit | intros [record |]].
  - apply grows_bind; [apply grows_scatter |].
    intros [scatter_record |]; [| apply grows_ret].
    apply grows_bind; [apply IH | intros; apply grows_ret].
  - apply grows_bind; [apply grows_lift | intros; apply grows_ret].
Qed.

Lemma grows_ray_color (fuel : nat) (world : hittable.Hittable) (depth : nat) :
  forall ray, grows (camera.ray_color fuel ray world depth).
Proof.
  induction depth as [| depth IH]; intros ray; [apply grows_ret |].
  change (camera.ray_color fuel ray world (S depth))
    with (let* t_range := alloc (interval.mkInterval 0.001 utils.infinity) in
          after_allocation fuel ray world depth t_range).
  apply grows_bind; [intros st l st' H; apply grows_alloc in H; lia |].
  now apply grows_after_allocation.
Qed.

(** Whenever [ray_color] returns at a positive depth, the range object of
    its scene query is in the store. *)
Lemma ray_color_positive_depth_allocates
    (fuel : nat) (ray : ray.Ray) (world : hittable.Hittable) (depth : nat)
    (st st' : state) (c : color.Color) :
  camera.ray_color fuel ray world (S depth) st = Ok (c, st') ->
  (length (heap st) < length (heap st'))%nat.
Proof.
  change (camera.ray_color fuel ray world (S depth))
    with (let* t_range := alloc (interval.mkInterval 0.001 utils.infinity) in
          after_allocation fuel ray world depth t_range).
  intros H. run_inv H. apply grows_alloc in H0.
  apply (grows_after_allocation fuel world depth (grows_ray_color fuel world depth)) in H.
  lia.
Qed.

End store_growth.

(** C5. For every ray, scene and state, [ray_color] called with depth 0
    returns the colour [(0, 0, 0)] and leaves the state as it found it: no
    random sample has been drawn and no range object has been allocated,
    whereas every evaluation at a positive depth that returns has allocated
    the range object of its scene query. *)
Theorem ray_color_depth_zero
    (fuel : nat) (ray : ray.Ray) (world : hittable.Hittable) (st : state) :
  camera.ray_color fuel ray world 0 st = Ok (vec3.from_xyz 0 0 0, st)
  /\ (forall depth c st',
        camera.ray_color fuel ray world (S depth) st = Ok (c, st') ->
        (length (heap st) < length (heap st'))%nat).
Proof.
  split; [reflexivity |].
  intros depth c st'. apply ray_color_positive_depth_allocates.
Qed.

(** * Further properties of the code *)

(** ** vec3.py: reflection, normalisation and the samplers *)

Section vector_facts.

Lemma dot_comm (u v : vec3.Vec3) : vec3.dot u v = vec3.dot v u.
Proof. vsimpl. ring. Qed.

Lemma dot_self (v : vec3.Vec3) : vec3.dot v v = vec3.length_squared v.
Proof. vsimpl. ring. Qed.

(** Lagrange's identity, and the Cauchy-Schwarz inequality it gives. *)
Lemma lagrange_identity (u v : vec3.Vec3) :
  vec3.length_squared u * vec3.length_squared v - vec3.dot u v * vec3.dot u v
  = vec3.length_squared (vec3.cross u v).
Proof. vsimpl. ring. Qed.

Lemma cauchy_schwarz (u v : vec3.Vec3) :
  vec3.dot u v * vec3.dot u v <= vec3.length_squared u * vec3.length_squared v.
Proof.
  pose proof (lagrange_identity u v) as H.
  pose proof (length_squared_nonneg (vec3.cross u v)). lra.
Qed.

Lemma dot_unit_bounds (u v : vec3.Vec3) :
  vec3.length_squared u = 1 -> vec3.length_squared v = 1 ->
  -1 <= vec3.dot u v <= 1.
Proof.
  intros Hu Hv. pose proof (cauchy_schwarz u v) as H. rewrite Hu, Hv in H.
  split; nra.
Qed.

Lemma length_squared_mul (v : vec3.Vec3) (k : R) :
  vec3.length_squared (v [*] k) = vec3.length_squared v * (k * k).
Proof. vsimpl. ring. Qed.

Lemma length_squared_neg (v : vec3.Vec3) :
  vec3.length_squared (vec3.neg v) = vec3.length_squared v.
Proof. vsimpl. ring. Qed.

Lemma length_squared_add (u v : vec3.Vec3) :
  vec3.length_squared (u [+] v)
  = vec3.length_squared u + 2 * vec3.dot u v + vec3.length_squared v.
Proof. vsimpl. ring. Qed.

Lemma reflect_dot (v n : vec3.Vec3) :
  vec3.length_squared n = 1 ->
  vec3.dot (vec3.reflect v n) n = - vec3.dot v n.
Proof.
  intros Hn.
  replace (vec3.dot (vec3.reflect v n) n)
    with (vec3.dot v n - 2 * vec3.dot v n * vec3.length_squared n)
    by (vsimpl; ring).
  rewrite Hn. ring.
Qed.

Lemma reflect_length_squared (v n : vec3.Vec3) :
  vec3.length_squared n = 1 ->
  vec3.length_squared (vec3.reflect v n) = vec3.length_squared v.
Proof.
  intros Hn.
  replace (vec3.length_squared (vec3.reflect v n))
    with (vec3.length_squared v
          - 4 * (vec3.dot v n * vec3.dot v n) * (1 - vec3.length_squared n))
    by (vsimpl; ring).
  rewrite Hn. ring.
Qed.

Lemma reflect_reflect (v n : vec3.Vec3) :
  vec3.length_squared n = 1 ->
  vec3.reflect (vec3.reflect v n) n = v.
Proof.
  intros Hn. pose proof (reflect_dot v n Hn) as Hdot.
  unfold vec3.reflect at 1. rewrite Hdot.
  apply Vec3_eq; vsimpl; ring.
Qed.

(** [unit_vector] on a vector that is not zero. *)
Lemma unit_vector_unit (v u : vec3.Vec3) :
  vec3.unit_vector v = Ok u ->
  vec3.length_squared u = 1
  /\ vec3.length_squared v <> 0
  /\ u [*] sqrt (vec3.length_squared v) = v.
Proof.
  intros Hu.
  destruct (Req_dec_T (vec3.length_squared v) 0) as [Hz | Hnz].
  { rewrite unit_vector_zero in Hu by assumption. discriminate. }
  rewrite unit_vector_ok in Hu by assumption. injection Hu as <-.
  pose proof (length_squared_nonneg v) as Hpos.
  pose proof (sqrt_sqrt _ Hpos) as Hsq.
  assert (Hs : sqrt (vec3.length_squared v) <> 0).
  { intros Hs. rewrite Hs in Hsq. lra. }
  split; [| split; [assumption |]].
  - rewrite length_squared_mul. rewrite <- Hsq at 1. now field.
  - apply Vec3_eq; vsimpl; now field.
Qed.

End vector_facts.

(** X1. For a normal of length 1, reflecting twice about it gives the
    vector back; one reflection keeps the length and flips the component
    along the normal. *)
Theorem reflect_is_an_involution (v n : vec3.Vec3) :
  vec3.length_squared n = 1 ->
  vec3.reflect (vec3.reflect v n) n = v
  /\ vec3.length_squared (vec3.reflect v n) = vec3.length_squared v
  /\ vec3.dot (vec3.reflect v n) n = - vec3.dot v n.
Proof.
  intros Hn. split; [now apply reflect_reflect |].
  split; [now apply reflect_length_squared | now apply reflect_dot].
Qed.

Lemma reflect_is_an_involution_witness :
  vec3.reflect (vec3.reflect (vec3.from_xyz 4 (-3) 0) (vec3.from_xyz 0 1 0))
    (vec3.from_xyz 0 1 0)
  = vec3.from_xyz 4 (-3) 0.
Proof.
  apply (reflect_is_an_involution (vec3.from_xyz 4 (-3) 0) (vec3.from_xyz 0 1 0)).
  real.
Defined.

(** X2. [unit_vector] raises [ZeroDivisionError] on the zero vector; on
    every vector whose squared length lies between [1e-300] and [1e300],
    where it neither underflows nor overflows, it returns the vector of
    length 1 that, scaled by the length of the argument, is the argument. *)
Theorem unit_vector_normalises (v : vec3.Vec3) :
  vec3.unit_vector (vec3.from_xyz 0 0 0) = Raise ZeroDivisionError
  /\ (1e-300 <= vec3.length_squared v <= 1e300 ->
      exists u, vec3.unit_vector v = Ok u
                /\ vec3.length_squared u = 1
                /\ u [*] sqrt (vec3.length_squared v) = v).
Proof.
  split.
  - apply unit_vector_zero. real.
  - intros [Hlow _].
    assert (Hnz : vec3.length_squared v <> 0) by lra.
    eexists. split; [now apply unit_vector_ok |].
    destruct (unit_vector_unit v _ (unit_vector_ok v Hnz)) as (Hone & _ & Hscale).
    split; assumption.
Qed.

Lemma unit_vector_normalises_witness :
  exists u, vec3.unit_vector (vec3.from_xyz 4 3 0) = Ok u
            /\ vec3.length_squared u = 1
            /\ u [*] sqrt (vec3.length_squared (vec3.from_xyz 4 3 0))
               = vec3.from_xyz 4 3 0.
Proof.
  apply (proj2 (unit_vector_normalises (vec3.from_xyz 4 3 0))).
  split; real.
Defined.

Section samplers.

Lemma Vec3_uniform_run (a b : R) (st : state) :
  vec3.uniform a b st
  = Ok (vec3.from_xyz (a + (b - a) * tape st (pos st))
          (a + (b - a) * tape st (S (pos st)))
          (a + (b - a) * tape st (S (S (pos st)))),
        mkState (heap st) (tape st) (S (S (S (pos st))))).
Proof. reflexivity. Qed.

Lemma random_uniform_run (a b : R) (st : state) :
  random.uniform a b st
  = Ok (a + (b - a) * tape st (pos st),
        mkState (heap st) (tape st) (S (pos st))).
Proof. reflexivity. Qed.

Lemma random_unit_vector_Ok_inv (fuel : nat) (st st' : state) (v : vec3.Vec3) :
  vec3.random_unit_vector fuel st = Ok (v, st') ->
  vec3.length_squared v = 1
  /\ heap st' = heap st
  /\ tape st' = tape st
  /\ exists k, (1 <= k <= fuel)%nat /\ pos st' = (pos st + 3 * k)%nat.
Proof.
  revert st. induction fuel as [| fuel IH]; intros st H; [discriminate |].
  cbn [vec3.random_unit_vector] in H.
  rewrite (bind_Ok _ _ _ _ _ (Vec3_uniform_run (-1) 1 st)) in H.
  set (p := vec3.from_xyz _ _ _) in H.
  destruct (ltb_reflect 1e-160 (vec3.length_squared p)) as [Hlo | Hlo]; cbn [andb] in H.
  - destruct (leb_reflect (vec3.length_squared p) 1) as [Hhi | Hhi].
    + unfold lift in H. rewrite sqrt_ok in H by lra. cbn [rbind] in H.
      unfold vec3.truediv in H.
      assert (Hs : sqrt (vec3.length_squared p) <> 0).
      { intros Hs. apply sqrt_eq_0 in Hs; lra. }
      rewrite truediv_ok in H by assumption. cbn [rbind] in H.
      injection H as <- <-. cbn [heap tape pos].
      split; [| split; [reflexivity | split; [reflexivity |]]].
      * rewrite length_squared_mul.
        assert (Hpos : 0 <= vec3.length_squared p) by lra.
        pose proof (sqrt_sqrt _ Hpos) as Hsq.
        rewrite <- Hsq at 1. now field.
      * exists 1%nat. split; lia.
    + apply IH in H as (Hunit & Hheap & Htape & k & Hk & Hpos).
      cbn [heap tape pos] in *. repeat split; try assumption.
      exists (S k). split; lia.
  - apply IH in H as (Hunit & Hheap & Htape & k & Hk & Hpos).
    cbn [heap tape pos] in *. repeat split; try assumption.
    exists (S k). split; lia.
Qed.

Lemma random_in_unit_disk_Ok_inv (fuel : nat) (st st' : state) (v : vec3.Vec3) :
  vec3.random_in_unit_disk fuel st = Ok (v, st') ->
  vec3.z v = 0
  /\ vec3.length_squared v < 1
  /\ heap st' = heap st
  /\ tape st' = tape st
  /\ exists k, (1 <= k <= fuel)%nat /\ pos st' = (pos st + 2 * k)%nat.
Proof.
  revert st. induction fuel as [| fuel IH]; intros st H; [discriminate |].
  cbn [vec3.random_in_unit_disk] in H.
  rewrite (bind_Ok _ _ _ _ _ (random_uniform_run (-1) 1 st)) in H.
  rewrite (bind_Ok _ _ _ _ _ (random_uniform_run (-1) 1 _)) in H.
  cbn [heap tape pos] in H.
  set (p := vec3.from_xyz _ _ 0) in H.
  destruct (ltb_reflect (vec3.length_squared p) 1) as [Hin | Hout].
  - apply ret_Ok_inv in H as [-> ->]. cbn [heap tape pos]. subst p. cbn [vec3.z].
    repeat split; try assumption. exists 1%nat. split; lia.
  - apply IH in H as (Hz & Hlt & Hheap & Htape & k & Hk & Hpos).
    cbn [heap tape pos] in *. repeat split; try assumption.
    exists (S k). split; lia.
Qed.

Lemma random_in_unit_disk_more_fuel (fuel extra : nat) (st st' : state) (v : vec3.Vec3) :
  vec3.random_in_unit_disk fuel st = Ok (v, st') ->
  vec3.random_in_unit_disk (fuel + extra) st = Ok (v, st').
Proof.
  revert st. induction fuel as [| fuel IH]; intros st; [discriminate |].
  cbn [vec3.random_in_unit_disk Nat.add].
  rewrite !(bind_Ok _ _ _ _ _ (random_uniform_run (-1) 1 st)).
  rewrite !(bind_Ok _ _ _ _ _ (random_uniform_run (-1) 1 _)).
  destruct (float.ltb _ 1); [trivial | apply IH].
Qed.

End samplers.

(** X3. Whenever [random_unit_vector] returns, the vector has length 1;
    the call has drawn three samples for each candidate it examined, and
    touched nothing else; and the bound on the number of candidates plays
    no part in the answer: with a larger bound the call returns the same. *)
Theorem random_unit_vector_is_unit (fuel : nat) (st st' : state) (v : vec3.Vec3) :
  vec3.random_unit_vector fuel st = Ok (v, st') ->
  (vec3.length_squared v = 1
   /\ heap st' = heap st
   /\ tape st' = tape st
   /\ exists candidates,
        (1 <= candidates <= fuel)%nat /\ pos st' = (pos st + 3 * candidates)%nat)
  /\ (forall extra, vec3.random_unit_vector (fuel + extra) st = Ok (v, st')).
Proof.
  intros H. split.
  - now apply random_unit_vector_Ok_inv.
  - intros extra. now apply random_unit_vector_more_fuel.
Qed.

Lemma random_unit_vector_is_unit_witness :
  vec3.length_squared (vec3.from_xyz 0 (-1) 0) = 1
  /\ forall extra,
       vec3.random_unit_vector (1 + extra) sample.st1
       = Ok (vec3.from_xyz 0 (-1) 0, sample.st1_after).
Proof.
  destruct (random_unit_vector_is_unit 1 sample.st1 sample.st1_after
              (vec3.from_xyz 0 (-1) 0) (random_unit_vector_st1 0))
    as ((Hunit & _) & Hfuel).
  split; assumption.
Defined.

(** X4. Whenever [random_in_unit_disk] returns, the point lies strictly
    inside the unit disk of the plane [z = 0]; the call has drawn two
    samples for each candidate it examined, and with a larger bound on the
    number of candidates it returns the same. *)
Theorem random_in_unit_disk_is_inside (fuel : nat) (st st' : state) (v : vec3.Vec3) :
  vec3.random_in_unit_disk fuel st = Ok (v, st') ->
  (vec3.z v = 0
   /\ vec3.length_squared v < 1
   /\ heap st' = heap st
   /\ tape st' = tape st
   /\ exists candidates,
        (1 <= candidates <= fuel)%nat /\ pos st' = (pos st + 2 * candidates)%nat)
  /\ (forall extra, vec3.random_in_unit_disk (fuel + extra) st = Ok (v, st')).
Proof.
  intros H. split.
  - now apply random_in_unit_disk_Ok_inv.
  - intros extra. now apply random_in_unit_disk_more_fuel.
Qed.

Section disk_example.

Lemma random_in_unit_disk_st0 :
  vec3.random_in_unit_disk 1 sample.st0
  = Ok (vec3.from_xyz (-1 + (1 - -1) * 0.5) (-1 + (1 - -1) * 0.5) 0,
        mkState [interval.mkInterval 0.001 utils.infinity] (fun _ => 0.5) 2).
Proof.
  cbn [vec3.random_in_unit_disk].
  rewrite (bind_Ok _ _ _ _ _ (random_uniform_run (-1) 1 sample.st0)).
  rewrite (bind_Ok _ _ _ _ _ (random_uniform_run (-1) 1 _)).
  cbn [heap tape pos sample.st0].
  now float_decide.
Qed.

End disk_example.

Lemma random_in_unit_disk_is_inside_witness :
  vec3.z (vec3.from_xyz (-1 + (1 - -1) * 0.5) (-1 + (1 - -1) * 0.5) 0) = 0
  /\ vec3.length_squared (vec3.from_xyz (-1 + (1 - -1) * 0.5) (-1 + (1 - -1) * 0.5) 0) < 1.
Proof.
  destruct (random_in_unit_disk_is_inside 1 sample.st0 _ _ random_in_unit_disk_st0)
    as ((Hz & Hlt & _) & _).
  split; assumption.
Defined.

(** X5. Whenever [random_on_hemisphere] returns, the vector has length 1
    and does not point against the normal it was given. *)
Theorem random_on_hemisphere_faces_normal
    (fuel : nat) (normal : vec3.Vec3) (st st' : state) (v : vec3.Vec3) :
  vec3.random_on_hemisphere fuel normal st = Ok (v, st') ->
  vec3.length_squared v = 1 /\ 0 <= vec3.dot v normal.
Proof.
  unfold vec3.random_on_hemisphere. intros H. run_inv H.
  apply random_unit_vector_Ok_inv in H0 as (Hunit & _).
  destruct (ltb_reflect 0 (vec3.dot a normal)) as [Hpos | Hneg]; run_inv H; subst v.
  - split; [assumption | lra].
  - split; [now rewrite length_squared_neg |].
    rewrite dot_comm, dot_neg_r, dot_comm. lra.
Qed.

Lemma random_on_hemisphere_faces_normal_witness :
  vec3.length_squared (vec3.neg (vec3.from_xyz 0 (-1) 0)) = 1
  /\ 0 <= vec3.dot (vec3.neg (vec3.from_xyz 0 (-1) 0)) (vec3.from_xyz 0 1 0).
Proof.
  apply (random_on_hemisphere_faces_normal 1 (vec3.from_xyz 0 1 0)
           sample.st1 sample.st1_after).
  unfold vec3.random_on_hemisphere.
  rewrite (bind_Ok _ _ _ _ _ (random_unit_vector_st1 0)).
  now float_decide.
Defined.

Section refraction.

Lemma dot_neg_l (u v : vec3.Vec3) : vec3.dot (vec3.neg u) v = - vec3.dot u v.
Proof. vsimpl. ring. Qed.

Lemma refract_perp_length (uv n : vec3.Vec3) (k ri : R) :
  vec3.length_squared ((uv [+] n [*] k) [*] ri)
  = (vec3.length_squared uv + 2 * k * vec3.dot uv n
     + k * k * vec3.length_squared n) * (ri * ri).
Proof. vsimpl. ring. Qed.

Lemma refract_perp_dot (uv n : vec3.Vec3) (k ri : R) :
  vec3.dot ((uv [+] n [*] k) [*] ri) n
  = (vec3.dot uv n + k * vec3.length_squared n) * ri.
Proof. vsimpl. ring. Qed.

Lemma refract_sum_length (p n : vec3.Vec3) (s : R) :
  vec3.length_squared (p [+] n [*] (- s))
  = vec3.length_squared p - 2 * s * vec3.dot p n
    + s * s * vec3.length_squared n.
Proof. vsimpl. ring. Qed.

Lemma refract_sum_dot (p n : vec3.Vec3) (s : R) :
  vec3.dot (p [+] n [*] (- s)) n = vec3.dot p n - s * vec3.length_squared n.
Proof. vsimpl. ring. Qed.

(** The clamp [min(dot(-uv, n), 1.0)] does nothing on unit vectors. *)
Lemma refract_cos_theta (uv n : vec3.Vec3) :
  vec3.length_squared uv = 1 -> vec3.length_squared n = 1 ->
  float.min (vec3.dot (vec3.neg uv) n) 1 = - vec3.dot uv n.
Proof.
  intros Huv Hn. pose proof (dot_unit_bounds uv n Huv Hn) as Hb.
  unfold float.min. rewrite dot_neg_l. rewrite ltb_false by lra. reflexivity.
Qed.

Lemma refract_Ok (uv n : vec3.Vec3) (ri : R) :
  exists r, vec3.refract uv n ri = Ok r.
Proof.
  unfold vec3.refract. cbv zeta.
  rewrite sqrt_ok by apply Rabs_pos. cbn [rbind]. eauto.
Qed.

Lemma refract_unit (uv n : vec3.Vec3) (ri : R) :
  vec3.length_squared uv = 1 -> vec3.length_squared n = 1 ->
  ri * ri * (1 - vec3.dot uv n * vec3.dot uv n) <= 1 ->
  exists r,
    vec3.refract uv n ri = Ok r
    /\ vec3.length_squared r = 1
    /\ vec3.dot r n
       = - sqrt (1 - ri * ri * (1 - vec3.dot uv n * vec3.dot uv n))
    /\ r [-] n [*] vec3.dot r n = (uv [-] n [*] vec3.dot uv n) [*] ri.
Proof.
  intros Huv Hn Hri.
  set (d := vec3.dot uv n) in *.
  unfold vec3.refract. cbv zeta. rewrite (refract_cos_theta uv n Huv Hn). fold d.
  set (p := (uv [+] n [*] (- d)) [*] ri).
  assert (Hp : vec3.length_squared p = ri * ri * (1 - d * d)).
  { subst p. rewrite refract_perp_length, Huv, Hn. fold d. ring. }
  assert (Hpn : vec3.dot p n = 0).
  { subst p. rewrite refract_perp_dot, Hn. fold d. ring. }
  rewrite sqrt_ok by apply Rabs_pos. cbn [rbind].
  unfold float.abs. rewrite Hp. rewrite Rabs_right by lra.
  set (s := sqrt (1 - ri * ri * (1 - d * d))).
  assert (Hs : s * s = 1 - ri * ri * (1 - d * d)) by (apply sqrt_sqrt; lra).
  eexists. split; [reflexivity |].
  assert (Hdot : vec3.dot (p [+] n [*] (- s)) n = - s).
  { rewrite refract_sum_dot, Hpn, Hn. ring. }
  split; [| split].
  - rewrite refract_sum_length, Hp, Hpn, Hn. lra.
  - exact Hdot.
  - rewrite Hdot. subst p. apply Vec3_eq; vsimpl; ring.
Qed.

End refraction.

(** X6. [refract] never raises.  For a unit direction and a unit normal,
    when Snell's law has a solution ([ri^2 * (1 - cos^2) <= 1]) the vector
    returned has length 1, points into the surface, and its component along
    the surface is [ri] times that of the incoming direction. *)
Theorem refract_obeys_snell (uv n : vec3.Vec3) (ri : R) :
  (exists r, vec3.refract uv n ri = Ok r)
  /\ (vec3.length_squared uv = 1 -> vec3.length_squared n = 1 ->
      ri * ri * (1 - vec3.dot uv n * vec3.dot uv n) <= 1 ->
      exists r,
        vec3.refract uv n ri = Ok r
        /\ vec3.length_squared r = 1
        /\ vec3.dot r n <= 0
        /\ r [-] n [*] vec3.dot r n = (uv [-] n [*] vec3.dot uv n) [*] ri).
Proof.
  split; [apply refract_Ok |].
  intros Huv Hn Hri.
  destruct (refract_unit uv n ri Huv Hn Hri) as (r & Hr & Hlen & Hdot & Hperp).
  exists r. repeat split; try assumption.
  rewrite Hdot. pose proof (sqrt_pos (1 - ri * ri * (1 - vec3.dot uv n * vec3.dot uv n))).
  lra.
Qed.

Lemma refract_obeys_snell_witness :
  exists r,
    vec3.refract (vec3.from_xyz 0.8 (-0.6) 0) (vec3.from_xyz 0 1 0) 0.75 = Ok r
    /\ vec3.length_squared r = 1
    /\ vec3.dot r (vec3.from_xyz 0 1 0) <= 0
    /\ r [-] vec3.from_xyz 0 1 0 [*] vec3.dot r (vec3.from_xyz 0 1 0)
       = (vec3.from_xyz 0.8 (-0.6) 0
          [-] vec3.from_xyz 0 1 0
              [*] vec3.dot (vec3.from_xyz 0.8 (-0.6) 0) (vec3.from_xyz 0 1 0))
         [*] 0.75.
Proof.
  apply (refract_obeys_snell (vec3.from_xyz 0.8 (-0.6) 0) (vec3.from_xyz 0 1 0) 0.75);
    real.
Defined.

(** ** interval.py *)

Section interval_facts.

Lemma xltb_irrefl (a : float.xfloat) : float.xltb a a = false.
Proof. destruct a; cbn; try reflexivity. apply ltb_false. lra. Qed.

Lemma xltb_xleb (a b : float.xfloat) : float.xltb a b = true -> float.xleb a b = true.
Proof.
  destruct a, b; cbn; try (discriminate || reflexivity).
  intros H. destruct (ltb_reflect r r0); [| discriminate]. apply leb_true. lra.
Qed.

(** On numbers, [a <= b] is [not (b < a)]. *)
Lemma xleb_not_xltb (a b : float.xfloat) :
  a <> float.nan -> b <> float.nan ->
  float.xleb a b = negb (float.xltb b a).
Proof.
  intros Ha Hb. destruct a, b; cbn; try (congruence || reflexivity).
  destruct (ltb_reflect r0 r); [apply leb_false | apply leb_true]; lra.
Qed.

Lemma xleb_refl (a : float.xfloat) : a <> float.nan -> float.xleb a a = true.
Proof. intros Ha. rewrite xleb_not_xltb by assumption. now rewrite xltb_irrefl. Qed.

Lemma clamp_contains_iff (self : interval.Interval) (x : R) :
  interval.min self <> float.nan -> interval.max self <> float.nan ->
  interval.clamp self x = float.fin x <-> interval.contains self x = true.
Proof.
  intros Hlo Hhi. unfold interval.clamp, interval.contains.
  rewrite (xleb_not_xltb (interval.min self) x) by (assumption || discriminate).
  rewrite (xleb_not_xltb x (interval.max self)) by (assumption || discriminate).
  destruct (float.xltb x (interval.min self)) eqn:Hbelow; cbn [negb andb].
  { split; [| discriminate]. intros E. rewrite E, xltb_irrefl in Hbelow. discriminate. }
  destruct (float.xltb (interval.max self) x) eqn:Habove; cbn [negb].
  { split; [| discriminate]. intros E. rewrite E, xltb_irrefl in Habove. discriminate. }
  split; reflexivity.
Qed.

Lemma xlt_xle_trans (a b c : float.xfloat) :
  float.xltb a b = true -> float.xleb b c = true -> float.xleb a c = true.
Proof.
  destruct a, b, c; cbn; try (discriminate || reflexivity).
  intros H1 H2. destruct (ltb_reflect r r0); [| discriminate].
  destruct (leb_reflect r0 r1); [| discriminate]. apply leb_true. lra.
Qed.

Lemma clamp_in_bounds (self : interval.Interval) (x : R) :
  float.xleb (interval.min self) (interval.max self) = true ->
  float.xleb (interval.min self) (interval.clamp self x) = true
  /\ float.xleb (interval.clamp self x) (interval.max self) = true.
Proof.
  intros Hle.
  assert (Hlo : interval.min self <> float.nan) by (intros E; rewrite E in Hle; discriminate).
  assert (Hhi : interval.max self <> float.nan).
  { intros E; rewrite E in Hle. destruct (interval.min self); discriminate. }
  unfold interval.clamp.
  destruct (float.xltb x (interval.min self)) eqn:Hbelow.
  { split; [now apply xleb_refl | assumption]. }
  destruct (float.xltb (interval.max self) x) eqn:Habove.
  { split; [assumption | now apply xleb_refl]. }
  rewrite (xleb_not_xltb (interval.min self) x) by (assumption || discriminate).
  rewrite (xleb_not_xltb x (interval.max self)) by (assumption || discriminate).
  now rewrite Hbelow, Habove.
Qed.

Lemma surrounds_contains (self : interval.Interval) (x : R) :
  interval.surrounds self x = true -> interval.contains self x = true.
Proof.
  unfold interval.surrounds, interval.contains.
  intros [H1 H2]%andb_prop. now rewrite (xltb_xleb _ _ H1), (xltb_xleb _ _ H2).
Qed.

Lemma surrounds_size (self : interval.Interval) :
  (exists x, interval.surrounds self x = true)
  <-> float.xltb 0 (interval.size self) = true.
Proof.
  destruct self as [lo hi]. unfold interval.surrounds, interval.size.
  cbn [interval.min interval.max].
  destruct lo as [| | a |], hi as [| | b |]; cbn;
    try (split; [intros [x H]; try discriminate H | discriminate]).
  - split; [reflexivity | intros _].
    exists (b - 1). apply ltb_true. lra.
  - split; [reflexivity | intros _]. now exists 0.
  - rewrite andb_false_r in H. discriminate.
  - rewrite andb_false_r in H. discriminate.
  - split.
    + intros [x [H1 H2]%andb_prop].
      destruct (ltb_reflect a x); [| discriminate].
      destruct (ltb_reflect x b); [| discriminate]. apply ltb_true. lra.
    + intros H. destruct (ltb_reflect 0 (b - a)); [| discriminate].
      exists ((a + b) / 2). rewrite !ltb_true by lra. reflexivity.
  - split; [reflexivity | intros _]. exists (a + 1).
    rewrite ltb_true by lra. reflexivity.
Qed.

End interval_facts.

(** X7. On an interval whose bounds are numbers, [clamp] returns its
    argument exactly when the interval contains it; when moreover
    [min <= max], the value returned always lies within the bounds. *)
Theorem clamp_is_a_projection (self : interval.Interval) (x : R) :
  interval.min self <> float.nan -> interval.max self <> float.nan ->
  (interval.clamp self x = float.fin x <-> interval.contains self x = true)
  /\ (float.xleb (interval.min self) (interval.max self) = true ->
      float.xleb (interval.min self) (interval.clamp self x) = true
      /\ float.xleb (interval.clamp self x) (interval.max self) = true).
Proof.
  intros Hlo Hhi. split;
    [now apply clamp_contains_iff | apply clamp_in_bounds].
Qed.

Lemma clamp_is_a_projection_witness :
  (interval.clamp (interval.mkInterval 0 0.999) 2 = float.fin 2
   <-> interval.contains (interval.mkInterval 0 0.999) 2 = true)
  /\ (float.xleb 0 0.999 = true ->
      float.xleb 0 (interval.clamp (interval.mkInterval 0 0.999) 2) = true
      /\ float.xleb (interval.clamp (interval.mkInterval 0 0.999) 2) 0.999 = true).
Proof.
  apply (clamp_is_a_projection (interval.mkInterval 0 0.999) 2); discriminate.
Defined.

(** X8. What an interval surrounds it also contains, and an interval
    surrounds some number exactly when its [size] is positive: the default
    interval does, an interval with [max <= min] or with a bound that is
    not a number surrounds nothing. *)
Theorem surrounds_needs_positive_size (self : interval.Interval) :
  (forall x, interval.surrounds self x = true -> interval.contains self x = true)
  /\ ((exists x, interval.surrounds self x = true)
      <-> float.xltb 0 (interval.size self) = true).
Proof.
  split; [intros x; apply surrounds_contains | apply surrounds_size].
Qed.

(** ** hittable.py: what a hit record says *)

Section record_geometry.

Variables (s : hittable.Sphere) (r : ray.Ray).





End record_geometry.

Section scene_facts.

Lemma closest_among_subset (A B : hittable.Sphere -> Prop) (r : ray.Ray)
    (range : interval.Interval) (o o' : option core.HitRecord) :
  (forall s, A s -> B s) ->
  spec.closest_among A r range o ->
  spec.closest_among B r range o' ->
  forall record, o = Some record ->
    exists record', o' = Some record' /\ core.t record' <= core.t record.
Proof.
  intros HAB HA HB record ->. cbn in HA.
  destruct HA as (Hsur & (s & Hs & Hon & _) & _).
  destruct o' as [record' |]; cbn in HB.
  - exists record'. split; [reflexivity |].
    destruct HB as (_ & _ & Hmin). apply (Hmin s); [apply HAB | |]; assumption.
  - specialize (HB s _ (HAB _ Hs) Hon). congruence.
Qed.

Lemma closest_among_same_t (A B : hittable.Sphere -> Prop) (r : ray.Ray)
    (range : interval.Interval) (o o' : option core.HitRecord) :
  (forall s, A s <-> B s) ->
  spec.closest_among A r range o ->
  spec.closest_among B r range o' ->
  option_map core.t o = option_map core.t o'.
Proof.
  intros HAB HA HB.
  pose proof (closest_among_subset A B r range o o' (fun s => proj1 (HAB s)) HA HB) as H1.
  pose proof (closest_among_subset B A r range o' o (fun s => proj2 (HAB s)) HB HA) as H2.
  destruct o as [record |], o' as [record' |]; cbn.
  - destruct (H1 _ eq_refl) as (x & [= <-] & Hle1).
    destruct (H2 _ eq_refl) as (y & [= <-] & Hle2).
    f_equal. lra.
  - destruct (H1 _ eq_refl) as (x & [=] & _).
  - destruct (H2 _ eq_refl) as (x & [=] & _).
  - reflexivity.
Qed.


End scene_facts.





(** X11. The parameter of the hit that [hit] returns depends only on which
    spheres the scene holds: when two scenes with the same spheres, added
    in another order or grouped in nested worlds, both answer a query, they
    answer with the same [t] (or both with [None]).  Both do answer when
    the squared length of the direction of the ray is at least [1e-300]. *)
Theorem hit_depends_on_the_spheres_only (world world' : hittable.Hittable)
    (r : ray.Ray) (t_range : loc) (st : state) (range : interval.Interval) :
  (forall s, spec.primitive s world <-> spec.primitive s world') ->
  heap st !! t_range = Some range ->
  (forall outcome outcome' st1 st2,
      hittable.hit world r t_range st = Ok (outcome, st1) ->
      hittable.hit world' r t_range st = Ok (outcome', st2) ->
      option_map core.t outcome = option_map core.t outcome')
  /\ (1e-300 <= vec3.length_squared (ray.direction r) ->
      exists outcome outcome' st1 st2,
        hittable.hit world r t_range st = Ok (outcome, st1)
        /\ hittable.hit world' r t_range st = Ok (outcome', st2)).
Proof.
  intros Hsame Hrange. split.
  - intros o o' st1 st2 Hrun Hrun'.
    destruct (hit_Ok_contract _ _ _ _ _ _ _ Hrange Hrun) as [Hclosest _].
    destruct (hit_Ok_contract _ _ _ _ _ _ _ Hrange Hrun') as [Hclosest' _].
    exact (closest_among_same_t _ _ r range o o' Hsame Hclosest Hclosest').
  - intros Hlow.
    assert (Hdir : vec3.length_squared (ray.direction r) <> 0) by lra.
    destruct (hit_contract_all world r t_range st range Hrange Hdir)
      as (o & st1 & Hrun & _).
    destruct (hit_contract_all world' r t_range st range Hrange Hdir)
      as (o' & st2 & Hrun' & _).
    exists o, o', st1, st2. split; assumption.
Qed.

Lemma hit_depends_on_the_spheres_only_witness :
  exists outcome outcome' st1 st2,
    hittable.hit (hittable.AWorld [hittable.ASphere sample.far_ball;
                                   hittable.ASphere sample.ball])
      sample.probe 0%nat sample.st0 = Ok (outcome, st1)
    /\ hittable.hit (hittable.AWorld [hittable.AWorld [hittable.ASphere sample.ball];
                                      hittable.ASphere sample.far_ball])
         sample.probe 0%nat sample.st0 = Ok (outcome', st2)
    /\ option_map core.t outcome = option_map core.t outcome'.
Proof.
  destruct (hit_depends_on_the_spheres_only
              (hittable.AWorld [hittable.ASphere sample.far_ball;
                                hittable.ASphere sample.ball])
              (hittable.AWorld [hittable.AWorld [hittable.ASphere sample.ball];
                                hittable.ASphere sample.far_ball])
              sample.probe 0%nat sample.st0
              (interval.mkInterval 0.001 utils.infinity))
    as [Hequal Hreturn].
  - intros s. rewrite !primitive_world_iff. split.
    + intros (object & [<- | [<- | []]] & Hs).
      * exists (hittable.ASphere sample.far_ball). split; [right; left; reflexivity | assumption].
      * exists (hittable.AWorld [hittable.ASphere sample.ball]).
        split; [left; reflexivity |]. apply primitive_world_iff.
        exists (hittable.ASphere sample.ball). split; [left; reflexivity | assumption].
    + intros (object & [<- | [<- | []]] & Hs).
      * apply primitive_world_iff in Hs as (object & [<- | []] & Hs).
        exists (hittable.ASphere sample.ball). split; [right; left; reflexivity | assumption].
      * exists (hittable.ASphere sample.far_ball). split; [left; reflexivity | assumption].
  - reflexivity.
  - destruct Hreturn as (o & o' & st1 & st2 & Hrun & Hrun'); [real |].
    exists o, o', st1, st2. split; [exact Hrun |]. split; [exact Hrun' |].
    exact (Hequal o o' st1 st2 Hrun Hrun').
Defined.

(** X12. [World.add] can only bring the hit closer: when a scene answers a
    query with a record, and answers it again after an object was added,
    the second answer is a record too, at the same or a smaller [t].  Both
    queries are answered when the squared length of the direction of the
    ray is at least [1e-300]. *)
Theorem World_add_brings_the_hit_closer (objects : list hittable.Hittable)
    (object : hittable.Hittable) (r : ray.Ray) (t_range : loc) (st : state)
    (range : interval.Interval) :
  heap st !! t_range = Some range ->
  (forall record outcome' st1 st2,
      hittable.hit (hittable.AWorld objects) r t_range st = Ok (Some record, st1) ->
      hittable.hit (hittable.AWorld (hittable.add objects object)) r t_range st
      = Ok (outcome', st2) ->
      exists record', outcome' = Some record' /\ core.t record' <= core.t record)
  /\ (1e-300 <= vec3.length_squared (ray.direction r) ->
      exists outcome outcome' st1 st2,
        hittable.hit (hittable.AWorld objects) r t_range st = Ok (outcome, st1)
        /\ hittable.hit (hittable.AWorld (hittable.add objects object)) r t_range st
           = Ok (outcome', st2)).
Proof.
  intros Hrange. split.
  - intros record o' st1 st2 Hrun Hrun'.
    destruct (hit_Ok_contract _ _ _ _ _ _ _ Hrange Hrun) as [Hclosest _].
    destruct (hit_Ok_contract _ _ _ _ _ _ _ Hrange Hrun') as [Hclosest' _].
    apply (closest_among_subset
             (fun s => spec.primitive s (hittable.AWorld objects))
             (fun s => spec.primitive s (hittable.AWorld (hittable.add objects object)))
             r range (Some record) o'); try assumption; [| reflexivity].
    intros s. rewrite !primitive_world_iff. intros (x & Hx & Hs).
    exists x. split; [| assumption]. unfold hittable.add. apply in_or_app. now left.
  - intros Hlow.
    assert (Hdir : vec3.length_squared (ray.direction r) <> 0) by lra.
    destruct (hit_contract_all (hittable.AWorld objects) r t_range st range Hrange Hdir)
      as (o & st1 & Hrun & _).
    destruct (hit_contract_all (hittable.AWorld (hittable.add objects object))
                r t_range st range Hrange Hdir)
      as (o' & st2 & Hrun' & _).
    exists o, o', st1, st2. split; assumption.
Qed.

Lemma World_add_brings_the_hit_closer_witness :
  exists outcome outcome' st1 st2,
    hittable.hit (hittable.AWorld [hittable.ASphere sample.far_ball])
      sample.probe 0%nat sample.st0 = Ok (outcome, st1)
    /\ hittable.hit
         (hittable.AWorld (hittable.add [hittable.ASphere sample.far_ball]
                             (hittable.ASphere sample.ball)))
         sample.probe 0%nat sample.st0 = Ok (outcome', st2)
    /\ forall record, outcome = Some record ->
         exists record', outcome' = Some record' /\ core.t record' <= core.t record.
Proof.
  destruct (World_add_brings_the_hit_closer [hittable.ASphere sample.far_ball]
              (hittable.ASphere sample.ball) sample.probe 0%nat sample.st0
              (interval.mkInterval 0.001 utils.infinity) eq_refl)
    as [Hcloser Hreturn].
  destruct Hreturn as (o & o' & st1 & st2 & Hrun & Hrun'); [real |].
  exists o, o', st1, st2. split; [exact Hrun |]. split; [exact Hrun' |].
  intros record Hrecord. rewrite Hrecord in Hrun.
  exact (Hcloser record o' st1 st2 Hrun Hrun').
Defined.

(** ** material.py: where the scattered ray goes *)

Section scatter_directions.

Lemma near_zero_unit (v : vec3.Vec3) :
  vec3.length_squared v = 1 -> vec3.near_zero v = false.
Proof.
  intros Hv. unfold vec3.near_zero, float.abs. cbv zeta.
  destruct (ltb_reflect (Rabs (vec3.x v)) 1e-8) as [Hx | Hx]; [| reflexivity].
  destruct (ltb_reflect (Rabs (vec3.y v)) 1e-8) as [Hy | Hy]; [| reflexivity].
  destruct (ltb_reflect (Rabs (vec3.z v)) 1e-8) as [Hz | Hz]; [| reflexivity].
  exfalso. apply Rabs_def2 in Hx, Hy, Hz. revert Hv. vsimpl. nra.
Qed.

Lemma reflectance_Ok (cosine refraction_index : R) :
  1 + refraction_index <> 0 ->
  material.reflectance cosine refraction_index
  = Ok (let r0 := (1 - refraction_index) / (1 + refraction_index) in
        r0 * r0 + (1 - r0 * r0) * (1 - cosine) ^ 5).
Proof.
  intros H. unfold material.reflectance. now rewrite truediv_ok.
Qed.

Lemma random_run (st : state) :
  random.random st = Ok (tape st (pos st), mkState (heap st) (tape st) (S (pos st))).
Proof. reflexivity. Qed.

End scatter_directions.

(** X13. For a refraction index that is not negative and a cosine between
    0 and 1, [reflectance] returns a probability, a number between 0 and 1;
    at grazing incidence (cosine 0) it is 1. *)
Theorem reflectance_is_a_probability (cosine refraction_index : R) :
  0 <= refraction_index ->
  0 <= cosine <= 1 ->
  exists p,
    material.reflectance cosine refraction_index = Ok p
    /\ 0 <= p <= 1
    /\ (cosine = 0 -> p = 1).
Proof.
  intros Hn Hc. rewrite reflectance_Ok by lra. cbv zeta.
  set (r0 := (1 - refraction_index) / (1 + refraction_index)).
  eexists. split; [reflexivity |].
  assert (Hr0 : -1 <= r0 <= 1).
  { unfold r0. split.
    - apply Rmult_le_reg_r with (1 + refraction_index); [lra |].
      unfold Rdiv. rewrite Rmult_assoc, Rinv_l by lra. lra.
    - apply Rmult_le_reg_r with (1 + refraction_index); [lra |].
      unfold Rdiv. rewrite Rmult_assoc, Rinv_l by lra. lra. }
  assert (Hsq : 0 <= r0 * r0 <= 1) by nra.
  assert (Hx : 0 <= (1 - cosine) ^ 5 <= 1).
  { split; [apply pow_le; lra |].
    rewrite <- (pow1 5). apply pow_incr. lra. }
  split; [split; nra |].
  intros ->. replace ((1 - 0) ^ 5) with 1 by (simpl; ring). ring.
Qed.

Lemma reflectance_is_a_probability_witness :
  exists p,
    material.reflectance 0.5 1.5 = Ok p /\ 0 <= p <= 1 /\ (0.5 = 0 -> p = 1).
Proof. apply (reflectance_is_a_probability 0.5 1.5); lra. Defined.

(** X14. On a hit whose normal has length 1, [Lambertian.scatter] never
    sends the ray into the surface: whenever it returns, the direction of
    the scattered ray makes a non-negative dot product with the normal, is
    not close to zero, and is no longer than 2. *)
Theorem Lambertian_scatter_leaves_the_surface (fuel : nat) (albedo : color.Color)
    (r : ray.Ray) (hit_record : core.HitRecord) (st st' : state)
    (outcome : option core.ScatterRecord) :
  vec3.length_squared (core.normal hit_record) = 1 ->
  material.Lambertian_scatter fuel albedo r hit_record st = Ok (outcome, st') ->
  exists record,
    outcome = Some record
    /\ 0 <= vec3.dot (ray.direction (core.scattered record)) (core.normal hit_record)
    /\ vec3.near_zero (ray.direction (core.scattered record)) = false
    /\ vec3.length_squared (ray.direction (core.scattered record)) <= 4.
Proof.
  intros Hn H. unfold material.Lambertian_scatter in H.
  run_inv H. run_inv H. subst outcome.
  apply random_unit_vector_Ok_inv in H0 as (Hrv & _).
  eexists. split; [reflexivity |]. cbn [core.scattered ray.direction].
  set (n := core.normal hit_record) in *.
  pose proof (dot_unit_bounds n a Hn Hrv) as Hb.
  destruct (vec3.near_zero (n [+] a)) eqn:Hnear.
  - rewrite dot_self, Hn, near_zero_unit by assumption. repeat split; lra.
  - rewrite Hnear, length_squared_add, Hn, Hrv.
    replace (vec3.dot (n [+] a) n) with (vec3.length_squared n + vec3.dot n a)
      by (vsimpl; ring).
    rewrite Hn. repeat split; lra.
Qed.

Lemma Lambertian_scatter_leaves_the_surface_witness :
  exists record,
    Some sample.diffuse_bounce = Some record
    /\ 0 <= vec3.dot (ray.direction (core.scattered record))
              (core.normal (sample.surface_hit (core.Lambertian sample.grey)))
    /\ vec3.near_zero (ray.direction (core.scattered record)) = false
    /\ vec3.length_squared (ray.direction (core.scattered record)) <= 4.
Proof.
  apply (Lambertian_scatter_leaves_the_surface 1 sample.grey sample.incoming
           (sample.surface_hit (core.Lambertian sample.grey))
           sample.st1 sample.st1_after).
  - real.
  - apply Lambertian_scatter_st1.
Defined.

(** X15. Whenever [Metal.scatter] returns, the direction of the scattered
    ray lies on the sphere of radius [fuzz] around the mirror direction,
    the reflected direction scaled to length 1: with [fuzz = 0] it is the
    mirror direction itself, and for [0 <= fuzz <= 1] it never turns away
    from it by more than a right angle. *)
Theorem Metal_scatter_stays_near_the_mirror_direction (fuel : nat)
    (albedo : color.Color) (fuzz : R) (r : ray.Ray) (hit_record : core.HitRecord)
    (st st' : state) (outcome : option core.ScatterRecord) :
  material.Metal_scatter fuel albedo fuzz r hit_record st = Ok (outcome, st') ->
  exists record mirror,
    outcome = Some record
    /\ vec3.unit_vector (vec3.reflect (ray.direction r) (core.normal hit_record))
       = Ok mirror
    /\ vec3.length_squared (ray.direction (core.scattered record) [-] mirror)
       = fuzz * fuzz
    /\ (fuzz = 0 -> ray.direction (core.scattered record) = mirror)
    /\ (0 <= fuzz <= 1 ->
        0 <= vec3.dot (ray.direction (core.scattered record)) mirror).
Proof.
  unfold material.Metal_scatter. intros H.
  run_inv H. apply lift_Ok_inv in H0 as [Hmirror ->].
  run_inv H. run_inv H. subst outcome.
  apply random_unit_vector_Ok_inv in H0 as (Hrv & _).
  destruct (unit_vector_unit _ _ Hmirror) as (Hu & _ & _).
  eexists _, a. split; [reflexivity |]. split; [assumption |].
  cbn [core.scattered ray.direction].
  pose proof (dot_unit_bounds a a0 Hu Hrv) as Hb.
  split; [| split].
  - replace (a [+] a0 [*] fuzz [-] a) with (a0 [*] fuzz) by (apply Vec3_eq; vsimpl; ring).
    rewrite length_squared_mul, Hrv. ring.
  - intros ->. apply Vec3_eq; vsimpl; ring.
  - intros Hf.
    replace (vec3.dot (a [+] a0 [*] fuzz) a)
      with (vec3.length_squared a + fuzz * vec3.dot a a0) by (vsimpl; ring).
    rewrite Hu. nra.
Qed.

Lemma Metal_scatter_stays_near_the_mirror_direction_witness :
  exists record mirror,
    Some (core.mkScatterRecord sample.grey
            (ray.mkRay (vec3.from_xyz 0 0 0)
               (vec3.from_xyz 0.8 0.6 0 [+] vec3.from_xyz 0 (-1) 0 [*] 1)))
    = Some record
    /\ vec3.unit_vector
         (vec3.reflect (ray.direction sample.incoming)
            (core.normal (sample.surface_hit (core.Metal sample.grey 1))))
       = Ok mirror
    /\ vec3.length_squared (ray.direction (core.scattered record) [-] mirror) = 1 * 1
    /\ (1 = 0 -> ray.direction (core.scattered record) = mirror)
    /\ (0 <= 1 <= 1 ->
        0 <= vec3.dot (ray.direction (core.scattered record)) mirror).
Proof.
  apply (Metal_scatter_stays_near_the_mirror_direction 1 sample.grey 1 sample.incoming
           (sample.surface_hit (core.Metal sample.grey 1)) sample.st1 sample.st1_after).
  apply Metal_scatter_runs; [| apply random_unit_vector_st1].
  change (vec3.unit_vector
            (vec3.reflect (ray.direction sample.incoming) (vec3.from_xyz 0 1 0))
          = Ok (vec3.from_xyz 0.8 0.6 0)).
  rewrite incoming_reflected. apply incoming_reflected_unit.
Defined.

Section metal_on_a_hit.




End metal_on_a_hit.



(** X16. On a hit whose normal has length 1 and does not point along the
    ray (as the normal of every record of [Sphere.hit] is set), for a
    direction whose squared length lies between [1e-300] and [1e300] and a
    refraction index between [0.01] and [100], [Dielectric.scatter]
    always returns; the scattered ray, reflected or refracted, has a
    direction of length 1, and the call has drawn at most one random
    sample. *)
Theorem Dielectric_scatter_returns_a_unit_direction (refraction_index : R)
    (r_in : ray.Ray) (hit_record : core.HitRecord) (st : state) :
  vec3.length_squared (core.normal hit_record) = 1 ->
  vec3.dot (ray.direction r_in) (core.normal hit_record) <= 0 ->
  1e-300 <= vec3.length_squared (ray.direction r_in) <= 1e300 ->
  0.01 <= refraction_index <= 100 ->
  exists record st',
    material.Dielectric_scatter refraction_index r_in hit_record st = Ok (record, st')
    /\ vec3.length_squared (ray.direction (core.scattered record)) = 1
    /\ heap st' = heap st
    /\ tape st' = tape st
    /\ (pos st' = pos st \/ pos st' = S (pos st)).
Proof.
  intros unit_normal _ [direction_low _] [index_low _].
  assert (has_direction : vec3.length_squared (ray.direction r_in) <> 0) by lra.
  assert (index_positive : 0 < refraction_index) by lra.
  set (n := core.normal hit_record) in *.
  set (ri := if core.front_face hit_record then 1 / refraction_index
             else refraction_index).
  assert (Hri : material.relative_index refraction_index hit_record = Ok ri).
  { unfold material.relative_index, ri. destruct (core.front_face hit_record);
      [apply truediv_ok; lra | reflexivity]. }
  assert (Hri_pos : 0 < ri).
  { unfold ri. destruct (core.front_face hit_record);
      [apply Rdiv_lt_0_compat; lra | assumption]. }
  pose proof (unit_vector_ok _ has_direction) as Hu.
  set (u := ray.direction r_in [*] _) in Hu.
  destruct (unit_vector_unit _ _ Hu) as (Hu1 & _ & _).
  pose proof (dot_unit_bounds u n Hu1 unit_normal) as Hb.
  assert (Hcos : material.cos_theta u hit_record = - vec3.dot u n)
    by (apply refract_cos_theta; assumption).
  set (d := vec3.dot u n) in *.
  assert (Hsq : 0 <= 1 - - d * - d) by nra.
  unfold material.Dielectric_scatter.
  rewrite (bind_Ok _ _ st st ri) by now apply lift_Ok.
  rewrite (bind_Ok _ _ st st u) by now apply lift_Ok.
  rewrite Hcos. fold n.
  rewrite (bind_Ok _ _ st st (sqrt (1 - - d * - d)))
    by (apply lift_Ok; unfold material.sin_theta; now apply sqrt_ok).
  set (sn := sqrt (1 - - d * - d)).
  assert (Hsn : sn * sn = 1 - d * d) by (unfold sn; rewrite sqrt_sqrt; lra).
  assert (Hsn0 : 0 <= sn) by apply sqrt_pos.
  destruct (ltb_reflect 1 (ri * sn)) as [Hbig | Hsmall].
  - rewrite (bind_Ok _ _ st st true) by reflexivity.
    rewrite (bind_Ok _ _ st st (vec3.reflect u n)) by reflexivity.
    eexists _, st. split; [reflexivity |]. cbn [core.scattered ray.direction].
    rewrite reflect_length_squared by assumption. auto.
  - set (st1 := mkState (heap st) (tape st) (S (pos st))).
    set (p := let r0 := (1 - ri) / (1 + ri) in
              r0 * r0 + (1 - r0 * r0) * (1 - - d) ^ 5).
    assert (Hreflects :
      (let* probability := lift (material.reflectance (- d) ri) in
       let* sample := random.random in
       ret (float.ltb sample probability)) st
      = Ok (float.ltb (tape st (pos st)) p, st1)).
    { rewrite (bind_Ok _ _ st st p) by (apply lift_Ok, reflectance_Ok; lra).
      now rewrite (bind_Ok _ _ st st1 (tape st (pos st))) by apply random_run. }
    rewrite (bind_Ok _ _ st st1 _ Hreflects).
    destruct (float.ltb (tape st (pos st)) p).
    + rewrite (bind_Ok _ _ st1 st1 (vec3.reflect u n)) by reflexivity.
      eexists _, st1. split; [reflexivity |]. cbn [core.scattered ray.direction].
      rewrite reflect_length_squared by assumption. auto.
    + assert (Hsnell : ri * ri * (1 - d * d) <= 1).
      { rewrite <- Hsn. assert (0 <= ri * sn) by nra. nra. }
      destruct (refract_unit u n ri Hu1 unit_normal Hsnell) as (v & Hv & Hv1 & _).
      rewrite (bind_Ok _ _ st1 st1 v) by now apply lift_Ok.
      eexists _, st1. split; [reflexivity |]. cbn [core.scattered ray.direction].
      auto.
Qed.

Lemma Dielectric_scatter_returns_a_unit_direction_witness :
  exists record st',
    material.Dielectric_scatter 1.5 sample.incoming
      (sample.surface_hit sample.glass) sample.st0 = Ok (record, st')
    /\ vec3.length_squared (ray.direction (core.scattered record)) = 1
    /\ heap st' = heap sample.st0
    /\ tape st' = tape sample.st0
    /\ (pos st' = pos sample.st0 \/ pos st' = S (pos sample.st0)).
Proof.
  apply (Dielectric_scatter_returns_a_unit_direction 1.5 sample.incoming
           (sample.surface_hit sample.glass) sample.st0); try split; real.
Defined.

(** ** camera.py: the frame of the camera and the rays it casts *)

Section camera_frame.

Variables (aspect_ratio : R) (image_width : Z) (samples_per_pixel max_depth : nat).
Variables (vfov : R) (lookfrom lookat : option vec3.Point3) (vup : option vec3.Vec3).
Variables (defocus_angle focus_dist : R).

Let eye : vec3.Vec3 := camera.or_default lookfrom (vec3.from_xyz 0 0 0).
Let target : vec3.Vec3 := camera.or_default lookat (vec3.from_xyz 0 0 (-1)).
Let up : vec3.Vec3 := camera.or_default vup (vec3.from_xyz 0 1 0).

Lemma truediv_Ok_inv (a b q : R) :
  float.truediv a b = Ok q -> b <> 0 /\ q = a / b.
Proof.
  unfold float.truediv. destruct (eqb_reflect b 0); [discriminate |].
  intros [= <-]. auto.
Qed.

Lemma Vec3_truediv_Ok_inv (v q : vec3.Vec3) (k : R) :
  vec3.truediv v k = Ok q -> k <> 0 /\ q = v [*] (1 / k).
Proof.
  unfold vec3.truediv. intros H. apply rbind_Ok_inv in H as (x & Hx & [= <-]).
  apply truediv_Ok_inv in Hx as [Hk ->]. auto.
Qed.

Lemma unit_vector_Ok_inv (v u : vec3.Vec3) :
  vec3.unit_vector v = Ok u -> exists k, u = v [*] k.
Proof.
  intros H. destruct (unit_vector_unit _ _ H) as (_ & Hv & _).
  rewrite unit_vector_ok in H by assumption. injection H as <-. eauto.
Qed.

End camera_frame.

(** X17. A camera that [Camera.__init__] returns has at least one row of
    pixels and sits at [lookfrom]; its two pixel steps are perpendicular to
    each other, the vertical one is perpendicular to the viewing direction
    as well, and the centre of its pixel grid lies on the viewing axis,
    [focus_dist] in front of the camera. *)
Theorem Camera_init_centres_the_pixel_grid
    (aspect_ratio : R) (image_width : Z) (samples_per_pixel max_depth : nat)
    (vfov : R) (lookfrom lookat : option vec3.Point3) (vup : option vec3.Vec3)
    (defocus_angle focus_dist : R) (cam : camera.Camera) :
  camera.init aspect_ratio image_width samples_per_pixel max_depth vfov
    lookfrom lookat vup defocus_angle focus_dist = Ok cam ->
  (1 <= camera.image_height cam)%Z
  /\ camera.image_width cam = image_width
  /\ camera.camera_center cam = camera.or_default lookfrom (vec3.from_xyz 0 0 0)
  /\ vec3.dot (camera.pixel_delta_u cam) (camera.pixel_delta_v cam) = 0
  /\ exists w,
       vec3.unit_vector (camera.or_default lookfrom (vec3.from_xyz 0 0 0)
                         [-] camera.or_default lookat (vec3.from_xyz 0 0 (-1)))
       = Ok w
       /\ vec3.dot (camera.pixel_delta_v cam) w = 0
       /\ camera.pixel00_loc cam
            [+] camera.pixel_delta_u cam [*] ((IZR image_width - 1) / 2)
            [+] camera.pixel_delta_v cam [*] ((IZR (camera.image_height cam) - 1) / 2)
          = camera.camera_center cam [-] w [*] focus_dist.
Proof.
  unfold camera.init. intros H.
  set (eye := camera.or_default lookfrom (vec3.from_xyz 0 0 0)) in *.
  set (target := camera.or_default lookat (vec3.from_xyz 0 0 (-1))) in *.
  set (up := camera.or_default vup (vec3.from_xyz 0 1 0)) in *.
  apply rbind_Ok_inv in H as (rows & _ & H).
  apply rbind_Ok_inv in H as (height & _ & H).
  apply rbind_Ok_inv in H as (ratio & _ & H).
  apply rbind_Ok_inv in H as (w & Hw & H).
  apply rbind_Ok_inv in H as (u & Hu & H).
  apply rbind_Ok_inv in H as (du & Hdu & H).
  apply rbind_Ok_inv in H as (dv & Hdv & H).
  apply rbind_Ok_inv in H as (half_u & Hhalf_u & H).
  apply rbind_Ok_inv in H as (half_v & Hhalf_v & H).
  injection H as <-.
  cbn [camera.image_height camera.image_width camera.camera_center
       camera.pixel_delta_u camera.pixel_delta_v camera.pixel00_loc].
  apply unit_vector_Ok_inv in Hu as (k & ->).
  apply Vec3_truediv_Ok_inv in Hdu as (Hwidth & ->).
  apply Vec3_truediv_Ok_inv in Hdv as (Hheight & ->).
  apply Vec3_truediv_Ok_inv in Hhalf_u as (_ & ->).
  apply Vec3_truediv_Ok_inv in Hhalf_v as (_ & ->).
  split; [lia |]. split; [reflexivity |]. split; [reflexivity |].
  split; [vsimpl; ring |].
  exists w. split; [assumption |].
  split; [vsimpl; ring |].
  apply Vec3_eq; vsimpl; replace 0.5 with (/ 2) by lra; now field.
Qed.

Lemma Camera_init_centres_the_pixel_grid_witness :
  exists cam,
    camera.init (16 / 9) 400 10 10 90 None None None 0 10 = Ok cam
    /\ (1 <= camera.image_height cam)%Z
    /\ vec3.dot (camera.pixel_delta_u cam) (camera.pixel_delta_v cam) = 0.
Proof.
  destruct Camera_init_default as (cam & Hcam & _).
  exists cam. split; [exact Hcam |].
  destruct (Camera_init_centres_the_pixel_grid _ _ _ _ _ _ _ _ _ _ cam Hcam)
    as (Hrows & _ & _ & Horth & _).
  split; assumption.
Defined.

Section rays.

Variables (fuel : nat) (self : camera.Camera).

Lemma sample_square_run (st : state) :
  camera.sample_square st
  = Ok (vec3.from_xyz (tape st (pos st) - 0.5) (tape st (S (pos st)) - 0.5) 0,
        mkState (heap st) (tape st) (S (S (pos st)))).
Proof. reflexivity. Qed.

End rays.

(** X18. Whenever [get_ray] returns, the ray passes, at [t = 1], through
    the point of the pixel grid it sampled: the centre of pixel [(i, j)]
    moved by the two offsets drawn from the random source, each less 0.5.
    With no defocus angle the ray starts at the centre of the camera and
    nothing else is drawn; otherwise it starts inside the defocus disk. *)
Theorem get_ray_passes_through_its_pixel (fuel : nat) (self : camera.Camera)
    (i j : nat) (st st' : state) (ray : ray.Ray) :
  camera.get_ray fuel self i j st = Ok (ray, st') ->
  ray.at_ ray 1
  = camera.pixel00_loc self
      [+] camera.pixel_delta_u self [*] (INR i + (tape st (pos st) - 0.5))
      [+] camera.pixel_delta_v self [*] (INR j + (tape st (S (pos st)) - 0.5))
  /\ (camera.defocus_angle self <= 0 ->
      ray.origin ray = camera.camera_center self
      /\ st' = mkState (heap st) (tape st) (S (S (pos st))))
  /\ (0 < camera.defocus_angle self ->
      exists a b,
        a * a + b * b < 1
        /\ ray.origin ray
           = camera.camera_center self
               [+] camera.defocus_disk_u self [*] a
               [+] camera.defocus_disk_v self [*] b).
Proof.
  unfold camera.get_ray. intros H.
  rewrite (bind_Ok _ _ _ _ _ (sample_square_run st)) in H.
  cbn [vec3.x vec3.y] in H.
  destruct (leb_reflect (camera.defocus_angle self) 0) as [Hpin | Hlens].
  - rewrite (bind_Ok _ _ _ _ (camera.camera_center self) eq_refl) in H.
    apply ret_Ok_inv in H as [-> ->].
    split; [apply Vec3_eq; vsimpl; ring |]. split; [auto | lra].
  - run_inv H. apply ret_Ok_inv in H as [-> ->].
    unfold camera.defocus_disk_sample in H0. run_inv H0.
    apply ret_Ok_inv in H0 as [-> ->].
    apply random_in_unit_disk_Ok_inv in H1 as (Hz & Hdisk & _).
    split; [apply Vec3_eq; vsimpl; ring |]. split; [lra |].
    intros _. exists (vec3.x a0), (vec3.y a0). split; [| reflexivity].
    revert Hdisk. unfold vec3.length_squared. rewrite Hz. lra.
Qed.

Section rays_example.

Lemma get_ray_thumbnail :
  camera.get_ray 1 sample.thumbnail 3 1 sample.st0
  = Ok (ray.mkRay (vec3.from_xyz 0 0 0)
          (vec3.from_xyz 0 0 0
             [+] vec3.from_xyz 0 0 0 [*] (INR 3 + (0.5 - 0.5))
             [+] vec3.from_xyz 0 0 0 [*] (INR 1 + (0.5 - 0.5))
             [-] vec3.from_xyz 0 0 0),
        mkState [interval.mkInterval 0.001 utils.infinity] (fun _ => 0.5) 2).
Proof.
  unfold camera.get_ray.
  rewrite (bind_Ok _ _ _ _ _ (sample_square_run sample.st0)).
  cbn [camera.defocus_angle sample.thumbnail].
  rewrite leb_true by lra. reflexivity.
Qed.

End rays_example.

Lemma get_ray_passes_through_its_pixel_witness :
  ray.origin
    (ray.mkRay (vec3.from_xyz 0 0 0)
       (vec3.from_xyz 0 0 0
          [+] vec3.from_xyz 0 0 0 [*] (INR 3 + (0.5 - 0.5))
          [+] vec3.from_xyz 0 0 0 [*] (INR 1 + (0.5 - 0.5))
          [-] vec3.from_xyz 0 0 0))
  = camera.camera_center sample.thumbnail.
Proof.
  destruct (get_ray_passes_through_its_pixel 1 sample.thumbnail 3 1 sample.st0 _ _
              get_ray_thumbnail) as (_ & Hpin & _).
  apply Hpin. cbn [camera.defocus_angle sample.thumbnail]. lra.
Defined.

(** ** camera.py: the colour of a ray *)

Section shading.

Lemma Sphere_record_material (s : hittable.Sphere) (r : ray.Ray) (root : R)
    (record : core.HitRecord) :
  hittable.Sphere_record s r root = Ok record ->
  core.material record = hittable.material s.
Proof.
  unfold hittable.Sphere_record. intros H.
  apply rbind_Ok_inv in H as (n & _ & [= <-]). reflexivity.
Qed.

(** The material of a record is the material of a sphere of the scene. *)
Let from_scene (object : hittable.Hittable) (record : core.HitRecord) : Prop :=
  exists s, spec.primitive s object /\ core.material record = hittable.material s.

Let traced (object : hittable.Hittable) : Prop :=
  forall r t_range st st' record,
    hittable.hit object r t_range st = Ok (Some record, st') ->
    from_scene object record.

Lemma World_hit_loop_material (r : ray.Ray) (curr : loc)
    (objects : list hittable.Hittable) :
  Forall traced objects ->
  forall closest st outcome st' record,
    hittable.World_hit_loop hittable.hit r curr objects closest st
    = Ok (outcome, st') ->
    outcome = Some record ->
    closest = Some record
    \/ exists object, In object objects /\ from_scene object record.
Proof.
  induction 1 as [| object rest Hobject _ IH];
    intros closest st outcome st' record Hrun Hout.
  - cbn in Hrun. apply ret_Ok_inv in Hrun as [-> _]. now left.
  - cbn [hittable.World_hit_loop] in Hrun. run_inv Hrun.
    destruct a as [found |].
    + run_inv Hrun.
      destruct (IH _ _ _ _ _ Hrun Hout) as [[= ->] | (o & Ho & Hfrom)].
      * right. exists object. split; [now left |].
        now apply (Hobject r curr st st0).
      * right. exists o. split; [now right | assumption].
    + destruct (IH _ _ _ _ _ Hrun Hout) as [-> | (o & Ho & Hfrom)]; [now left |].
      right. exists o. split; [now right | assumption].
Qed.

Lemma hit_material (object : hittable.Hittable) : traced object.
Proof.
  induction object as [s | objects IH] using Hittable_rect_nested;
    intros r t_range st st' record Hrun.
  - cbn [hittable.hit] in Hrun.
    apply Sphere_hit_Some_inv in Hrun as (_ & range & root & _ & _ & Hrec).
    exists s. split; [constructor | now apply Sphere_record_material with r root].
  - cbn [hittable.hit] in Hrun. unfold hittable.World_hit in Hrun. run_inv Hrun.
    destruct (World_hit_loop_material r a objects IH _ _ _ _ record Hrun eq_refl)
      as [[=] | (o & Ho & s & Hs & Hmat)].
    exists s. split; [| assumption]. now apply spec.primitive_world with o.
Qed.

Lemma in_gamut_mul (a b : color.Color) :
  spec.in_gamut a -> spec.in_gamut b -> spec.in_gamut (a [**] b).
Proof.
  unfold spec.in_gamut, color.red, color.green, color.blue. vsimpl.
  intros (Hx & Hy & Hz) (Hx' & Hy' & Hz'). repeat split; nra.
Qed.

Lemma scatter_attenuation (fuel : nat) (m : core.Material) (r : ray.Ray)
    (record : core.HitRecord) (st st' : state) (scattered : core.ScatterRecord) :
  spec.albedo_in_gamut m ->
  material.scatter fuel m r record st = Ok (Some scattered, st') ->
  spec.in_gamut (core.attenuation scattered).
Proof.
  intros Hm H. destruct m as [albedo | albedo fuzz | refraction_index];
    cbn [material.scatter spec.albedo_in_gamut] in *.
  - apply Lambertian_scatter_Ok_inv in H as (x & [= <-] & -> & _). assumption.
  - apply Metal_scatter_Ok_inv in H as (x & [= <-] & -> & _). assumption.
  - run_inv H. apply ret_Ok_inv in H as [[= <-] _].
    apply Dielectric_scatter_attenuation in H0 as [-> _].
    unfold spec.in_gamut, color.red, color.green, color.blue. cbn. lra.
Qed.

Lemma background_in_gamut (u : vec3.Vec3) :
  vec3.length_squared u = 1 ->
  spec.in_gamut ((vec3.from_xyz 1 1 1 [*] (1 - (vec3.y u + 1) * 0.5))
                 [+] (vec3.from_xyz 0.5 0.7 1 [*] ((vec3.y u + 1) * 0.5))).
Proof.
  intros Hu.
  assert (Hy : -1 <= vec3.y u <= 1) by (revert Hu; vsimpl; intros Hu; split; nra).
  unfold spec.in_gamut, color.red, color.green, color.blue. vsimpl.
  repeat split; lra.
Qed.

End shading.

(** X19. In a scene whose Lambertian and Metal spheres all have an albedo
    with channels between 0 and 1, every colour that [ray_color] returns,
    at any depth, has its three channels between 0 and 1. *)
Theorem ray_color_stays_in_gamut (fuel : nat) (world : hittable.Hittable)
    (depth : nat) (ray : ray.Ray) (st st' : state) (c : color.Color) :
  (forall s, spec.primitive s world -> spec.albedo_in_gamut (hittable.material s)) ->
  camera.ray_color fuel ray world depth st = Ok (c, st') ->
  spec.in_gamut c.
Proof.
  intros Hworld. revert ray st st' c.
  induction depth as [| depth IH]; intros ray st st' c H.
  - cbn in H. apply ret_Ok_inv in H as [-> _].
    unfold spec.in_gamut, color.red, color.green, color.blue. cbn. lra.
  - cbn [camera.ray_color] in H. run_inv H. run_inv H.
    destruct a0 as [record |].
    + destruct (hit_material world _ _ _ _ _ H1) as (s & Hs & Hmat).
      run_inv H. destruct a0 as [scattered |].
      * run_inv H. apply ret_Ok_inv in H as [-> _].
        apply in_gamut_mul; [| now apply IH with (1 := H3)].
        apply scatter_attenuation with (2 := H2). rewrite Hmat. now apply Hworld.
      * apply ret_Ok_inv in H as [-> _].
        unfold spec.in_gamut, color.red, color.green, color.blue. cbn. lra.
    + run_inv H. apply lift_Ok_inv in H2 as [Hu _].
      apply ret_Ok_inv in H as [-> _].
      apply background_in_gamut. now destruct (unit_vector_unit _ _ Hu).
Qed.

Section shading_example.

(** [sample.incoming] passes beside [sample.far_ball] and takes the colour
    of the background. *)
Lemma ray_color_beside_far_ball :
  camera.ray_color 1 sample.incoming (hittable.ASphere sample.far_ball) 1
    (mkState [] (fun _ => 0.5) 0)
  = Ok ((vec3.from_xyz 1 1 1 [*] (1 - (-0.6 + 1) * 0.5))
          [+] (vec3.from_xyz 0.5 0.7 1 [*] ((-0.6 + 1) * 0.5)),
        sample.st0).
Proof.
  cbn [camera.ray_color].
  rewrite (bind_Ok _ _ _ sample.st0 0%nat) by reflexivity.
  cbn [hittable.hit]. unfold hittable.Sphere_hit. cbv zeta.
  float_decide.
  rewrite (bind_Ok _ _ _ sample.st0 None) by reflexivity.
  rewrite (bind_Ok _ _ _ sample.st0 (vec3.from_xyz 0.8 (-0.6) 0))
    by (apply lift_Ok, incoming_unit_direction).
  reflexivity.
Qed.

End shading_example.

Lemma ray_color_stays_in_gamut_witness :
  spec.in_gamut ((vec3.from_xyz 1 1 1 [*] (1 - (-0.6 + 1) * 0.5))
                 [+] (vec3.from_xyz 0.5 0.7 1 [*] ((-0.6 + 1) * 0.5))).
Proof.
  apply (ray_color_stays_in_gamut 1 (hittable.ASphere sample.far_ball) 1
           sample.incoming (mkState [] (fun _ => 0.5) 0) sample.st0).
  - intros s Hs. apply primitive_sphere_iff in Hs as <-.
    unfold spec.albedo_in_gamut, spec.in_gamut, color.red, color.green, color.blue.
    cbn. lra.
  - apply ray_color_beside_far_ball.
Defined.

(** ** camera.py: chunks, workers and the merge *)

Section chunk_sizes.

Variables (self : camera.Camera) (cpu_count : nat).

Let pixels : list (nat * nat) := camera.pixels self.
Let num_chunks : nat := (cpu_count * 8)%nat.
Let chunk_size : nat := (length pixels / num_chunks)%nat.

Lemma chunks_Ok_inv (chunks : list (list (nat * nat))) :
  camera.chunks self cpu_count = Ok chunks ->
  (1 <= num_chunks)%nat
  /\ (1 <= chunk_size)%nat
  /\ chunks
     = map (fun k => take chunk_size (drop (k * chunk_size) pixels))
         (seq 0 ((length pixels + (chunk_size - 1)) / chunk_size)).
Proof.
  unfold camera.chunks. fold pixels. fold num_chunks. intros H.
  apply rbind_Ok_inv in H as (size & Hsize & H).
  apply rbind_Ok_inv in H as (starts & Hstarts & [= <-]).
  unfold builtins.floordiv in Hsize.
  destruct (Nat.eqb_spec num_chunks 0) as [| Hnum]; [discriminate |].
  injection Hsize as <-. fold chunk_size in Hstarts |- *.
  unfold builtins.range3 in Hstarts.
  destruct (Nat.eqb_spec chunk_size 0) as [| Hchunk]; [discriminate |].
  injection Hstarts as <-.
  split; [lia |]. split; [lia |].
  rewrite Nat.sub_0_r, map_map. apply map_ext. intros k.
  rewrite slice_take_drop. reflexivity.
Qed.

Lemma chunk_count_bounds :
  (1 <= num_chunks)%nat -> (1 <= chunk_size)%nat ->
  let count := ((length pixels + (chunk_size - 1)) / chunk_size)%nat in
  (num_chunks <= count < 2 * num_chunks)%nat
  /\ (length pixels <= count * chunk_size)%nat
  /\ ((count - 1) * chunk_size < length pixels)%nat.
Proof.
  intros Hnum Hchunk count.
  pose proof (Nat.div_mod_eq (length pixels) num_chunks) as Hn.
  pose proof (Nat.mod_upper_bound (length pixels) num_chunks ltac:(lia)) as Hn'.
  fold chunk_size in Hn.
  pose proof (Nat.div_mod_eq (length pixels + (chunk_size - 1)) chunk_size) as Hc.
  pose proof (Nat.mod_upper_bound (length pixels + (chunk_size - 1)) chunk_size
                ltac:(lia)) as Hc'.
  fold count in Hc.
  assert (Hlow : (length pixels <= count * chunk_size)%nat) by nia.
  assert (Hhigh : (count * chunk_size <= length pixels + (chunk_size - 1))%nat) by nia.
  split; [split; nia |]. split; [assumption | nia].
Qed.

End chunk_sizes.

(** X20. When [save_image_to_png] gets past its chunking, the pool is
    handed at least [cpu_count * 8] and fewer than twice as many chunks;
    none of them is empty, none holds more than
    [len(pixels) // (cpu_count * 8)] pixels, and all but the last hold
    exactly that many. *)
Theorem chunks_are_even (self : camera.Camera) (cpu_count : nat)
    (chunks : list (list (nat * nat))) :
  camera.chunks self cpu_count = Ok chunks ->
  (cpu_count * 8 <= length chunks < 2 * (cpu_count * 8))%nat
  /\ Forall (fun chunk =>
               (1 <= length chunk
                <= length (camera.pixels self) / (cpu_count * 8))%nat) chunks
  /\ (forall k chunk,
        chunks !! k = Some chunk -> (S k < length chunks)%nat ->
        length chunk = (length (camera.pixels self) / (cpu_count * 8))%nat).
Proof.
  intros H.
  destruct (chunks_Ok_inv self cpu_count chunks H) as (Hnum & Hchunk & ->).
  destruct (chunk_count_bounds self cpu_count Hnum Hchunk) as (Hcount & Hlow & Hhigh).
  set (pixels := camera.pixels self) in *.
  set (num_chunks := (cpu_count * 8)%nat) in *.
  set (chunk_size := (length pixels / num_chunks)%nat) in *.
  set (count := ((length pixels + (chunk_size - 1)) / chunk_size)%nat) in *.
  rewrite length_map, length_seq.
  split; [assumption |]. split.
  - apply List.Forall_forall. intros chunk Hin.
    apply in_map_iff in Hin as (k & <- & Hk). apply in_seq in Hk.
    rewrite length_take, length_drop.
    assert (k * chunk_size <= (count - 1) * chunk_size)%nat by nia. lia.
  - intros k chunk Hlookup Hk.
    rewrite list_lookup_fmap in Hlookup.
    destruct (seq 0 count !! k) as [k' |] eqn:Hseq; [| discriminate].
    apply lookup_seq in Hseq as [-> _]. injection Hlookup as <-.
    rewrite length_take, length_drop. cbn [Nat.add].
    assert (S k * chunk_size <= (count - 1) * chunk_size)%nat by nia. lia.
Qed.

Lemma chunks_are_even_witness :
  exists chunks,
    camera.chunks sample.thumbnail 1 = Ok chunks
    /\ (1 * 8 <= length chunks < 2 * (1 * 8))%nat
    /\ Forall (fun chunk =>
                 (1 <= length chunk
                  <= length (camera.pixels sample.thumbnail) / (1 * 8))%nat) chunks.
Proof.
  eexists. split; [reflexivity |].
  destruct (chunks_are_even sample.thumbnail 1 _ eq_refl) as (Hcount & Hsizes & _).
  split; assumption.
Defined.

(** X21. The merge loop of [save_image_to_png] does not depend on the
    order in which the results arrive: when no pixel is written twice, any
    rearrangement of the chunk results gives the same array, or the same
    exception. *)
Theorem merge_is_order_independent
    (results results' : list (list ((nat * nat) * list Z))) (color_array : np.ndarray) :
  Permutation results results' ->
  NoDup (map fst (concat results)) ->
  camera.merge results color_array = camera.merge results' color_array.
Proof.
  intros Hperm Hnodup. rewrite !merge_concat.
  apply merge_chunk_Permutation; [| assumption].
  now apply Permutation_concat.
Qed.

Lemma merge_is_order_independent_witness :
  camera.merge [[((0, 0)%nat, [1; 2; 3]%Z)]; [((0, 1)%nat, [4; 5; 6]%Z)]]
    [[[0; 0; 0]; [0; 0; 0]]]%Z
  = camera.merge [[((0, 1)%nat, [4; 5; 6]%Z)]; [((0, 0)%nat, [1; 2; 3]%Z)]]
      [[[0; 0; 0]; [0; 0; 0]]]%Z.
Proof.
  apply merge_is_order_independent.
  - apply perm_swap.
  - cbn. apply NoDup_cons. split; [| apply NoDup_singleton].
    intros [=]%list_elem_of_singleton.
Defined.

Section parallel.

Variables (fuel : nat) (self : camera.Camera) (world : hittable.Hittable).

Lemma make_color_array_bytes (c : color.Color) (rgb : list Z) :
  color.make_color_array c = Ok rgb ->
  length rgb = 3%nat
  /\ Forall (fun v => (0 <= v <= 255)%Z) rgb
  /\ np.astype_uint8 (np.clip rgb 0 255) = rgb.
Proof.
  destruct (channel_byte (color.red c)) as (r & ir & Hr & Hir & Rr & _).
  destruct (channel_byte (color.green c)) as (g & ig & Hg & Hig & Rg & _).
  destruct (channel_byte (color.blue c)) as (b & ib & Hb & Hib & Rb & _).
  cbv zeta in Hir, Hig, Hib.
  unfold color.make_color_array. rewrite Hr, Hg, Hb. cbn [rbind]. cbv zeta.
  rewrite Hir, Hig, Hib. cbn [rbind]. intros [= <-].
  split; [reflexivity |]. split; [repeat constructor; lia |].
  unfold np.astype_uint8, np.clip; cbn [map].
  rewrite !Z.max_r, !Z.min_r by lia.
  rewrite !Z.mod_small by lia. reflexivity.
Qed.

End parallel.

(** X22. Whenever [process_chunk] returns, its result lists the pixel
    coordinates of the chunk, each once and in the order of the chunk, each
    with three values between 0 and 255. *)
Theorem process_chunk_answers_its_chunk (fuel : nat) (self : camera.Camera)
    (chunk : list (nat * nat)) (world : hittable.Hittable) (st st' : state)
    (chunk_pixels : list ((nat * nat) * list Z)) :
  camera.process_chunk fuel self chunk world st = Ok (chunk_pixels, st') ->
  map fst chunk_pixels = chunk
  /\ Forall (fun entry =>
               length (snd entry) = 3%nat
               /\ Forall (fun v => (0 <= v <= 255)%Z) (snd entry)) chunk_pixels.
Proof.
  revert st st' chunk_pixels.
  induction chunk as [| [j i] chunk IH]; intros st st' chunk_pixels H.
  - cbn in H. apply ret_Ok_inv in H as [-> _]. split; [reflexivity | constructor].
  - cbn [camera.process_chunk] in H.
    run_inv H. run_inv H. apply lift_Ok_inv in H1 as [_ ->].
    run_inv H. apply lift_Ok_inv in H1 as [Hrgb ->].
    run_inv H. apply ret_Ok_inv in H as [-> _].
    destruct (IH _ _ _ H1) as (Hfst & Hall).
    destruct (make_color_array_bytes _ _ Hrgb) as (Hlen & Hbytes & ->).
    split; [cbn; now rewrite Hfst |].
    constructor; [cbn; auto | assumption].
Qed.

Lemma process_chunk_answers_its_chunk_witness :
  map fst (spec.shaded (fun _ => [0; 0; 0]%Z) [(0, 0); (1, 3)]%nat)
  = [(0, 0); (1, 3)]%nat
  /\ Forall (fun entry =>
               length (snd entry) = 3%nat
               /\ Forall (fun v => (0 <= v <= 255)%Z) (snd entry))
       (spec.shaded (fun _ => [0; 0; 0]%Z) [(0, 0); (1, 3)]%nat).
Proof.
  destruct (process_chunk_shaded 1 sample.thumbnail (hittable.AWorld [])
              (fun _ => [0; 0; 0]%Z)
              (depth_zero_shading 1 sample.thumbnail (hittable.AWorld [])
                 eq_refl eq_refl (Rle_refl 0))
              [(0, 0); (1, 3)]%nat sample.st0) as (st' & Hrun).
  { repeat constructor; apply pixels_In; cbn; lia. }
  exact (process_chunk_answers_its_chunk _ _ _ _ _ _ _ Hrun).
Defined.

Section replay.

Variables (fuel : nat) (self : camera.Camera) (world : hittable.Hittable).

Lemma process_chunk_fst (chunk : list (nat * nat)) (st st' : state)
    (done : list ((nat * nat) * list Z)) :
  camera.process_chunk fuel self chunk world st = Ok (done, st') ->
  map fst done = chunk.
Proof.
  revert st st' done.
  induction chunk as [| [j i] chunk IH]; intros st st' done H.
  - cbn in H. now apply ret_Ok_inv in H as [-> _].
  - cbn [camera.process_chunk] in H.
    run_inv H. run_inv H. run_inv H. run_inv H. apply ret_Ok_inv in H as [-> _].
    cbn [map fst]. f_equal. eapply IH. eassumption.
Qed.

(** A chunk cut in two: the second part is rendered from the state in
    which the first part stops. *)
Lemma process_chunk_app (chunk chunk' : list (nat * nat)) (st : state) :
  camera.process_chunk fuel self (chunk ++ chunk') world st
  = (let* done := camera.process_chunk fuel self chunk world in
     let* done' := camera.process_chunk fuel self chunk' world in
     ret (done ++ done')) st.
Proof.
  revert st. induction chunk as [| [j i] chunk IH]; intros st.
  - cbn [app camera.process_chunk]. unfold bind, ret.
    now destruct (camera.process_chunk fuel self chunk' world st) as [[done' st'] | | |].
  - cbn [app camera.process_chunk]. unfold bind, lift, ret.
    destruct (camera.accumulate _ _ _ _ _ _ _ st) as [[pixel st1] | | |];
      try reflexivity.
    destruct (vec3.truediv pixel _) as [mean | | |]; cbn [rbind]; try reflexivity.
    destruct (color.make_color_array mean) as [rgb | | |]; cbn [rbind]; try reflexivity.
    rewrite IH. unfold bind, ret.
    destruct (camera.process_chunk fuel self chunk world st1) as [[done st2] | | |];
      try reflexivity.
    now destruct (camera.process_chunk fuel self chunk' world st2) as [[done' st3] | | |].
Qed.

Lemma process_chunk_app_Ok_inv (chunk chunk' : list (nat * nat)) (st st' : state)
    (done : list ((nat * nat) * list Z)) :
  camera.process_chunk fuel self (chunk ++ chunk') world st = Ok (done, st') ->
  exists first rest st1,
    camera.process_chunk fuel self chunk world st = Ok (first, st1)
    /\ camera.process_chunk fuel self chunk' world st1 = Ok (rest, st')
    /\ done = first ++ rest.
Proof.
  rewrite process_chunk_app. intros H.
  apply bind_Ok_inv in H as (first & st1 & Hfirst & H).
  apply bind_Ok_inv in H as (rest & st2 & Hrest & H).
  apply ret_Ok_inv in H as [-> ->]. eauto 6.
Qed.

Lemma merge_chunk_writes_in_shape (ws : list ((nat * nat) * list Z)) (a : np.ndarray)
    (height width : nat) :
  spec.shape a height width ->
  Forall (fun pixel => (fst pixel < height)%nat /\ (snd pixel < width)%nat)
    (map fst ws) ->
  exists a', camera.merge_chunk ws a = Ok a' /\ spec.shape a' height width.
Proof.
  revert a. induction ws as [| [[j i] v] ws IH]; intros a Hshape Hin.
  - now exists a.
  - cbn [map fst] in Hin. apply Forall_cons in Hin as [[Hj Hi] Hin].
    cbn [fst snd] in Hj, Hi. cbn [camera.merge_chunk].
    destruct (setitem_in_shape a j i v height width Hshape Hj Hi) as [a1 Ha1].
    rewrite Ha1. cbn [rbind]. apply IH; [| assumption].
    eapply setitem_shape; eassumption.
Qed.

(** A row of the serial renderer is the chunk of its pixels, rendered and
    then merged. *)
Lemma serial_row_process_chunk (j : nat) (columns : list nat) (height width : nat) :
  (j < height)%nat ->
  Forall (fun i => (i < width)%nat) columns ->
  forall (a : np.ndarray) (st : state),
    spec.shape a height width ->
    camera.serial_row fuel self world j columns a st
    = (let? out :=
         camera.process_chunk fuel self (map (fun i => (j, i)) columns) world st in
       let? a' := camera.merge_chunk (fst out) a in
       Ok (a', snd out)).
Proof.
  intros Hj Hcolumns.
  induction Hcolumns as [| i columns Hi _ IH]; intros a st Hshape; [reflexivity |].
  cbn [map camera.serial_row camera.process_chunk]. unfold bind, lift, ret.
  destruct (camera.accumulate _ _ _ _ _ _ _ st) as [[pixel st1] | | |];
    try reflexivity.
  destruct (vec3.truediv pixel _) as [mean | | |]; cbn [rbind]; try reflexivity.
  destruct (color.make_color_array mean) as [rgb | | |]; cbn [rbind]; try reflexivity.
  destruct (setitem_in_shape a j i (np.astype_uint8 (np.clip rgb 0 255))
              height width Hshape Hj Hi) as [a1 Ha1].
  rewrite Ha1. cbn [rbind].
  rewrite IH by (eapply setitem_shape; eassumption).
  destruct (camera.process_chunk _ _ _ _ st1) as [[done st2] | | |];
    cbn [rbind fst snd camera.merge_chunk]; try reflexivity.
  now rewrite Ha1.
Qed.

Lemma serial_rows_process_chunk (rows : list nat) (height : nat) :
  Forall (fun j => (j < height)%nat) rows ->
  forall (a : np.ndarray) (st : state),
    spec.shape a height (Z.to_nat (camera.image_width self)) ->
    camera.serial_rows fuel self world rows a st
    = (let? out :=
         camera.process_chunk fuel self
           (rows ≫= fun j => builtins.range (camera.image_width self) ≫= fun i => [(j, i)])
           world st in
       let? a' := camera.merge_chunk (fst out) a in
       Ok (a', snd out)).
Proof.
  induction 1 as [| j rows Hj _ IH]; intros a st Hshape; [reflexivity |].
  cbn [camera.serial_rows mbind list_bind].
  change (list_bind ?f ?l) with (l ≫= f).
  rewrite bind_singleton_pairs, process_chunk_app.
  assert (Hcolumns : Forall (fun i => (i < Z.to_nat (camera.image_width self))%nat)
                       (builtins.range (camera.image_width self))).
  { apply List.Forall_forall. intros i Hi. unfold builtins.range in Hi.
    apply in_seq in Hi. lia. }
  unfold bind, ret.
  rewrite (serial_row_process_chunk j _ height _ Hj Hcolumns a st Hshape).
  destruct (camera.process_chunk fuel self
              (map (fun i => (j, i)) (builtins.range (camera.image_width self)))
              world st) as [[first st1] | | |] eqn:Hfirst;
    cbn [rbind fst snd]; try reflexivity.
  destruct (merge_chunk_writes_in_shape first a height
              (Z.to_nat (camera.image_width self)) Hshape) as (a1 & Ha1 & Hshape1).
  { rewrite (process_chunk_fst _ _ _ _ Hfirst).
    apply List.Forall_forall. intros [j' i'] Hin.
    apply in_map_iff in Hin as (i & [= <- <-] & Hi).
    rewrite List.Forall_forall in Hcolumns. cbn. auto. }
  rewrite Ha1. cbn [rbind]. rewrite (IH a1 st1 Hshape1).
  destruct (camera.process_chunk fuel self _ world st1) as [[rest st2] | | |];
    cbn [rbind fst snd]; try reflexivity.
  rewrite merge_chunk_app, Ha1. reflexivity.
Qed.

(** The serial renderer renders the list of all pixels as one chunk, and
    merges it into the blank array. *)
Lemma serial_renderer_process_chunk (st : state) :
  camera._save_image_to_png fuel self world st
  = (let? blank := np.zeros (camera.image_height self) (camera.image_width self) in
     let? out := camera.process_chunk fuel self (camera.pixels self) world st in
     let? a := camera.merge_chunk (fst out) blank in
     Ok (a, snd out)).
Proof.
  unfold camera._save_image_to_png, bind, lift.
  destruct (np.zeros _ _) as [blank | | |] eqn:Hblank; cbn [rbind]; try reflexivity.
  apply (serial_rows_process_chunk _ (Z.to_nat (camera.image_height self))).
  - apply List.Forall_forall. intros j Hj. unfold builtins.range in Hj.
    apply in_seq in Hj. lia.
  - unfold np.zeros in Hblank.
    destruct (Z.ltb_spec (camera.image_height self) 0); [discriminate |].
    destruct (Z.ltb_spec (camera.image_width self) 0); [discriminate |].
    injection Hblank as <-. split.
    + apply length_replicate.
    + apply Forall_replicate. apply length_replicate.
Qed.

(** When the pixels render, the serial renderer returns. *)
Lemma serial_renderer_returns (st st' : state) (done : list ((nat * nat) * list Z)) :
  (0 <= camera.image_height self)%Z ->
  (0 <= camera.image_width self)%Z ->
  camera.process_chunk fuel self (camera.pixels self) world st = Ok (done, st') ->
  exists color_array,
    camera._save_image_to_png fuel self world st = Ok (color_array, st').
Proof.
  intros Hh Hw Hrun.
  destruct (zeros_shape _ _ Hh Hw) as (blank & Hblank & Hshape).
  destruct (merge_chunk_writes_in_shape done blank _ _ Hshape) as (a & Ha & _).
  { rewrite (process_chunk_fst _ _ _ _ Hrun).
    apply List.Forall_forall. intros [j i] Hin. apply pixels_In in Hin. cbn. lia. }
  exists a. rewrite serial_renderer_process_chunk, Hblank. cbn [rbind].
  rewrite Hrun. cbn [rbind fst snd]. now rewrite Ha.
Qed.

(** A run over the chunks one after the other, cut at the states [reached]
    in which it starts on each chunk. *)
Lemma process_chunk_segments (chunks : list (list (nat * nat))) :
  forall (st st' : state) (reached : nat -> state)
         (done : list ((nat * nat) * list Z)),
    camera.process_chunk fuel self (concat chunks) world st = Ok (done, st') ->
    (forall k, (k < length chunks)%nat ->
       exists before,
         camera.process_chunk fuel self (concat (take k chunks)) world st
         = Ok (before, reached k)) ->
    exists results,
      done = concat results
      /\ length results = length chunks
      /\ forall k chunk, chunks !! k = Some chunk ->
           exists st1,
             camera.process_chunk fuel self chunk world (reached k)
             = Ok (results !!! k, st1).
Proof.
  induction chunks as [| chunk chunks IH]; intros st st' reached done Hrun Hcuts.
  - cbn in Hrun. apply ret_Ok_inv in Hrun as [-> _].
    exists []. split; [reflexivity |]. split; [reflexivity |].
    intros k chunk Hk. now rewrite lookup_nil in Hk.
  - cbn [concat] in Hrun.
    apply process_chunk_app_Ok_inv in Hrun as (first & rest & st1 & Hfirst & Hrest & ->).
    destruct (IH st1 st' (fun k => reached (S k)) rest Hrest)
      as (results & -> & Hlength & Hresults).
    { intros k Hk. destruct (Hcuts (S k)) as (before & Hbefore); [cbn; lia |].
      change (take (S k) (chunk :: chunks)) with (chunk :: take k chunks) in Hbefore.
      cbn [concat] in Hbefore.
      apply process_chunk_app_Ok_inv in Hbefore
        as (first' & before' & st1' & Hfirst' & Hbefore & _).
      rewrite Hfirst in Hfirst'. injection Hfirst' as _ <-. eauto. }
    exists (first :: results). split; [reflexivity |].
    split; [cbn; now rewrite Hlength |].
    intros [| k] piece Hpiece.
    + cbn in Hpiece. injection Hpiece as <-.
      destruct (Hcuts 0%nat) as (before & Hbefore); [cbn; lia |].
      change (take 0 (chunk :: chunks)) with (@nil (list (nat * nat))) in Hbefore.
      cbn in Hbefore. apply ret_Ok_inv in Hbefore as [_ Hstart].
      rewrite Hstart. exists st1. exact Hfirst.
    + cbn in Hpiece. destruct (Hresults k piece Hpiece) as (st2 & Hrun). eauto.
Qed.

(** The pool returns the result of each chunk from the state of the worker
    that rendered it. *)
Lemma imap_unordered_replay (chunks : list (list (nat * nat)))
    (results : list (list ((nat * nat) * list Z)))
    (sched : camera.schedule) (arrivals : list nat) :
  (forall k chunk, chunks !! k = Some chunk ->
     exists st1,
       camera.process_chunk fuel self chunk world (camera.worker sched k)
       = Ok (results !!! k, st1)) ->
  Forall (fun k => (k < length chunks)%nat) arrivals ->
  camera.imap_unordered (fun chunk => camera.process_chunk fuel self chunk world)
    chunks sched arrivals
  = Ok (map (fun k => results !!! k) arrivals).
Proof.
  intros Hresults Harrivals.
  induction Harrivals as [| k arrivals Hk _ IH]; [reflexivity |].
  cbn [camera.imap_unordered map].
  destruct (lookup_lt_is_Some_2 chunks k Hk) as [chunk Hchunk].
  rewrite Hchunk. destruct (Hresults k chunk Hchunk) as (st1 & ->).
  cbn [rbind fst]. now rewrite IH.
Qed.

Lemma chunks_Ok_concat (cpu_count : nat) (chunks : list (list (nat * nat))) :
  camera.chunks self cpu_count = Ok chunks -> concat chunks = camera.pixels self.
Proof.
  intros Hchunks.
  destruct (chunks_Ok_inv self cpu_count chunks Hchunks) as (Hnum & Hsize & _).
  destruct (chunks_concat self cpu_count
              (length (camera.pixels self) / (cpu_count * 8)))
    as (chunks' & Hchunks' & Hconcat).
  - unfold builtins.floordiv.
    destruct (Nat.eqb_spec (cpu_count * 8) 0); [lia | reflexivity].
  - exact Hsize.
  - rewrite Hchunks in Hchunks'. now injection Hchunks' as ->.
Qed.

End replay.

Section replay_example.

Lemma make_color_array_Ok (c : color.Color) :
  exists rgb, color.make_color_array c = Ok rgb.
Proof.
  destruct (channel_byte (color.red c)) as (r & ir & Hr & Hir & _).
  destruct (channel_byte (color.green c)) as (g & ig & Hg & Hig & _).
  destruct (channel_byte (color.blue c)) as (b & ib & Hb & Hib & _).
  cbv zeta in Hir, Hig, Hib.
  unfold color.make_color_array. rewrite Hr, Hg, Hb. cbn [rbind]. cbv zeta.
  rewrite Hir, Hig, Hib. cbn [rbind]. eauto.
Qed.

(** A ray that has a direction, in an empty scene, gets the colour of the
    background. *)
Lemma ray_color_empty_world (fuel : nat) (r : ray.Ray) (st : state) :
  vec3.length_squared (ray.direction r) <> 0 ->
  exists c st', camera.ray_color fuel r (hittable.AWorld []) 1 st = Ok (c, st').
Proof.
  intros Hdir. cbn [camera.ray_color].
  set (range := interval.mkInterval 0.001 utils.infinity).
  set (st1 := mkState (heap st ++ [range]) (tape st) (pos st)).
  rewrite (bind_Ok _ _ st st1 (length (heap st))) by reflexivity.
  set (st2 := mkState (heap st1 ++ [range]) (tape st1) (pos st1)).
  assert (Hhit : hittable.hit (hittable.AWorld []) r (length (heap st)) st1
                 = Ok (None, st2)).
  { cbn [hittable.hit]. unfold hittable.World_hit.
    rewrite (bind_Ok _ _ _ _ _ (copy_Ok (length (heap st)) st1 range
                                   (list_lookup_middle _ _ _ _ eq_refl))).
    reflexivity. }
  rewrite (bind_Ok _ _ _ _ _ Hhit).
  rewrite (bind_Ok _ _ _ _ _ (lift_Ok _ st2 _ (unit_vector_ok _ Hdir))).
  eexists _, st2. reflexivity.
Qed.

(** Every ray of the camera [viewer] goes one unit into the scene. *)
Lemma get_ray_viewer (i j : nat) (st : state) :
  exists r st',
    camera.get_ray 1 sample.viewer i j st = Ok (r, st')
    /\ vec3.z (ray.direction r) = -1.
Proof.
  unfold camera.get_ray.
  rewrite (bind_Ok _ _ _ _ _ (sample_square_run st)).
  cbn [camera.defocus_angle sample.viewer].
  rewrite leb_true by lra.
  eexists _, _. split; [reflexivity |].
  cbn [ray.direction camera.pixel00_loc camera.pixel_delta_u camera.pixel_delta_v
       camera.camera_center sample.viewer].
  vsimpl. lra.
Qed.

Lemma accumulate_viewer (i j : nat) (pixel : color.Color) (st : state) :
  exists c st',
    camera.accumulate 1 sample.viewer (hittable.AWorld []) i j 1 pixel st
    = Ok (pixel [+] c, st').
Proof.
  cbn [camera.accumulate].
  change (camera.max_depth sample.viewer) with 1%nat.
  destruct (get_ray_viewer i j st) as (r & st1 & Hray & Hz).
  rewrite (bind_Ok _ _ _ _ _ Hray).
  destruct (ray_color_empty_world 1 r st1) as (c & st2 & Hcolor).
  { unfold vec3.length_squared. rewrite Hz. nra. }
  rewrite (bind_Ok _ _ _ _ _ Hcolor).
  eexists _, _. reflexivity.
Qed.

Lemma process_chunk_viewer (chunk : list (nat * nat)) :
  forall st,
    exists done st',
      camera.process_chunk 1 sample.viewer chunk (hittable.AWorld []) st
      = Ok (done, st').
Proof.
  induction chunk as [| [j i] chunk IH]; intros st.
  - eexists _, _. reflexivity.
  - cbn [camera.process_chunk].
    change (camera.samples_per_pixel sample.viewer) with 1%nat.
    destruct (accumulate_viewer i j (vec3.from_xyz 0 0 0) st) as (c & st1 & Hacc).
    rewrite (bind_Ok _ _ _ _ _ Hacc).
    assert (Hmean : vec3.truediv (vec3.from_xyz 0 0 0 [+] c) (INR 1)
                    = Ok ((vec3.from_xyz 0 0 0 [+] c) [*] (1 / INR 1))).
    { unfold vec3.truediv. now rewrite truediv_ok by (cbn [INR]; lra). }
    rewrite (bind_Ok _ _ _ _ _ (lift_Ok _ st1 _ Hmean)).
    destruct (make_color_array_Ok
                ((vec3.from_xyz 0 0 0 [+] c) [*] (1 / INR 1))) as (rgb & Hrgb).
    rewrite (bind_Ok _ _ _ _ _ (lift_Ok _ st1 _ Hrgb)).
    destruct (IH st1) as (done & st' & Hrest).
    rewrite (bind_Ok _ _ _ _ _ Hrest).
    eexists _, _. reflexivity.
Qed.

Lemma concat_take_singletons {A : Type} (l : list A) (k : nat) :
  concat (take k (map (fun x => [x]) l)) = take k l.
Proof.
  revert k. induction l as [| x l IH]; intros [| k]; try reflexivity.
  cbn. f_equal. apply IH.
Qed.

End replay_example.

(** X23. When every worker starts on its chunk in the state in which the
    serial renderer reaches the first pixel of that chunk, so that the
    pixels are given the random samples they are given in the serial run,
    the chunked renderer [save_image_to_png] hands the encoder the very
    array that the serial renderer [_save_image_to_png] returns, whatever
    the order in which the chunks complete. *)
Theorem parallel_render_equals_serial (fuel : nat) (self : camera.Camera)
    (world : hittable.Hittable) (cpu_count : nat) (sched : camera.schedule)
    (st st' : state) (chunks : list (list (nat * nat))) (color_array : np.ndarray) :
  (0 <= camera.image_height self)%Z ->
  (0 <= camera.image_width self)%Z ->
  camera.chunks self cpu_count = Ok chunks ->
  Permutation (camera.completion sched) (seq 0 (length chunks)) ->
  spec.same_samples fuel self world st chunks (camera.worker sched) ->
  camera._save_image_to_png fuel self world st = Ok (color_array, st') ->
  camera.save_image_to_png fuel self world cpu_count sched = Ok color_array.
Proof.
  intros Hh Hw Hchunks Hperm Hsame Hserial.
  destruct (zeros_shape _ _ Hh Hw) as (blank & Hblank & _).
  pose proof (chunks_Ok_concat self cpu_count chunks Hchunks) as Hconcat.
  (* the serial renderer, cut into the chunks *)
  rewrite serial_renderer_process_chunk, Hblank in Hserial. cbn [rbind] in Hserial.
  apply rbind_Ok_inv in Hserial as ([done st2] & Hrun & Hserial).
  apply rbind_Ok_inv in Hserial as (a & Hmerge & Hserial).
  cbn [fst snd] in Hmerge, Hserial. injection Hserial as -> ->.
  pose proof (process_chunk_fst _ _ _ _ _ _ _ Hrun) as Hpixels.
  rewrite <- Hconcat in Hrun.
  destruct (process_chunk_segments fuel self world chunks st st'
              (camera.worker sched) done Hrun Hsame)
    as (results & -> & Hlength & Hresults).
  (* the chunked renderer *)
  unfold camera.save_image_to_png. rewrite Hblank, Hchunks. cbn [rbind].
  rewrite (imap_unordered_replay fuel self world chunks results sched
             (camera.completion sched) Hresults).
  2: { apply List.Forall_forall. intros k Hk.
       apply (Permutation_in _ Hperm), in_seq in Hk. lia. }
  cbn [rbind]. rewrite merge_concat, <- Hmerge. symmetry.
  apply merge_chunk_Permutation.
  - apply Permutation_concat.
    rewrite <- (map_lookup_total_seq results) at 1. rewrite Hlength.
    apply Permutation_map. now symmetry.
  - rewrite Hpixels. apply pixels_NoDup.
Qed.

(** The 4 x 2 image of [viewer] on one core: eight chunks of one pixel
    each, completing out of order, each on a worker that starts where the
    serial renderer, started in [st1], reaches that pixel. *)
Lemma parallel_render_equals_serial_witness :
  exists color_array st',
    camera._save_image_to_png 1 sample.viewer (hittable.AWorld []) sample.st1
    = Ok (color_array, st')
    /\ camera.save_image_to_png 1 sample.viewer (hittable.AWorld []) 1
         (camera.mkSchedule [3; 1; 0; 2; 7; 6; 5; 4]%nat
            (fun k =>
               spec.serial_state 1 sample.viewer (hittable.AWorld []) sample.st1
                 (take k (camera.pixels sample.viewer))))
       = Ok color_array.
Proof.
  destruct (process_chunk_viewer (camera.pixels sample.viewer) sample.st1)
    as (done & st' & Hrun).
  destruct (serial_renderer_returns 1 sample.viewer (hittable.AWorld [])
              sample.st1 st' done) as (color_array & Hserial);
    [cbn; lia | cbn; lia | exact Hrun |].
  exists color_array, st'. split; [exact Hserial |].
  apply (parallel_render_equals_serial 1 sample.viewer (hittable.AWorld []) 1 _
           sample.st1 st' (map (fun pixel => [pixel]) (camera.pixels sample.viewer))
           color_array).
  - cbn. lia.
  - cbn. lia.
  - reflexivity.
  - change (seq 0 (length (map (fun pixel => [pixel]) (camera.pixels sample.viewer))))
      with [0; 1; 2; 3; 4; 5; 6; 7]%nat.
    cbn [camera.completion].
    apply (Permutation_trans (l' := [0; 1; 3; 2; 7; 6; 5; 4]%nat)).
    { apply (Permutation_trans (l' := [1; 3; 0; 2; 7; 6; 5; 4]%nat)).
      - apply perm_swap.
      - apply (Permutation_trans (l' := [1; 0; 3; 2; 7; 6; 5; 4]%nat)).
        + apply perm_skip, perm_swap.
        + apply perm_swap. }
    do 2 apply perm_skip.
    apply (Permutation_trans (l' := [2; 3; 7; 6; 5; 4]%nat)); [apply perm_swap |].
    do 2 apply perm_skip. symmetry. apply (Permutation_rev [4; 5; 6; 7]%nat).
  - intros k _. cbn [camera.worker]. rewrite concat_take_singletons.
    unfold spec.serial_state.
    destruct (process_chunk_viewer (take k (camera.pixels sample.viewer)) sample.st1)
      as (before & reached & Hbefore).
    rewrite Hbefore. now exists before.
  - exact Hserial.
Defined.

(** ** color.py and camera.py: the PPM renderer *)

Section ppm.

Variables (fuel : nat) (self : camera.Camera) (world : hittable.Hittable).

Let lines (colours : list (list Z)) : string :=
  fold_right String.append EmptyString (map spec.ppm_pixel colours).

Lemma string_app_assoc (a b c : string) :
  ((a ++ b) ++ c = a ++ (b ++ c))%string.
Proof. induction a as [| x a IH]; cbn; [reflexivity | now rewrite IH]. Qed.

Lemma lines_app (colours colours' : list (list Z)) :
  lines (colours ++ colours') = (lines colours ++ lines colours')%string.
Proof.
  induction colours as [| rgb colours IH]; [reflexivity |].
  cbn [app]. unfold lines in *. cbn [map fold_right].
  now rewrite IH, string_app_assoc.
Qed.

Lemma write_color_ppm_pixel (c : color.Color) :
  color.write_color c
  = (let? rgb := color.make_color_array c in Ok (spec.ppm_pixel rgb)).
Proof.
  unfold color.write_color, color.make_color_array.
  destruct (color.linear_to_gamma (color.red c)); cbn [rbind]; try reflexivity.
  destruct (color.linear_to_gamma (color.green c)); cbn [rbind]; try reflexivity.
  destruct (color.linear_to_gamma (color.blue c)); cbn [rbind]; try reflexivity.
  cbv zeta.
  destruct (float.int (float.xmul 256 (interval.clamp _ a))); cbn [rbind]; try reflexivity.
  destruct (float.int (float.xmul 256 (interval.clamp _ a0))); cbn [rbind]; try reflexivity.
  destruct (float.int (float.xmul 256 (interval.clamp _ a1))); cbn [rbind]; try reflexivity.
  unfold spec.ppm_pixel. cbn [map String.concat].
  now rewrite !string_app_assoc.
Qed.

Lemma take_S_insert {A : Type} (l : list A) (k : nat) (v : A) :
  (k < length l)%nat -> take (S k) (<[k := v]> l) = take k l ++ [v].
Proof.
  revert k. induction l as [| x l IH]; intros [| k] Hk; cbn in *; try lia.
  - reflexivity.
  - f_equal. apply IH. lia.
Qed.

Lemma insert_insert_same {A : Type} (l : list A) (j : nat) (x y : A) :
  <[j := x]> (<[j := y]> l) = <[j := x]> l.
Proof.
  revert j. induction l as [| z l IH]; intros [| j]; cbn; try reflexivity.
  f_equal. apply IH.
Qed.

(** Row [j] from column [k] on: both loops compute the same colours from
    the same states; one stores them in the row, the other writes them. *)
Lemma serial_row_render_row (j n : nat) :
  forall (k : nat) (a : np.ndarray) (row : list (list Z)) (st : state),
    a !! j = Some row -> length row = (k + n)%nat ->
    exists outcome : result (list (list Z) * state),
      camera.serial_row fuel self world j (seq k n) a st
      = (let? out := outcome in Ok (<[j := take k row ++ fst out]> a, snd out))
      /\ camera.render_row fuel self world j (seq k n) st
         = (let? out := outcome in Ok (lines (fst out), snd out))
      /\ (forall out, outcome = Ok out -> length (fst out) = n).
Proof.
  induction n as [| n IH]; intros k a row st Hrow Hlen.
  - exists (Ok ([], st)). cbn [seq camera.serial_row camera.render_row rbind fst snd].
    split; [| split; [reflexivity | now intros out [= <-]]].
    rewrite app_nil_r, take_ge by lia. now rewrite list_insert_id.
  - cbn [seq camera.serial_row camera.render_row].
    destruct (camera.accumulate fuel self world k j (camera.samples_per_pixel self)
                (vec3.from_xyz 0 0 0) st) as [[pixel st1] | e | |] eqn:Hacc.
    2: { exists (Raise e). unfold bind. rewrite Hacc.
         split; [reflexivity | split; [reflexivity | intros out [=]]]. }
    2: { exists OutOfFuel. unfold bind. rewrite Hacc.
         split; [reflexivity | split; [reflexivity | intros out [=]]]. }
    2: { exists BadRef. unfold bind. rewrite Hacc.
         split; [reflexivity | split; [reflexivity | intros out [=]]]. }
    rewrite !(bind_Ok _ _ _ _ _ Hacc).
    destruct (vec3.truediv pixel (INR (camera.samples_per_pixel self)))
      as [mean | e | |] eqn:Hmean.
    2: { exists (Raise e). unfold bind, lift.
         split; [reflexivity | split; [reflexivity | intros out [=]]]. }
    2: { exists OutOfFuel. unfold bind, lift.
         split; [reflexivity | split; [reflexivity | intros out [=]]]. }
    2: { exists BadRef. unfold bind, lift.
         split; [reflexivity | split; [reflexivity | intros out [=]]]. }
    rewrite !(bind_Ok _ _ st1 st1 mean) by reflexivity.
    rewrite write_color_ppm_pixel.
    destruct (color.make_color_array mean) as [rgb | e | |] eqn:Hrgb.
    2: { exists (Raise e). unfold bind, lift.
         split; [reflexivity | split; [reflexivity | intros out [=]]]. }
    2: { exists OutOfFuel. unfold bind, lift.
         split; [reflexivity | split; [reflexivity | intros out [=]]]. }
    2: { exists BadRef. unfold bind, lift.
         split; [reflexivity | split; [reflexivity | intros out [=]]]. }
    rewrite (bind_Ok _ _ st1 st1 rgb) by reflexivity.
    rewrite (bind_Ok _ _ st1 st1 (spec.ppm_pixel rgb)) by reflexivity.
    destruct (make_color_array_bytes _ _ Hrgb) as (_ & _ & ->).
    assert (Hk : (k < length row)%nat) by lia.
    rewrite (bind_Ok _ _ st1 st1 (<[j := <[k := rgb]> row]> a))
      by (apply lift_Ok; now apply setitem_Ok).
    destruct (IH (S k) (<[j := <[k := rgb]> row]> a) (<[k := rgb]> row) st1)
      as (outcome & Hserial & Hrender & Hlength).
    { apply list_lookup_insert_eq. now apply lookup_lt_Some in Hrow. }
    { rewrite length_insert. lia. }
    exists (let? out := outcome in Ok (rgb :: fst out, snd out)).
    rewrite Hserial. unfold bind. rewrite Hrender.
    destruct outcome as [[colours st2] | e | |]; cbn [rbind fst snd];
      try (split; [reflexivity | split; [reflexivity | intros out [=]]]).
    split; [| split].
    + rewrite insert_insert_same, take_S_insert by assumption.
      now rewrite <- app_assoc.
    + reflexivity.
    + intros out [= <-]. cbn [fst length]. f_equal. now apply (Hlength (colours, st2)).
Qed.

Lemma serial_rows_render_rows (width m : nat) :
  width = Z.to_nat (camera.image_width self) ->
  forall (j : nat) (a : np.ndarray) (st : state),
    length a = (j + m)%nat ->
    Forall (fun row => length row = width) a ->
    exists outcome : result (list (list (list Z)) * state),
      camera.serial_rows fuel self world (seq j m) a st
      = (let? out := outcome in Ok (take j a ++ fst out, snd out))
      /\ camera.render_rows fuel self world (seq j m) st
         = (let? out := outcome in Ok (lines (concat (fst out)), snd out)).
Proof.
  intros Hwidth. induction m as [| m IH]; intros j a st Hlen Hrows.
  - exists (Ok ([], st)). cbn [seq camera.serial_rows camera.render_rows rbind fst snd].
    split; [| reflexivity]. now rewrite app_nil_r, take_ge by lia.
  - cbn [seq camera.serial_rows camera.render_rows].
    unfold builtins.range. rewrite <- Hwidth.
    destruct (lookup_lt_is_Some_2 a j ltac:(lia)) as (row & Hrow).
    assert (Hrow_len : length row = (0 + width)%nat).
    { rewrite Forall_lookup in Hrows. now apply (Hrows j). }
    destruct (serial_row_render_row j width 0 a row st Hrow Hrow_len)
      as (first & Hserial & Hrender & Hlength).
    unfold bind. rewrite Hserial, Hrender.
    destruct first as [[colours st1] | e | |]; cbn [rbind fst snd firstn app].
    2: { exists (Raise e). split; reflexivity. }
    2: { exists OutOfFuel. split; reflexivity. }
    2: { exists BadRef. split; reflexivity. }
    destruct (IH (S j) (<[j := colours]> a) st1) as (outcome & Hserial' & Hrender').
    { rewrite length_insert. lia. }
    { apply Forall_insert; [assumption |]. now apply (Hlength (colours, st1)). }
    exists (let? out := outcome in Ok (colours :: fst out, snd out)).
    change (take 0 row ++ colours) with colours.
    rewrite Hserial', Hrender'.
    destruct outcome as [[rows st2] | e | |]; cbn [rbind fst snd];
      try (split; reflexivity).
    split.
    + rewrite take_S_insert by lia. now rewrite <- app_assoc.
    + cbn [concat]. now rewrite lines_app.
Qed.

Lemma render_serial (st : state) :
  (0 <= camera.image_height self)%Z ->
  (0 <= camera.image_width self)%Z ->
  camera.render fuel self world st
  = (let? out := camera._save_image_to_png fuel self world st in
     Ok (spec.ppm self (fst out), snd out)).
Proof.
  intros Hheight Hwidth.
  destruct (zeros_shape _ _ Hheight Hwidth) as (a & Hzeros & Hlen & Hrows).
  unfold camera._save_image_to_png, camera.render. cbv zeta.
  rewrite (bind_Ok _ _ st st a) by now apply lift_Ok.
  unfold builtins.range.
  destruct (serial_rows_render_rows _ (Z.to_nat (camera.image_height self)) eq_refl
              0 a st Hlen Hrows) as (outcome & Hserial & Hrender).
  unfold bind. rewrite Hserial, Hrender.
  destruct outcome as [[rows st1] | e | |]; cbn [rbind fst snd firstn app];
    try reflexivity.
  unfold ret, spec.ppm. fold (lines (concat rows)).
  now rewrite !string_app_assoc.
Qed.

End ppm.

(** X24. [write_color] writes the three values that [make_color_array]
    returns, and [Camera.render] is the serial renderer
    [_save_image_to_png] with another output: started in the same state,
    the two raise the same exception or stop in the same state, and the
    text of the one is the PPM header followed by the pixels of the array
    of the other, one per line and row by row. *)
Theorem render_writes_the_serial_array (fuel : nat) (self : camera.Camera)
    (world : hittable.Hittable) (st : state) :
  (0 <= camera.image_height self)%Z ->
  (0 <= camera.image_width self)%Z ->
  (forall c,
      color.write_color c
      = (let? rgb := color.make_color_array c in Ok (spec.ppm_pixel rgb)))
  /\ camera.render fuel self world st
     = (let? out := camera._save_image_to_png fuel self world st in
        Ok (spec.ppm self (fst out), snd out)).
Proof.
  intros Hheight Hwidth. split; [apply write_color_ppm_pixel | now apply render_serial].
Qed.

Lemma render_writes_the_serial_array_witness :
  (forall c,
      color.write_color c
      = (let? rgb := color.make_color_array c in Ok (spec.ppm_pixel rgb)))
  /\ camera.render 1 sample.thumbnail (hittable.AWorld []) sample.st0
     = (let? out :=
          camera._save_image_to_png 1 sample.thumbnail (hittable.AWorld []) sample.st0 in
        Ok (spec.ppm sample.thumbnail (fst out), snd out)).
Proof.
  apply (render_writes_the_serial_array 1 sample.thumbnail (hittable.AWorld [])
           sample.st0); cbn; lia.
Defined.

(** ** vec3.py and color.py: two more functions *)

(** X25. The vector that [cross] returns is perpendicular to both of its
    arguments, its squared length is [|u|^2 |v|^2 - (u . v)^2], and
    swapping the arguments negates it. *)
Theorem cross_is_perpendicular (u v : vec3.Vec3) :
  vec3.dot (vec3.cross u v) u = 0
  /\ vec3.dot (vec3.cross u v) v = 0
  /\ vec3.length_squared (vec3.cross u v)
     = vec3.length_squared u * vec3.length_squared v - vec3.dot u v * vec3.dot u v
  /\ vec3.cross v u = vec3.neg (vec3.cross u v).
Proof.
  split; [vsimpl; ring |]. split; [vsimpl; ring |].
  split; [symmetry; apply lagrange_identity |].
  apply Vec3_eq; vsimpl; ring.
Qed.

Section brightness.

Let intensity : interval.Interval := interval.mkInterval 0.00 0.999.

(** The byte of one channel is the integer part of 256 times the clamped
    square root. *)
Lemma channel_floor (v : R) :
  exists g c : R, exists n : Z,
    color.linear_to_gamma v = Ok g
    /\ interval.clamp intensity g = float.fin c
    /\ float.int (float.xmul 256 (interval.clamp intensity g)) = Ok n
    /\ (v <= 0 -> g = 0) /\ (0 < v -> g = sqrt v)
    /\ 0 <= g
    /\ (g <= 0.999 -> c = g) /\ (0.999 <= g -> c = 0.999)
    /\ IZR n <= 256 * c < IZR n + 1.
Proof.
  destruct (linear_to_gamma_ok v) as (g & Hg & Hg0 & Hgneg & Hgpos).
  destruct (clamp_intensity g Hg0) as (c & Hc & Hcr & Hcsmall & Hcbig).
  cbv zeta in Hc.
  destruct (byte_of_clamped c Hcr) as (n & Hn & _ & Hfloor).
  exists g, c, n. unfold intensity. rewrite Hc. repeat split; auto; apply Hfloor.
Qed.

Lemma channel_monotone (v v' : R) (n n' : Z) :
  v <= v' ->
  (let? g := color.linear_to_gamma v in
   float.int (float.xmul 256 (interval.clamp intensity g))) = Ok n ->
  (let? g := color.linear_to_gamma v' in
   float.int (float.xmul 256 (interval.clamp intensity g))) = Ok n' ->
  (n <= n')%Z.
Proof.
  intros Hle Hn Hn'.
  destruct (channel_floor v)
    as (g & c & m & Hg & Hc & Hm & Hneg & Hpos & Hg0 & Hsmall & Hbig & Hfloor).
  destruct (channel_floor v')
    as (g' & c' & m' & Hg' & Hc' & Hm' & Hneg' & Hpos' & Hg0' & Hsmall' & Hbig' & Hfloor').
  rewrite Hg in Hn. rewrite Hg' in Hn'. cbn [rbind] in Hn, Hn'.
  rewrite Hm in Hn. rewrite Hm' in Hn'. injection Hn as <-. injection Hn' as <-.
  assert (Hgg : g <= g').
  { destruct (Rle_dec v 0) as [Hv | Hv].
    - rewrite (Hneg Hv). assumption.
    - rewrite Hpos, Hpos' by lra. apply sqrt_le_1_alt. assumption. }
  assert (Hcc : c <= c').
  { destruct (Rle_dec g 0.999), (Rle_dec g' 0.999).
    - rewrite Hsmall, Hsmall' by assumption. assumption.
    - rewrite Hsmall, Hbig' by lra. assumption.
    - lra.
    - rewrite Hbig, Hbig' by lra. lra. }
  assert (IZR m < IZR m' + 1) by lra.
  assert (m < m' + 1)%Z by (apply lt_IZR; rewrite plus_IZR; assumption).
  lia.
Qed.

End brightness.

(** X26. [make_color_array] is monotone: a colour that is at least as
    bright in each linear channel gets, in each channel, at least as large
    a byte. *)
Theorem brighter_colours_get_larger_bytes (c c' : color.Color) (rgb rgb' : list Z) :
  color.red c <= color.red c' ->
  color.green c <= color.green c' ->
  color.blue c <= color.blue c' ->
  color.make_color_array c = Ok rgb ->
  color.make_color_array c' = Ok rgb' ->
  Forall2 Z.le rgb rgb'.
Proof.
  intros Hr Hg Hb. unfold color.make_color_array. intros H H'.
  apply rbind_Ok_inv in H as (r & Er & H). apply rbind_Ok_inv in H as (g & Eg & H).
  apply rbind_Ok_inv in H as (b & Eb & H). cbv zeta in H.
  apply rbind_Ok_inv in H as (ir & Eir & H). apply rbind_Ok_inv in H as (ig & Eig & H).
  apply rbind_Ok_inv in H as (ib & Eib & [= <-]).
  apply rbind_Ok_inv in H' as (r' & Er' & H'). apply rbind_Ok_inv in H' as (g' & Eg' & H').
  apply rbind_Ok_inv in H' as (b' & Eb' & H'). cbv zeta in H'.
  apply rbind_Ok_inv in H' as (ir' & Eir' & H'). apply rbind_Ok_inv in H' as (ig' & Eig' & H').
  apply rbind_Ok_inv in H' as (ib' & Eib' & [= <-]).
  repeat constructor.
  - apply (channel_monotone _ _ ir ir' Hr); [now rewrite Er | now rewrite Er'].
  - apply (channel_monotone _ _ ig ig' Hg); [now rewrite Eg | now rewrite Eg'].
  - apply (channel_monotone _ _ ib ib' Hb); [now rewrite Eb | now rewrite Eb'].
Qed.

Section brightness_example.

Lemma make_color_array_white :
  color.make_color_array (vec3.from_xyz 1 1 1) = Ok [255; 255; 255]%Z.
Proof.
  unfold color.make_color_array.
  destruct (channel_byte 1) as (g & n & Eg & En & _ & _ & Hbright & _).
  cbn [color.red color.green color.blue vec3.x vec3.y vec3.z].
  rewrite Eg. cbn [rbind]. cbv zeta. cbv zeta in En. rewrite En. cbn [rbind].
  now rewrite Hbright by lra.
Qed.

End brightness_example.

Lemma brighter_colours_get_larger_bytes_witness :
  Forall2 Z.le [0; 0; 0]%Z [255; 255; 255]%Z.
Proof.
  apply (brighter_colours_get_larger_bytes (vec3.from_xyz 0 0 0) (vec3.from_xyz 1 1 1)).
  - cbn. lra.
  - cbn. lra.
  - cbn. lra.
  - now apply make_color_array_black.
  - apply make_color_array_white.
Defined.

(** ** raytracer.py: what [write_image] hands to the renderer *)

Section scene.

(** The random source answers in [[0, 1)], as [random.random] does. *)
Let fair (st : state) : Prop := forall k, 0 <= tape st k < 1.

Let sound (object : hittable.Hittable) : Prop :=
  exists s, object = hittable.ASphere s /\ spec.albedo_in_gamut (hittable.material s).

Lemma Vec3_random_run (st : state) :
  vec3.random st
  = Ok (vec3.from_xyz (tape st (pos st)) (tape st (S (pos st)))
          (tape st (S (S (pos st)))),
        mkState (heap st) (tape st) (S (S (S (pos st))))).
Proof. reflexivity. Qed.

Lemma Metal_init_Ok (albedo : color.Color) (fuzz : R) :
  0 <= fuzz <= 1 -> material.Metal_init albedo fuzz = Ok (core.Metal albedo fuzz).
Proof.
  intros H. unfold material.Metal_init.
  now rewrite !ltb_false by lra.
Qed.

Lemma Sphere_init_Ok (center : vec3.Point3) (radius : R) (m : core.Material) :
  0 < radius ->
  exists s,
    hittable.Sphere_init center radius m = Ok s
    /\ hittable.center s = center
    /\ hittable.radius s = radius
    /\ hittable.material s = m.
Proof.
  intros H. unfold hittable.Sphere_init.
  destruct (Rle_dec radius 0); [lra |].
  eexists. split; [reflexivity |]. cbn. auto.
Qed.

Lemma sphere_material_Ok (choose_mat : R) (st : state) :
  fair st ->
  exists m st',
    raytracer.sphere_material choose_mat st = Ok (m, st')
    /\ spec.albedo_in_gamut m
    /\ heap st' = heap st
    /\ tape st' = tape st.
Proof.
  intros Hfair. unfold raytracer.sphere_material.
  destruct (float.ltb choose_mat 0.5).
  - rewrite (bind_Ok _ _ _ _ _ (Vec3_random_run st)).
    rewrite (bind_Ok _ _ _ _ _ (Vec3_random_run _)). cbn [heap tape pos].
    eexists _, _. split; [reflexivity |]. split; [| auto].
    cbn [spec.albedo_in_gamut].
    unfold spec.in_gamut, color.red, color.green, color.blue. vsimpl.
    pose proof (Hfair (pos st)). pose proof (Hfair (S (pos st))).
    pose proof (Hfair (S (S (pos st)))). pose proof (Hfair (S (S (S (pos st))))).
    pose proof (Hfair (S (S (S (S (pos st)))))).
    pose proof (Hfair (S (S (S (S (S (pos st))))))).
    repeat split; nra.
  - destruct (float.ltb choose_mat 0.8).
    + rewrite (bind_Ok _ _ _ _ _ (Vec3_uniform_run 0.5 1 st)).
      rewrite (bind_Ok _ _ _ _ _ (random_uniform_run 0 0.5 _)). cbn [heap tape pos].
      pose proof (Hfair (pos st)). pose proof (Hfair (S (pos st))).
      pose proof (Hfair (S (S (pos st)))). pose proof (Hfair (S (S (S (pos st))))).
      unfold lift. rewrite Metal_init_Ok by lra. cbn [rbind].
      eexists _, _. split; [reflexivity |]. split; [| auto].
      cbn [spec.albedo_in_gamut].
      unfold spec.in_gamut, color.red, color.green, color.blue. cbn [vec3.x vec3.y vec3.z].
      repeat split; lra.
    + exists (core.Dielectric 1.5), st. split; [reflexivity |]. cbn. auto.
Qed.

Lemma add_sphere_Ok (objects : list hittable.Hittable) (a b : Z) (st : state) :
  fair st ->
  exists s st',
    raytracer.add_sphere objects a b st = Ok (objects ++ [hittable.ASphere s], st')
    /\ spec.albedo_in_gamut (hittable.material s)
    /\ heap st' = heap st
    /\ tape st' = tape st.
Proof.
  intros Hfair. unfold raytracer.add_sphere.
  rewrite (bind_Ok _ _ _ _ _ (random_uniform_run 0.05 0.5 st)).
  rewrite (bind_Ok _ _ _ _ _ (random_run _)).
  rewrite (bind_Ok _ _ _ _ _ (random_run _)).
  rewrite (bind_Ok _ _ _ _ _ (random_run _)).
  cbn [heap tape pos].
  set (st4 := mkState (heap st) (tape st) (S (S (S (S (pos st)))))).
  destruct (sphere_material_Ok (tape st (S (pos st))) st4 Hfair)
    as (m & st5 & Hm & Hgamut & Hheap & Htape).
  rewrite (bind_Ok _ _ _ _ _ Hm).
  pose proof (Hfair (pos st)) as Hradius.
  destruct (Sphere_init_Ok
              (vec3.from_xyz (IZR a + 0.9 * tape st (S (S (pos st))))
                 (0.05 + (0.5 - 0.05) * tape st (pos st))
                 (IZR b + 0.9 * tape st (S (S (S (pos st))))))
              (0.05 + (0.5 - 0.05) * tape st (pos st)) m ltac:(lra))
    as (s & Hs & _ & _ & Hmat).
  rewrite (bind_Ok _ _ st5 st5 s) by (apply lift_Ok; exact Hs).
  exists s, st5. split; [reflexivity |]. rewrite Hmat. auto.
Qed.

Lemma row_Ok (a : Z) (bs : list Z) :
  forall (objects : list hittable.Hittable) (st : state),
    fair st -> Forall sound objects ->
    exists objects' st',
      raytracer.row objects a bs st = Ok (objects', st')
      /\ Forall sound objects'
      /\ length objects' = (length objects + length bs)%nat
      /\ heap st' = heap st
      /\ tape st' = tape st.
Proof.
  induction bs as [| b bs IH]; intros objects st Hfair Hsound.
  - exists objects, st. split; [reflexivity |]. cbn [length]. auto with lia.
  - cbn [raytracer.row].
    destruct (add_sphere_Ok objects a b st Hfair) as (s & st1 & Hadd & Hs & Hheap & Htape).
    rewrite (bind_Ok _ _ _ _ _ Hadd).
    destruct (IH (objects ++ [hittable.ASphere s]) st1)
      as (objects' & st' & Hrow & Hsound' & Hlen & Hheap' & Htape').
    { intros k. rewrite Htape. apply Hfair. }
    { apply Forall_app. split; [assumption |]. repeat constructor. now exists s. }
    exists objects', st'. split; [exact Hrow |]. split; [assumption |].
    rewrite length_app in Hlen. cbn [length] in *.
    split; [lia |]. split; congruence.
Qed.

Lemma grid_Ok (as_ : list Z) :
  forall (objects : list hittable.Hittable) (st : state),
    fair st -> Forall sound objects ->
    exists objects' st',
      raytracer.grid objects as_ st = Ok (objects', st')
      /\ Forall sound objects'
      /\ length objects' = (length objects + length as_ * 16)%nat
      /\ heap st' = heap st
      /\ tape st' = tape st.
Proof.
  induction as_ as [| a as_ IH]; intros objects st Hfair Hsound.
  - exists objects, st. split; [reflexivity |]. cbn [length]. auto with lia.
  - cbn [raytracer.grid].
    destruct (row_Ok a (builtins.range2 (-8) 8) objects st Hfair Hsound)
      as (objects1 & st1 & Hrow & Hsound1 & Hlen1 & Hheap1 & Htape1).
    rewrite (bind_Ok _ _ _ _ _ Hrow).
    destruct (IH objects1 st1) as (objects' & st' & Hgrid & Hsound' & Hlen & Hheap' & Htape').
    { intros k. rewrite Htape1. apply Hfair. }
    { assumption. }
    exists objects', st'. split; [exact Hgrid |]. split; [assumption |].
    change (length (builtins.range2 (-8) 8)) with 16%nat in Hlen1. cbn [length].
    split; [lia |]. split; congruence.
Qed.

Lemma scene_Ok (st : state) :
  fair st ->
  exists objects st',
    raytracer.scene st = Ok (objects, st')
    /\ Forall sound objects
    /\ length objects = 257%nat
    /\ heap st' = heap st
    /\ tape st' = tape st.
Proof.
  intros Hfair. unfold raytracer.scene. cbv zeta.
  destruct (Sphere_init_Ok (vec3.from_xyz 0 (-1000) 0) 1000
              (core.Lambertian (vec3.from_xyz 0.5 0.5 0.5)) ltac:(lra))
    as (ground & Hground & _ & _ & Hmat).
  rewrite (bind_Ok _ _ st st ground) by (apply lift_Ok; exact Hground).
  destruct (grid_Ok (builtins.range2 (-8) 8) (hittable.add [] (hittable.ASphere ground)) st
              Hfair)
    as (objects & st' & Hgrid & Hsound & Hlen & Hheap & Htape).
  { repeat constructor. exists ground. split; [reflexivity |]. rewrite Hmat.
    cbn [spec.albedo_in_gamut].
    unfold spec.in_gamut, color.red, color.green, color.blue. cbn. lra. }
  exists objects, st'. split; [exact Hgrid |]. split; [assumption |].
  split; [| auto]. rewrite Hlen. reflexivity.
Qed.

Lemma sound_scene (objects : list hittable.Hittable) (s : hittable.Sphere) :
  Forall sound objects ->
  spec.primitive s (hittable.AWorld objects) ->
  spec.albedo_in_gamut (hittable.material s).
Proof.
  intros Hsound Hs. apply primitive_world_iff in Hs as (object & Hin & Hs).
  rewrite List.Forall_forall in Hsound.
  destruct (Hsound object Hin) as (s' & -> & Hgamut).
  now apply primitive_sphere_iff in Hs as <-.
Qed.

Lemma camera_Ok :
  exists cam,
    raytracer.camera = Ok cam
    /\ camera.image_width cam = 1200%Z
    /\ camera.image_height cam = 675%Z.
Proof.
  unfold raytracer.camera, camera.init. cbn [camera.or_default].
  rewrite (truediv_eval (IZR 1200) (16 / 9) 675) by lra. cbn [rbind float.int].
  rewrite (trunc_nonneg 675 675) by lra.
  change (Z.max 1 675) with 675%Z.
  rewrite truediv_ok by lra. cbn [rbind].
  rewrite unit_vector_ok by (vsimpl; lra). cbn [rbind].
  set (k := 1 / sqrt _).
  assert (Hk : 0 < k).
  { unfold k. apply Rdiv_lt_0_compat; [lra |]. apply sqrt_lt_R0. vsimpl. lra. }
  rewrite unit_vector_ok by (vsimpl; nra). cbn [rbind].
  unfold vec3.truediv. rewrite !truediv_ok by lra. cbn [rbind].
  eexists. split; [reflexivity |]. split; reflexivity.
Qed.

Lemma length_bind_const {A B : Type} (f : A -> list B) (n : nat) (l : list A) :
  (forall x, length (f x) = n) -> length (l ≫= f) = (length l * n)%nat.
Proof.
  intros Hf. induction l as [| x l IH]; [reflexivity |].
  rewrite bind_cons, length_app, IH, Hf. cbn [length]. lia.
Qed.

Lemma pixels_length (self : camera.Camera) :
  length (camera.pixels self)
  = (Z.to_nat (camera.image_height self) * Z.to_nat (camera.image_width self))%nat.
Proof.
  unfold camera.pixels, builtins.range.
  rewrite (length_bind_const _ (Z.to_nat (camera.image_width self))).
  - now rewrite length_seq.
  - intros j. rewrite (length_bind_const _ 1%nat) by reflexivity.
    rewrite length_seq. lia.
Qed.

End scene.

(** X27. Whatever the random source answers, within [[0, 1)],
    [write_image] gets as far as the renderer: the camera is constructed,
    for a 1200 x 675 image, and so is the scene, of 257 spheres, none of
    which trips the checks of [Sphere] and [Metal]; every albedo in the
    scene has its channels between 0 and 1; and on a machine with at most
    101250 cores the pixels are cut into chunks. *)
Theorem write_image_reaches_the_renderer
    (fuel cpu_count : nat) (sched : camera.schedule) (st : state) :
  (forall k, 0 <= tape st k < 1) ->
  exists cam objects st',
    raytracer.write_image fuel cpu_count sched st
    = (let? color_array :=
         camera.save_image_to_png fuel cam (hittable.AWorld objects) cpu_count sched in
       Ok (color_array, st'))
    /\ camera.image_width cam = 1200%Z
    /\ camera.image_height cam = 675%Z
    /\ length objects = 257%nat
    /\ (forall s, spec.primitive s (hittable.AWorld objects) ->
                  spec.albedo_in_gamut (hittable.material s))
    /\ ((1 <= cpu_count)%nat -> (Z.of_nat cpu_count <= 101250)%Z ->
        exists chunks, camera.chunks cam cpu_count = Ok chunks).
Proof.
  intros Hfair.
  destruct camera_Ok as (cam & Hcam & Hwidth & Hheight).
  destruct (scene_Ok st Hfair) as (objects & st' & Hscene & Hsound & Hlen & _).
  exists cam, objects, st'. unfold raytracer.write_image.
  rewrite (bind_Ok _ _ st st cam) by (apply lift_Ok; exact Hcam).
  rewrite (bind_Ok _ _ _ _ _ Hscene).
  split; [reflexivity |]. split; [assumption |]. split; [assumption |].
  split; [assumption |]. split; [intros s; now apply sound_scene |].
  intros Hcpu Hmany.
  assert (Hpixels : (cpu_count * 8 <= length (camera.pixels cam))%nat).
  { rewrite pixels_length, Hwidth, Hheight. lia. }
  destruct (chunks_concat cam cpu_count
              (length (camera.pixels cam) / (cpu_count * 8))%nat)
    as (chunks & Hchunks & _).
  - unfold builtins.floordiv.
    destruct (Nat.eqb_spec (cpu_count * 8) 0); [lia | reflexivity].
  - apply Nat.div_le_lower_bound; lia.
  - now exists chunks.
Qed.

Lemma write_image_reaches_the_renderer_witness :
  exists cam objects st',
    raytracer.write_image 1 1 (camera.mkSchedule [] (fun _ => sample.st0)) sample.st0
    = (let? color_array :=
         camera.save_image_to_png 1 cam (hittable.AWorld objects) 1
           (camera.mkSchedule [] (fun _ => sample.st0)) in
       Ok (color_array, st'))
    /\ camera.image_width cam = 1200%Z
    /\ camera.image_height cam = 675%Z
    /\ length objects = 257%nat.
Proof.
  destruct (write_image_reaches_the_renderer 1 1
              (camera.mkSchedule [] (fun _ => sample.st0)) sample.st0)
    as (cam & objects & st' & Hrun & Hwidth & Hheight & Hlen & _).
  { intros k. cbn. lra. }
  exists cam, objects, st'. auto.
Defined.

(** ** camera.py: two ways to stop a render *)

Section still_rays.

Variable r : ray.Ray.
Hypothesis still : vec3.length_squared (ray.direction r) = 0.

(** A query with a ray without direction raises in the first sphere it
    reaches, and finds nothing if it reaches none. *)
Let quiet (object : hittable.Hittable) : Prop :=
  forall (l : loc) (st : state) (range : interval.Interval),
    heap st !! l = Some range ->
    hittable.hit object r l st = Raise ZeroDivisionError
    \/ exists st',
         hittable.hit object r l st = Ok (None, st')
         /\ (forall l' i, heap st !! l' = Some i -> heap st' !! l' = Some i).

Lemma World_hit_loop_still (objects : list hittable.Hittable) :
  Forall quiet objects ->
  forall (curr : loc) (st : state) (range : interval.Interval),
    heap st !! curr = Some range ->
    hittable.World_hit_loop hittable.hit r curr objects None st
    = Raise ZeroDivisionError
    \/ exists st',
         hittable.World_hit_loop hittable.hit r curr objects None st = Ok (None, st')
         /\ (forall l' i, heap st !! l' = Some i -> heap st' !! l' = Some i).
Proof.
  induction 1 as [| object rest Hobject _ IH]; intros curr st range Hcurr.
  - right. exists st. split; [reflexivity | auto].
  - cbn [hittable.World_hit_loop].
    destruct (Hobject curr st range Hcurr) as [Hraise | (st1 & Hnone & Hkeep)].
    + left. unfold bind. now rewrite Hraise.
    + rewrite (bind_Ok _ _ _ _ _ Hnone).
      destruct (IH curr st1 range (Hkeep _ _ Hcurr)) as [Hraise | (st' & Hloop & Hkeep')].
      * now left.
      * right. exists st'. split; [exact Hloop | auto].
Qed.

Lemma hit_still (object : hittable.Hittable) : quiet object.
Proof.
  induction object as [s | objects IH] using Hittable_rect_nested;
    intros l st range Hrange.
  - left. cbn [hittable.hit]. now apply Sphere_hit_still.
  - cbn [hittable.hit]. unfold hittable.World_hit.
    rewrite (bind_Ok _ _ _ _ _ (copy_Ok _ _ _ Hrange)).
    set (st1 := mkState (heap st ++ [range]) (tape st) (pos st)).
    destruct (World_hit_loop_still objects IH (length (heap st)) st1 range)
      as [Hraise | (st' & Hloop & Hkeep)].
    { cbn [heap st1]. now apply list_lookup_middle. }
    + now left.
    + right. exists st'. split; [exact Hloop |].
      intros l' i Hi. apply Hkeep. cbn [heap st1]. now apply lookup_app_l_Some.
Qed.

End still_rays.

(** X28. A ray without direction cannot be coloured: at every positive
    depth, in every scene and every state, [ray_color] raises
    [ZeroDivisionError] for it, from the first sphere the query reaches or,
    if it reaches none, from the background. *)
Theorem ray_color_needs_a_direction (fuel : nat) (r : ray.Ray)
    (world : hittable.Hittable) (depth : nat) (st : state) :
  vec3.length_squared (ray.direction r) = 0 ->
  camera.ray_color fuel r world (S depth) st = Raise ZeroDivisionError.
Proof.
  intros still.
  cbn [camera.ray_color].
  set (range := interval.mkInterval 0.001 utils.infinity).
  set (st1 := mkState (heap st ++ [range]) (tape st) (pos st)).
  rewrite (bind_Ok _ _ st st1 (length (heap st))) by reflexivity.
  destruct (hit_still r still world (length (heap st)) st1 range)
    as [Hraise | (st' & Hnone & _)].
  { cbn [heap st1]. now apply list_lookup_middle. }
  - unfold bind. now rewrite Hraise.
  - rewrite (bind_Ok _ _ _ _ _ Hnone).
    unfold bind, lift. now rewrite unit_vector_zero.
Qed.

Lemma ray_color_needs_a_direction_witness :
  camera.ray_color 1 sample.still
    (hittable.AWorld [hittable.AWorld []; hittable.ASphere sample.ball]) 1 sample.st0
  = Raise ZeroDivisionError.
Proof. apply ray_color_needs_a_direction. real. Defined.

Section no_samples.

Variables (fuel : nat) (self : camera.Camera) (world : hittable.Hittable).
Hypothesis no_samples : camera.samples_per_pixel self = 0%nat.

Lemma mean_of_no_samples (c : color.Color) :
  vec3.truediv c (INR 0) = Raise ZeroDivisionError.
Proof. unfold vec3.truediv. cbn [INR]. now rewrite truediv_zero. Qed.

Lemma process_chunk_no_samples (pixel : nat * nat) (chunk : list (nat * nat))
    (st : state) :
  camera.process_chunk fuel self (pixel :: chunk) world st = Raise ZeroDivisionError.
Proof.
  destruct pixel as [j i]. cbn [camera.process_chunk]. rewrite no_samples.
  cbn [camera.accumulate]. unfold bind, ret, lift.
  now rewrite mean_of_no_samples.
Qed.

Lemma serial_no_samples (st : state) :
  (1 <= camera.image_height self)%Z ->
  (1 <= camera.image_width self)%Z ->
  camera._save_image_to_png fuel self world st = Raise ZeroDivisionError.
Proof.
  intros Hheight Hwidth.
  destruct (zeros_shape (camera.image_height self) (camera.image_width self))
    as (a & Hzeros & _); [lia | lia |].
  unfold camera._save_image_to_png.
  rewrite (bind_Ok _ _ st st a) by now apply lift_Ok.
  unfold builtins.range.
  destruct (Z.to_nat (camera.image_height self)) as [| rows] eqn:Hrows; [lia |].
  cbn [seq camera.serial_rows]. unfold builtins.range.
  destruct (Z.to_nat (camera.image_width self)) as [| columns] eqn:Hcolumns; [lia |].
  cbn [seq camera.serial_row]. rewrite no_samples.
  cbn [camera.accumulate]. unfold bind, ret, lift.
  now rewrite mean_of_no_samples.
Qed.

End no_samples.

(** X29. A camera with [samples_per_pixel = 0] renders nothing: each of
    the three renderers divides the colour of its first pixel by zero.
    [process_chunk] raises [ZeroDivisionError] on every chunk that is not
    empty, and on an image of at least one pixel so do
    [_save_image_to_png] and [render]. *)
Theorem no_samples_no_image (fuel : nat) (self : camera.Camera)
    (world : hittable.Hittable) (st : state) :
  camera.samples_per_pixel self = 0%nat ->
  (1 <= camera.image_height self)%Z ->
  (1 <= camera.image_width self)%Z ->
  (forall pixel chunk st1,
      camera.process_chunk fuel self (pixel :: chunk) world st1
      = Raise ZeroDivisionError)
  /\ camera._save_image_to_png fuel self world st = Raise ZeroDivisionError
  /\ camera.render fuel self world st = Raise ZeroDivisionError.
Proof.
  intros Hsamples Hheight Hwidth.
  split; [intros pixel chunk st1; now apply process_chunk_no_samples |].
  pose proof (serial_no_samples fuel self world Hsamples st Hheight Hwidth) as Hserial.
  split; [exact Hserial |].
  rewrite render_serial by lia. now rewrite Hserial.
Qed.

Lemma no_samples_no_image_witness :
  camera._save_image_to_png 1
    (camera.mkCamera 4 0 2 0 0
       (vec3.from_xyz 0 0 0) (vec3.from_xyz 0 0 0) (vec3.from_xyz 0 0 0)
       (vec3.from_xyz 0 0 0) (vec3.from_xyz 0 0 0) (vec3.from_xyz 0 0 0))
    (hittable.AWorld []) sample.st0
  = Raise ZeroDivisionError.
Proof.
  apply (no_samples_no_image 1
           (camera.mkCamera 4 0 2 0 0
              (vec3.from_xyz 0 0 0) (vec3.from_xyz 0 0 0) (vec3.from_xyz 0 0 0)
              (vec3.from_xyz 0 0 0) (vec3.from_xyz 0 0 0) (vec3.from_xyz 0 0 0))
           (hittable.AWorld []) sample.st0); cbn; (reflexivity || lia).
Defined.
